(** * wow.export.UE5: face culling, R16 heightmaps and the map tile export

    A shallow embedding of
      - [FaceCuller.cullBackFaces]                     (class FaceCuller),
      - [R16Writer.setHeightDataFromChunks], [write]   (3D/writers/R16Writer),
      - [collectGameObjects], [exportSelectedMap]      (src/js/ui/tab-maps.js),
      - [loadMap], [loadMapTile], [parseMapEntry], [exportSelectedMapWMO] and
        the two event handlers                         (src/js/ui/tab-maps.js),
    the properties of them that the specification states, and further
    properties that the code shows.

    JavaScript numbers are IEEE 754 binary64 values: they are modelled by
    Rocq's primitive floats, whose operations are the same correctly rounded
    binary64 operations.  Array lengths and array indices are modelled by
    [nat]; [undefined] read from an array is [None]. *)

From Stdlib Require Import ZArith List Lia ZifyNat Floats Bool String Ascii DecimalString.
From stdpp Require Import base list gmap.
Import ListNotations.

Set Warnings "-inexact-float".
Open Scope nat_scope.

(** ** FaceCuller *)

Module FaceCuller.

(** An element read from the index array: [None] is JavaScript's
    [undefined], which is what [triangleIndices[i + 1]] yields past the end
    of an array whose length is not a multiple of three. *)
Definition jsidx := option nat.

Definition vec3 : Type := float * float * float.

(** [i * 3 + 2 >= vertices.length]; with [i] undefined the left side is NaN
    and the comparison is false. *)
Definition outOfBounds (i : jsidx) (len : nat) : bool :=
  match i with
  | Some n => len <=? n * 3 + 2
  | None => false
  end.

(** [vertices[k]] used as an operand of a subtraction: a missing element is
    [undefined], which arithmetic turns into NaN. *)
Definition coord (vertices : list float) (k : option nat) : float :=
  match k with
  | Some k => nth k vertices nan
  | None => nan
  end.

(** [[vertices[i * 3], vertices[i * 3 + 1], vertices[i * 3 + 2]]] *)
Definition vertexAt (vertices : list float) (i : jsidx) : vec3 :=
  (coord vertices (option_map (fun n => n * 3) i),
   coord vertices (option_map (fun n => n * 3 + 1) i),
   coord vertices (option_map (fun n => n * 3 + 2) i)).

(** The comparator [(a, b) => a - b] of [Array.prototype.sort]; [undefined]
    elements are moved to the end without calling the comparator. *)
Definition idx_leb (a b : jsidx) : bool :=
  match a, b with
  | Some x, Some y => x <=? y
  | _, None => true
  | None, Some _ => false
  end.

Fixpoint insertSorted (a : jsidx) (l : list jsidx) : list jsidx :=
  match l with
  | [] => [a]
  | b :: l' => if idx_leb a b then a :: l else b :: insertSorted a l'
  end.

(** [[i0, i1, i2].sort((a, b) => a - b)] *)
Definition sortedIndices (i0 i1 i2 : jsidx) : list jsidx :=
  insertSorted i0 (insertSorted i1 (insertSorted i2 [])).

(** [String(x)] for an array element in [join]: decimal digits for a
    number, the empty string for [undefined]. *)
Definition idxToString (i : jsidx) : string :=
  match i with
  | Some n => NilEmpty.string_of_uint (Nat.to_uint n)
  | None => EmptyString
  end.

(** [sortedIndices.join('-')] *)
Definition triangleKey (i0 i1 i2 : jsidx) : string :=
  String.concat "-" (map idxToString (sortedIndices i0 i1 i2)).

(** The object stored in [triangleMap]. *)
Record entry : Type := Entry {
  indices : jsidx * jsidx * jsidx;
  normal : vec3
}.

(** A JavaScript [Map] iterates in the order in which its keys were first
    inserted, and [set] on a key that is present keeps the key's place:
    an association list with in-place replacement. *)
Definition tmap : Type := list (string * entry).

Fixpoint mapGet (k : string) (m : tmap) : option entry :=
  match m with
  | [] => None
  | (k', e) :: m' => if String.eqb k k' then Some e else mapGet k m'
  end.

Fixpoint mapSet (k : string) (e : entry) (m : tmap) : tmap :=
  match m with
  | [] => [(k, e)]
  | (k', e') :: m' =>
      if String.eqb k k' then (k, e) :: m' else (k', e') :: mapSet k e m'
  end.

Definition mapValues (m : tmap) : list entry := map snd m.

(** The two locals the loop mutates. *)
Record state : Type := State {
  culledIndices : list jsidx;
  triangleMap : tmap
}.

Definition push3 (st : state) (i0 i1 i2 : jsidx) : state :=
  State (culledIndices st ++ [i0; i1; i2]) (triangleMap st).

Definition setEntry (st : state) (k : string) (e : entry) : state :=
  State (culledIndices st) (mapSet k e (triangleMap st)).

(** The cross product of the two edges from vertex 0, not yet normalised. *)
Definition rawNormal (vertices : list float) (i0 i1 i2 : jsidx) : vec3 :=
  let '(v0x, v0y, v0z) := vertexAt vertices i0 in
  let '(v1x, v1y, v1z) := vertexAt vertices i1 in
  let '(v2x, v2y, v2z) := vertexAt vertices i2 in
  let '(e1x, e1y, e1z) := (v1x - v0x, v1y - v0y, v1z - v0z)%float in
  let '(e2x, e2y, e2z) := (v2x - v0x, v2y - v0y, v2z - v0z)%float in
  (e1y * e2z - e1z * e2y, e1z * e2x - e1x * e2z, e1x * e2y - e1y * e2x)%float.

Definition normalLength (n : vec3) : float :=
  let '(nx, ny, nz) := n in PrimFloat.sqrt (nx * nx + ny * ny + nz * nz)%float.

(** [normalLength < 1e-6] *)
Definition degenerate (n : vec3) : bool := (normalLength n <? 1e-6)%float.

Definition unitNormal (n : vec3) : vec3 :=
  let len := normalLength n in
  let '(nx, ny, nz) := n in (nx / len, ny / len, nz / len)%float.

Definition dotProduct (a b : vec3) : float :=
  let '(ax, ay, az) := a in
  let '(bx, b_y, bz) := b in
  (ax * bx + ay * b_y + az * bz)%float.

(** [n[2] * 4 + n[1] * 2 + n[0]] *)
Definition score (n : vec3) : float :=
  let '(nx, ny, nz) := n in (nz * 4 + ny * 2 + nx)%float.

(** [dotProduct < -0.8] *)
Definition opposite (a b : vec3) : bool := (dotProduct a b <? -0.8)%float.

Definition malformed (vertices : list float) (i0 i1 i2 : jsidx) : bool :=
  outOfBounds i0 (length vertices) || outOfBounds i1 (length vertices)
  || outOfBounds i2 (length vertices).

(** One iteration of the [for] loop (lines 27-106). *)
Definition processTriangle (vertices : list float) (st : state)
    (i0 i1 i2 : jsidx) : state :=
  if malformed vertices i0 i1 i2 then push3 st i0 i1 i2
  else
    let key := triangleKey i0 i1 i2 in
    let raw := rawNormal vertices i0 i1 i2 in
    if degenerate raw then st
    else
      let n := unitNormal raw in
      match mapGet key (triangleMap st) with
      | Some existing =>
          if opposite n (normal existing) then
            if (score (normal existing) <? score n)%float
            then setEntry st key (Entry (i0, i1, i2) n)
            else st
          else push3 st i0 i1 i2
      | None => setEntry st key (Entry (i0, i1, i2) n)
      end.

(** [for (let i = 0; i < triangleIndices.length; i += 3)]: the array is
    consumed three elements at a time; a last group of one or two elements
    is completed with [undefined]. *)
Fixpoint scan (vertices : list float) (l : list nat) (st : state) : state :=
  match l with
  | [] => st
  | [i0] => processTriangle vertices st (Some i0) None None
  | [i0; i1] => processTriangle vertices st (Some i0) (Some i1) None
  | i0 :: i1 :: i2 :: rest =>
      scan vertices rest
        (processTriangle vertices st (Some i0) (Some i1) (Some i2))
  end.

Definition entryIndices (e : entry) : list jsidx :=
  let '(i0, i1, i2) := indices e in [i0; i1; i2].

(** [culledIndices] after the final loop over [triangleMap.values()]. *)
Definition emit (st : state) : list jsidx :=
  culledIndices st ++ flat_map entryIndices (mapValues (triangleMap st)).

(** The function on two arrays. *)
Definition cullArrays (triangleIndices : list nat) (vertices : list float)
    : list jsidx :=
  if length triangleIndices =? 0 then map Some triangleIndices
  else emit (scan vertices triangleIndices (State [] [])).

(** [FaceCuller.cullBackFaces(triangleIndices, vertices)]; an argument that
    is [null] or [undefined] is [None]. *)
Definition cullBackFaces (triangleIndices : option (list nat))
    (vertices : option (list float)) : list jsidx :=
  match triangleIndices, vertices with
  | Some t, Some v => cullArrays t v
  | Some t, None => map Some t
  | None, _ => []
  end.

(** *** Triples *)

(** A group of three elements as the loop reads it. *)
Abbreviation jtriple := (jsidx * jsidx * jsidx)%type.

(** The complete groups of three of an array (a ragged tail is left out). *)
Fixpoint triples {A : Type} (l : list A) : list (A * A * A) :=
  match l with
  | i0 :: i1 :: i2 :: rest => (i0, i1, i2) :: triples rest
  | _ => []
  end.

Definition flatten3 {A : Type} (ts : list (A * A * A)) : list A :=
  flat_map (fun t : A * A * A => let '(a, b, c) := t in [a; b; c]) ts.

Definition jsTriple (t : nat * nat * nat) : jtriple :=
  let '(a, b, c) := t in (Some a, Some b, Some c).

(** The groups the loop visits, the last one completed with [undefined]. *)
Fixpoint groups (l : list nat) : list jtriple :=
  match l with
  | [] => []
  | [i0] => [(Some i0, None, None)]
  | [i0; i1] => [(Some i0, Some i1, None)]
  | i0 :: i1 :: i2 :: rest => (Some i0, Some i1, Some i2) :: groups rest
  end.

Definition keyOf (t : jtriple) : string :=
  let '(a, b, c) := t in triangleKey a b c.

Definition tripleMalformed (vertices : list float) (t : jtriple) : bool :=
  let '(a, b, c) := t in malformed vertices a b c.

Definition tripleRaw (vertices : list float) (t : jtriple) : vec3 :=
  let '(a, b, c) := t in rawNormal vertices a b c.

Definition tripleDegenerate (vertices : list float) (t : jtriple) : bool :=
  degenerate (tripleRaw vertices t).

(** The unit normal the loop computes for a triangle. *)
Definition tripleNormal (vertices : list float) (t : jtriple) : vec3 :=
  unitNormal (tripleRaw vertices t).

Definition stepT (vertices : list float) (st : state) (t : jtriple) : state :=
  let '(a, b, c) := t in processTriangle vertices st a b c.

(** *** The loop seen on triples

    Every entry of [triangleMap] is determined by the triangle it was made
    from, so the state of the loop is described by two lists of triangles:
    the ones pushed to [culledIndices] and the ones pending in the map. *)

Definition entryOf (vertices : list float) (t : jtriple) : string * entry :=
  (keyOf t, Entry t (tripleNormal vertices t)).

Fixpoint tsGet (k : string) (ms : list jtriple) : option jtriple :=
  match ms with
  | [] => None
  | t :: ms' => if String.eqb k (keyOf t) then Some t else tsGet k ms'
  end.

Fixpoint tsSet (t : jtriple) (ms : list jtriple) : list jtriple :=
  match ms with
  | [] => [t]
  | t' :: ms' =>
      if String.eqb (keyOf t) (keyOf t') then t :: ms' else t' :: tsSet t ms'
  end.

Definition tstate : Type := list jtriple * list jtriple.

Definition stepA (vertices : list float) (s : tstate) (t : jtriple) : tstate :=
  let '(cs, ms) := s in
  if tripleMalformed vertices t then (cs ++ [t], ms)
  else if tripleDegenerate vertices t then (cs, ms)
  else
    match tsGet (keyOf t) ms with
    | Some old =>
        if opposite (tripleNormal vertices t) (tripleNormal vertices old) then
          if (score (tripleNormal vertices old)
              <? score (tripleNormal vertices t))%float
          then (cs, tsSet t ms)
          else (cs, ms)
        else (cs ++ [t], ms)
    | None => (cs, tsSet t ms)
    end.

Definition stateOf (vertices : list float) (s : tstate) : state :=
  State (flatten3 (fst s)) (map (entryOf vertices) (snd s)).

Definition sameKey (k : string) (t : jtriple) : bool := String.eqb (keyOf t) k.

(** The triangles both kept in and left pending by a state. *)
Definition pool (s : tstate) : list jtriple := fst s ++ snd s.

(** "Exactly one of the two triangles is emitted", by value. *)
Definition emitsExactlyOne (out : list jtriple) (t1 t2 : jtriple) : Prop :=
  (In t1 out /\ ~ In t2 out) \/ (In t2 out /\ ~ In t1 out).

(** A unit square in the plane z = 0, used by the examples: the triangle
    (0, 1, 2) has normal (0, 0, 1) and (0, 2, 1) has normal (0, 0, -1). *)
Definition squareVertices : list float :=
  [0; 0; 0;  1; 0; 0;  0; 1; 0;  1; 1; 0]%float.

End FaceCuller.

(** ** Properties of FaceCuller *)

Module FaceCullerProofs.
Import FaceCuller.

Lemma triples_flatten3 {A : Type} (ts : list (A * A * A)) :
  triples (flatten3 ts) = ts.
Proof.
  induction ts as [|[[a b] c] ts IH]; simpl; [reflexivity|].
  now rewrite IH.
Qed.

Lemma flatten3_app {A : Type} (xs ys : list (A * A * A)) :
  flatten3 (xs ++ ys) = flatten3 xs ++ flatten3 ys.
Proof. unfold flatten3. apply flat_map_app. Qed.

Lemma length_flatten3 {A : Type} (ts : list (A * A * A)) :
  length (flatten3 ts) = 3 * length ts.
Proof.
  induction ts as [|[[a b] c] ts IH]; simpl; [reflexivity|].
  rewrite IH. lia.
Qed.

(** Induction three elements at a time. *)
Lemma list_ind3 {A : Type} (P : list A -> Prop) :
  P [] -> (forall a, P [a]) -> (forall a b, P [a; b]) ->
  (forall a b c l, P l -> P (a :: b :: c :: l)) ->
  forall l, P l.
Proof.
  intros H0 H1 H2 H3 l.
  assert (G : forall n (k : list A), length k <= n -> P k).
  { induction n as [|n IH]; intros k Hk.
    - destruct k; [exact H0 | simpl in Hk; lia].
    - destruct k as [|a [|b [|c k]]]; auto.
      apply H3. apply IH. simpl in Hk. lia. }
  apply (G (length l)). lia.
Qed.

Lemma mod3_step n : (3 + n) mod 3 = n mod 3.
Proof.
  replace (3 + n) with (n + 1 * 3) by lia. apply Nat.Div0.mod_add.
Qed.

Lemma scan_groups v l st : scan v l st = fold_left (stepT v) (groups l) st.
Proof.
  revert st. induction l as [|a|a b|a b c l IH] using list_ind3; intros st;
    try reflexivity.
  change (scan v (a :: b :: c :: l) st)
    with (scan v l (processTriangle v st (Some a) (Some b) (Some c))).
  rewrite IH. reflexivity.
Qed.

Lemma groups_triples l :
  length l mod 3 = 0 -> groups l = map jsTriple (triples l).
Proof.
  induction l as [|a|a b|a b c l IH] using list_ind3; intros H;
    try reflexivity; try discriminate.
  change (length (a :: b :: c :: l)) with (3 + length l) in H.
  change (groups (a :: b :: c :: l))
    with ((Some a, Some b, Some c) :: groups l).
  change (triples (a :: b :: c :: l)) with ((a, b, c) :: triples l).
  simpl map. f_equal. apply IH. now rewrite mod3_step in H.
Qed.

Lemma groups_flatten3 (ts : list (nat * nat * nat)) :
  groups (flatten3 ts) = map jsTriple ts.
Proof.
  induction ts as [|[[a b] c] ts IH]; [reflexivity|].
  change (flatten3 (((a, b), c) :: ts)) with (a :: b :: c :: flatten3 ts).
  change (groups (a :: b :: c :: flatten3 ts))
    with ((Some a, Some b, Some c) :: groups (flatten3 ts)).
  now rewrite IH.
Qed.

Lemma flatten3_triples {A : Type} (l : list A) :
  length l mod 3 = 0 -> flatten3 (triples l) = l.
Proof.
  induction l as [|a|a b|a b c l IH] using list_ind3; intros H;
    try reflexivity; try discriminate.
  change (length (a :: b :: c :: l)) with (3 + length l) in H.
  simpl. f_equal. f_equal. f_equal. apply IH. now rewrite mod3_step in H.
Qed.

Lemma flatten3_jsTriple (ts : list (nat * nat * nat)) :
  flatten3 (map jsTriple ts) = map Some (flatten3 ts).
Proof.
  induction ts as [|[[a b] c] ts IH]; [reflexivity|].
  simpl. now rewrite IH.
Qed.

(** The map read and written through the triangles that made its entries. *)
Lemma mapGet_entryOf v k ms :
  mapGet k (map (entryOf v) ms)
  = option_map (fun t => snd (entryOf v t)) (tsGet k ms).
Proof.
  induction ms as [|t ms IH]; simpl; [reflexivity|].
  destruct (String.eqb k (keyOf t)); [reflexivity | exact IH].
Qed.

Lemma mapSet_entryOf v t ms :
  mapSet (keyOf t) (Entry t (tripleNormal v t)) (map (entryOf v) ms)
  = map (entryOf v) (tsSet t ms).
Proof.
  induction ms as [|t' ms IH]; simpl; [reflexivity|].
  destruct (String.eqb (keyOf t) (keyOf t')); simpl; [reflexivity|].
  now rewrite IH.
Qed.

(** One iteration of the loop acts on the triangle lists as [stepA]. *)
Lemma stepT_stateOf v s t :
  stepT v (stateOf v s) t = stateOf v (stepA v s t).
Proof.
  destruct s as [cs ms], t as [[a b] c].
  unfold stepT, processTriangle, stepA, tripleMalformed, tripleDegenerate.
  destruct (malformed v a b c).
  { unfold stateOf, push3. cbn [culledIndices triangleMap fst snd].
    now rewrite flatten3_app. }
  change (rawNormal v a b c) with (tripleRaw v (a, b, c)).
  destruct (degenerate (tripleRaw v (a, b, c))); [reflexivity|].
  change (triangleKey a b c) with (keyOf (a, b, c)).
  change (unitNormal (tripleRaw v (a, b, c)))
    with (tripleNormal v (a, b, c)).
  unfold stateOf at 1. cbn [triangleMap fst snd].
  rewrite mapGet_entryOf.
  destruct (tsGet (keyOf (a, b, c)) ms) as [old|]; cbn [option_map].
  - cbn [entryOf snd normal].
    destruct (opposite _ _).
    + destruct (_ <? _)%float; [|reflexivity].
      unfold setEntry, stateOf. cbn [culledIndices triangleMap fst snd].
      now rewrite mapSet_entryOf.
    + unfold stateOf, push3. cbn [culledIndices triangleMap fst snd].
      now rewrite flatten3_app.
  - unfold setEntry, stateOf. cbn [culledIndices triangleMap fst snd].
    now rewrite mapSet_entryOf.
Qed.

Lemma fold_stateOf v ts s :
  fold_left (stepT v) ts (stateOf v s) = stateOf v (fold_left (stepA v) ts s).
Proof.
  revert s. induction ts as [|t ts IH]; intros s; [reflexivity|].
  simpl. rewrite stepT_stateOf. apply IH.
Qed.

Lemma emit_stateOf v s : emit (stateOf v s) = flatten3 (fst s ++ snd s).
Proof.
  destruct s as [cs ms]. unfold emit, stateOf, mapValues. simpl.
  rewrite flatten3_app. f_equal.
  induction ms as [|[[a b] c] ms IH]; simpl; [reflexivity|].
  now rewrite IH.
Qed.

(** The whole function on arrays, in terms of the triangle lists. *)
Lemma cullArrays_groups tis v :
  cullArrays tis v
  = let s := fold_left (stepA v) (groups tis) ([], []) in
    flatten3 (fst s ++ snd s).
Proof.
  unfold cullArrays. destruct tis as [|a tis]; [reflexivity|].
  cbn [length Nat.eqb]. rewrite scan_groups.
  change (State [] []) with (stateOf v ([], [])).
  rewrite fold_stateOf. apply emit_stateOf.
Qed.

(** *** Conservation: the output is a sub-multiset of the input triples *)

Lemma tsSet_submseteq t ms : tsSet t ms ⊆+ t :: ms.
Proof.
  induction ms as [|t' ms IH]; simpl; [reflexivity|].
  destruct (String.eqb (keyOf t) (keyOf t')).
  - apply submseteq_skip, submseteq_cons. reflexivity.
  - etransitivity; [apply submseteq_skip, IH|].
    apply Permutation_submseteq, perm_swap.
Qed.

Lemma stepA_pool v s t : pool (stepA v s t) ⊆+ t :: pool s.
Proof.
  destruct s as [cs ms]. unfold stepA, pool.
  assert (Hpush : (cs ++ [t]) ++ ms ⊆+ t :: cs ++ ms).
  { apply Permutation_submseteq. rewrite <- app_assoc. simpl.
    symmetry. apply Permutation_middle. }
  assert (Hset : cs ++ tsSet t ms ⊆+ t :: cs ++ ms).
  { etransitivity; [apply submseteq_app; [reflexivity|apply tsSet_submseteq]|].
    apply Permutation_submseteq. symmetry. apply Permutation_middle. }
  assert (Hskip : cs ++ ms ⊆+ t :: cs ++ ms) by (apply submseteq_cons; reflexivity).
  cbn [fst snd].
  destruct (tripleMalformed v t); [exact Hpush|].
  destruct (tripleDegenerate v t); [exact Hskip|].
  destruct (tsGet (keyOf t) ms); [|exact Hset].
  destruct (opposite _ _); [|exact Hpush].
  destruct (_ <? _)%float; [exact Hset | exact Hskip].
Qed.

Lemma foldA_pool v ts s : pool (fold_left (stepA v) ts s) ⊆+ pool s ++ ts.
Proof.
  revert s. induction ts as [|t ts IH]; intros s; simpl.
  - rewrite app_nil_r. reflexivity.
  - etransitivity; [apply IH|].
    etransitivity; [apply submseteq_app; [apply stepA_pool|reflexivity]|].
    apply Permutation_submseteq. simpl. apply Permutation_middle.
Qed.

(** *** What is pushed does not depend on what was pushed before *)

Lemma stepA_shift v ms t :
  exists d ms', forall cs, stepA v (cs, ms) t = (cs ++ d, ms').
Proof.
  unfold stepA.
  destruct (tripleMalformed v t); [now exists [t], ms|].
  destruct (tripleDegenerate v t).
  { exists [], ms. intros cs. now rewrite app_nil_r. }
  destruct (tsGet (keyOf t) ms).
  - destruct (opposite _ _); [|now exists [t], ms].
    destruct (_ <? _)%float.
    + exists [], (tsSet t ms). intros cs. now rewrite app_nil_r.
    + exists [], ms. intros cs. now rewrite app_nil_r.
  - exists [], (tsSet t ms). intros cs. now rewrite app_nil_r.
Qed.

Lemma foldA_shift v ts ms :
  exists d ms', forall cs, fold_left (stepA v) ts (cs, ms) = (cs ++ d, ms').
Proof.
  revert ms. induction ts as [|t ts IH]; intros ms.
  - exists [], ms. intros cs. simpl. now rewrite app_nil_r.
  - destruct (stepA_shift v ms t) as (d1 & m1 & H1).
    destruct (IH m1) as (d & m' & H).
    exists (d1 ++ d), m'. intros cs. cbn [fold_left].
    rewrite H1, H. now rewrite app_assoc.
Qed.

Lemma groups_app pre post :
  length pre mod 3 = 0 -> groups (pre ++ post) = groups pre ++ groups post.
Proof.
  induction pre as [|a|a b|a b c l IH] using list_ind3; intros H;
    try reflexivity; try discriminate.
  change (length (a :: b :: c :: l)) with (3 + length l) in H.
  rewrite mod3_step in H.
  change (groups ((a :: b :: c :: l) ++ post))
    with ((Some a, Some b, Some c) :: groups (l ++ post)).
  rewrite (IH H). reflexivity.
Qed.

(** *** Triangles of one key *)

Lemma sameKey_tsGet k ms : tsGet k ms = head (List.filter (sameKey k) ms).
Proof.
  induction ms as [|t ms IH]; simpl; [reflexivity|].
  unfold sameKey at 1. rewrite (String.eqb_sym (keyOf t) k).
  destruct (String.eqb k (keyOf t)); [reflexivity | exact IH].
Qed.

Lemma filter_tsSet_other k t ms :
  keyOf t <> k ->
  List.filter (sameKey k) (tsSet t ms) = List.filter (sameKey k) ms.
Proof.
  intros Hk. assert (Ht : sameKey k t = false) by now apply String.eqb_neq.
  induction ms as [|t' ms IH]; simpl; [now rewrite Ht|].
  destruct (String.eqb (keyOf t) (keyOf t')) eqn:E; simpl.
  - apply String.eqb_eq in E. rewrite Ht.
    unfold sameKey at 2. rewrite <- E. fold (sameKey k t). now rewrite Ht.
  - now rewrite IH.
Qed.

Lemma filter_tsSet_same k t ms :
  keyOf t = k ->
  List.filter (sameKey k) (tsSet t ms)
  = t :: tail (List.filter (sameKey k) ms).
Proof.
  intros Hk. assert (Ht : sameKey k t = true) by now apply String.eqb_eq.
  induction ms as [|t' ms IH]; simpl; [now rewrite Ht|].
  destruct (String.eqb (keyOf t) (keyOf t')) eqn:E; simpl.
  - apply String.eqb_eq in E. rewrite Ht.
    unfold sameKey at 2. rewrite <- E. fold (sameKey k t). now rewrite Ht.
  - assert (Ht' : sameKey k t' = false).
    { unfold sameKey. rewrite <- Hk, String.eqb_sym. exact E. }
    now rewrite Ht', IH.
Qed.

Lemma filter_snoc {A : Type} (f : A -> bool) l x :
  List.filter f (l ++ [x]) = List.filter f l ++ (if f x then [x] else []).
Proof. rewrite List.filter_app. reflexivity. Qed.

(** A triangle of another key leaves the triangles of key [k] alone. *)
Lemma stepA_other v k s t :
  keyOf t <> k ->
  List.filter (sameKey k) (fst (stepA v s t)) = List.filter (sameKey k) (fst s)
  /\ List.filter (sameKey k) (snd (stepA v s t))
     = List.filter (sameKey k) (snd s).
Proof.
  intros Hk. assert (Ht : sameKey k t = false) by now apply String.eqb_neq.
  destruct s as [cs ms]. unfold stepA. cbn [fst snd].
  assert (Hpush : List.filter (sameKey k) (cs ++ [t])
                  = List.filter (sameKey k) cs).
  { rewrite filter_snoc, Ht. apply app_nil_r. }
  pose proof (filter_tsSet_other k t ms Hk) as Hset.
  destruct (tripleMalformed v t); [now split|].
  destruct (tripleDegenerate v t); [now split|].
  destruct (tsGet (keyOf t) ms); [|now split].
  destruct (opposite _ _); [|now split].
  destruct (_ <? _)%float; now split.
Qed.

Lemma foldA_other v k ts s :
  Forall (fun t => keyOf t <> k) ts ->
  List.filter (sameKey k) (fst (fold_left (stepA v) ts s))
  = List.filter (sameKey k) (fst s)
  /\ List.filter (sameKey k) (snd (fold_left (stepA v) ts s))
     = List.filter (sameKey k) (snd s).
Proof.
  intros H. revert s. induction H as [|t ts Ht _ IH]; intros s; [now split|].
  simpl. destruct (IH (stepA v s t)) as [-> ->].
  now apply stepA_other.
Qed.

(** *** The claims about FaceCuller *)

(** C10.  For an index array whose length is a multiple of three (and any
    vertex argument, present or not), the output of [cullBackFaces] has a
    length that is a multiple of three and at most the input length, and its
    triples form a sub-multiset of the input triples: every emitted triple
    is an input triple, with its three indices in their original order, and
    no input triple is emitted more often than it occurs. *)
Theorem cullBackFaces_conservative (tis : list nat) (v : option (list float)) :
  length tis mod 3 = 0 ->
  let out := cullBackFaces (Some tis) v in
  length out mod 3 = 0 /\ length out <= length tis /\
  triples out ⊆+ map jsTriple (triples tis).
Proof.
  intros Hlen out.
  assert (G : exists ts, out = flatten3 ts /\ ts ⊆+ map jsTriple (triples tis)).
  { subst out. destruct v as [v|]; cbn [cullBackFaces].
    - rewrite cullArrays_groups. cbv zeta.
      eexists; split; [reflexivity|].
      rewrite <- (groups_triples tis Hlen).
      apply (foldA_pool v (groups tis) ([], [])).
    - exists (map jsTriple (triples tis)). split; [|reflexivity].
      rewrite flatten3_jsTriple. now rewrite (flatten3_triples tis Hlen). }
  destruct G as (ts & Hout & Hsub).
  pose proof (submseteq_length _ _ Hsub) as Hl.
  rewrite length_map in Hl.
  assert (Htis : length tis = 3 * length (triples tis)).
  { rewrite <- (flatten3_triples tis Hlen) at 1. apply length_flatten3. }
  rewrite Hout, triples_flatten3, length_flatten3.
  split; [|split; [lia | exact Hsub]].
  rewrite Nat.mul_comm. apply Nat.Div0.mod_mul.
Qed.

Lemma cullBackFaces_conservative_witness :
  length [0; 1; 2; 0; 2; 1; 9; 9; 9] mod 3 = 0 /\
  triples (cullBackFaces (Some [0; 1; 2; 0; 2; 1; 9; 9; 9]) (Some squareVertices))
  ⊆+ map jsTriple (triples [0; 1; 2; 0; 2; 1; 9; 9; 9]).
Proof.
  split; [reflexivity|].
  apply (cullBackFaces_conservative [0; 1; 2; 0; 2; 1; 9; 9; 9]
           (Some squareVertices)).
  reflexivity.
Defined.

(** C4.  A triple with a vertex outside the vertex buffer is emitted as it
    is, at the place of the triples pushed during the scan, and the rest of
    the output is what the function returns for the input without that
    triple: the triple is neither dropped as degenerate nor compared with,
    recorded for, or replaced by any other triple. *)
Theorem malformed_triple_passes_through (v : list float) (pre post : list nat)
    (a b c : nat) :
  length pre mod 3 = 0 ->
  malformed v (Some a) (Some b) (Some c) = true ->
  let before := culledIndices (scan v pre (State [] [])) in
  exists after,
    cullBackFaces (Some (pre ++ post)) (Some v) = before ++ after /\
    cullBackFaces (Some (pre ++ a :: b :: c :: post)) (Some v)
    = before ++ [Some a; Some b; Some c] ++ after.
Proof.
  intros Hpre Hbad before. cbn [cullBackFaces].
  rewrite !cullArrays_groups. cbv zeta.
  rewrite !(groups_app pre) by exact Hpre.
  change (groups (a :: b :: c :: post))
    with ((Some a, Some b, Some c) :: groups post).
  rewrite !fold_left_app.
  subst before. rewrite scan_groups.
  change (State [] []) with (stateOf v ([], [])). rewrite fold_stateOf.
  destruct (fold_left (stepA v) (groups pre) ([], [])) as [cs ms] eqn:E.
  cbn [stateOf culledIndices fst].
  destruct (foldA_shift v (groups post) ms) as (d & ms' & H).
  exists (flatten3 (d ++ ms')).
  assert (Hs : stepA v (cs, ms) (Some a, Some b, Some c)
               = (cs ++ [(Some a, Some b, Some c)], ms)).
  { unfold stepA, tripleMalformed. now rewrite Hbad. }
  cbn [fold_left]. rewrite Hs, !H. cbn [fst snd].
  rewrite <- !app_assoc, !flatten3_app. split; reflexivity.
Qed.

Lemma malformed_triple_passes_through_witness :
  malformed squareVertices (Some 0) (Some 1) (Some 7) = true /\
  exists after,
    cullBackFaces (Some ([0; 1; 2] ++ [0; 2; 1])) (Some squareVertices)
    = culledIndices (scan squareVertices [0; 1; 2] (State [] [])) ++ after /\
    cullBackFaces (Some ([0; 1; 2] ++ 0 :: 1 :: 7 :: [0; 2; 1]))
      (Some squareVertices)
    = culledIndices (scan squareVertices [0; 1; 2] (State [] []))
      ++ [Some 0; Some 1; Some 7] ++ after.
Proof.
  split; [reflexivity|].
  apply (malformed_triple_passes_through squareVertices [0; 1; 2] [0; 2; 1]
           0 1 7); reflexivity.
Defined.

(** The two triangles of the claim's example, in both orders: of the
    normals (0, 0, 1) and (0, 0, -1) the triangle with normal (0, 0, 1) is
    the one kept. *)
Example cull_up_down :
  tripleNormal squareVertices (Some 0, Some 1, Some 2) = (0, 0, 1)%float /\
  tripleNormal squareVertices (Some 0, Some 2, Some 1) = (0, 0, -1)%float /\
  cullBackFaces (Some [0; 1; 2; 0; 2; 1]) (Some squareVertices)
  = [Some 0; Some 1; Some 2] /\
  cullBackFaces (Some [0; 2; 1; 0; 1; 2]) (Some squareVertices)
  = [Some 0; Some 1; Some 2].
Proof. repeat split; vm_compute; reflexivity. Qed.

(** C3, as stated, fails when a key is shared by three triangles.  In
    [0,2,1, 0,2,1, 0,1,2] over the unit square no triangle is malformed or
    degenerate; the first (0,2,1) is recorded, the second (0,2,1) has the
    same normal as the recorded one and is pushed at once, and (0,1,2), whose
    normal is opposite to the recorded one and scores higher, replaces it.
    The second and third triangle share their key and have opposite normals,
    and both are emitted. *)
Lemma opposite_pair_both_emitted :
  let v := squareVertices in
  let tis := [0; 2; 1; 0; 2; 1; 0; 1; 2] in
  let out := triples (cullBackFaces (Some tis) (Some v)) in
  Forall (fun t => tripleMalformed v t = false /\ tripleDegenerate v t = false)
    (groups tis) /\
  ~ (forall t1 t2 : jtriple,
       In t1 (groups tis) -> In t2 (groups tis) ->
       keyOf t1 = keyOf t2 ->
       opposite (tripleNormal v t2) (tripleNormal v t1) = true ->
       emitsExactlyOne out t1 t2).
Proof.
  cbv zeta. split.
  - repeat constructor.
  - intros H.
    destruct (H (Some 0, Some 2, Some 1) (Some 0, Some 1, Some 2))
      as [[_ Hn]|[_ Hn]].
    + vm_compute. auto.
    + vm_compute. auto.
    + reflexivity.
    + reflexivity.
    + apply Hn. vm_compute. auto.
    + apply Hn. vm_compute. auto.
Qed.

(** C3, amended.  When exactly two triangles of the input share a key (the
    other triangles are arbitrary), neither of the two is malformed or
    degenerate, and the dot product of the later one's unit normal with the
    earlier one's is below -0.8, the output holds exactly one triangle of
    that key: the later one if its score [nz*4 + ny*2 + nx] is strictly
    larger than the earlier one's, and the earlier one otherwise. *)
Theorem opposite_pair_keeps_one (v : list float)
    (pre mid post : list (nat * nat * nat)) (tp tq : nat * nat * nat) :
  let k := keyOf (jsTriple tp) in
  let np := tripleNormal v (jsTriple tp) in
  let nq := tripleNormal v (jsTriple tq) in
  tripleMalformed v (jsTriple tp) = false ->
  tripleDegenerate v (jsTriple tp) = false ->
  tripleMalformed v (jsTriple tq) = false ->
  tripleDegenerate v (jsTriple tq) = false ->
  keyOf (jsTriple tq) = k ->
  opposite nq np = true ->
  Forall (fun t => keyOf (jsTriple t) <> k) (pre ++ mid ++ post) ->
  List.filter (sameKey k)
    (triples (cullBackFaces
                (Some (flatten3 (pre ++ tp :: mid ++ tq :: post))) (Some v)))
  = [jsTriple (if (score np <? score nq)%float then tq else tp)].
Proof.
  intros k np nq Hmp Hdp Hmq Hdq Hk Hopp Hothers.
  cbn [cullBackFaces]. rewrite cullArrays_groups. cbv zeta.
  rewrite triples_flatten3, groups_flatten3.
  rewrite !map_app, !map_cons, !map_app, !map_cons.
  apply Forall_app in Hothers as [Hpre Hothers].
  apply Forall_app in Hothers as [Hmid Hpost].
  assert (Fm : forall l, Forall (fun t => keyOf (jsTriple t) <> k) l ->
                         Forall (fun t => keyOf t <> k) (map jsTriple l)).
  { intros l Hl. induction Hl; constructor; auto. }
  apply Fm in Hpre, Hmid, Hpost.
  rewrite fold_left_app. cbn [fold_left]. rewrite fold_left_app. cbn [fold_left].
  destruct (foldA_other v k _ ([], []) Hpre) as [Hc1 Hm1].
  destruct (fold_left (stepA v) (map jsTriple pre) ([], [])) as [cs1 ms1].
  cbn [fst snd List.filter] in Hc1, Hm1.
  (* the earlier triangle is recorded *)
  assert (S2 : stepA v (cs1, ms1) (jsTriple tp) = (cs1, tsSet (jsTriple tp) ms1)).
  { unfold stepA. rewrite Hmp, Hdp. fold k. now rewrite sameKey_tsGet, Hm1. }
  rewrite S2.
  destruct (foldA_other v k _ (cs1, tsSet (jsTriple tp) ms1) Hmid) as [Hc3 Hm3].
  destruct (fold_left (stepA v) (map jsTriple mid) _) as [cs3 ms3].
  cbn [fst snd] in Hc3, Hm3.
  rewrite (filter_tsSet_same k) in Hm3 by reflexivity.
  rewrite Hm1 in Hm3. cbn [tail] in Hm3.
  (* the later triangle meets it *)
  assert (S4 : stepA v (cs3, ms3) (jsTriple tq)
               = (cs3, if (score np <? score nq)%float
                       then tsSet (jsTriple tq) ms3 else ms3)).
  { unfold stepA. rewrite Hmq, Hdq, Hk, sameKey_tsGet, Hm3. cbn [head].
    fold np nq. rewrite Hopp. now destruct (_ <? _)%float. }
  rewrite S4.
  destruct (foldA_other v k _
              (cs3, if (score np <? score nq)%float
                    then tsSet (jsTriple tq) ms3 else ms3) Hpost) as [Hc5 Hm5].
  destruct (fold_left (stepA v) (map jsTriple post) _) as [cs5 ms5].
  cbn [fst snd] in Hc5, Hm5 |- *.
  rewrite List.filter_app, Hc5, Hc3, Hc1, Hm5. cbn [app].
  destruct (score np <? score nq)%float.
  - rewrite (filter_tsSet_same k) by exact Hk. now rewrite Hm3.
  - exact Hm3.
Qed.

Lemma opposite_pair_keeps_one_witness :
  List.filter (sameKey (keyOf (jsTriple (0, 2, 1))))
    (triples (cullBackFaces
       (Some (flatten3 ([(1, 2, 3)] ++ (0, 2, 1) :: [(1, 2, 3)]
                          ++ (0, 1, 2) :: [(3, 2, 1)])))
       (Some squareVertices)))
  = [jsTriple (0, 1, 2)].
Proof.
  apply (opposite_pair_keeps_one squareVertices [(1, 2, 3)] [(1, 2, 3)]
           [(3, 2, 1)] (0, 2, 1) (0, 1, 2)); try reflexivity.
  repeat constructor; discriminate.
Defined.

End FaceCullerProofs.

(** ** JavaScript numbers *)

Module JSNumber.

(** A number that is integral, infinite or NaN: the values [Math.round]
    returns (the sign of a zero result is not kept). *)
Inductive integral : Type :=
  | INaN
  | IInf (negative : bool)
  | IInt (n : Z).

(** [Math.round(x)]: the integer closest to [x], ties towards +infinity,
    that is, the floor of [x + 1/2] computed exactly. *)
Definition Math_round (x : float) : integral :=
  match Prim2SF x with
  | S754_nan => INaN
  | S754_infinity s => IInf s
  | S754_zero _ => IInt 0
  | S754_finite s m e =>
      let sm := if s then Z.neg m else Z.pos m in
      if (0 <=? e)%Z then IInt (sm * 2 ^ e)
      else IInt ((2 * sm + 2 ^ (- e)) / 2 ^ (- e + 1))
  end.

(** An array length or a count as a number (exact below 2^53). *)
Definition natToFloat (n : nat) : float :=
  PrimFloat.of_uint63 (Uint63.of_Z (Z.of_nat n)).

(** The integer part of a number that is used as a size ([ToIndex]);
    a value that is negative or not finite yields no size. *)
Definition toIndex (x : float) : option nat :=
  match Prim2SF x with
  | S754_zero _ => Some 0
  | S754_finite false m e =>
      Some (Z.to_nat (if (0 <=? e)%Z then Z.pos m * 2 ^ e
                      else Z.pos m / 2 ^ (- e)))
  | _ => None
  end.

(** [Number.isFinite(x)] *)
Definition finite (x : float) : bool :=
  (neg_infinity <? x)%float && (x <? infinity)%float.

Definition notNaN (x : float) : Prop := is_nan x = false.

Ltac sf_cases :=
  repeat match goal with
  | |- context [(?a ?= ?b)%Z] => destruct (Z.compare_spec a b)
  | |- context [PosDef.Pos.compare_cont Eq ?a ?b] =>
      change (PosDef.Pos.compare_cont Eq a b) with (Pos.compare a b);
      destruct (Pos.compare_spec a b)
  | H : context [(?a ?= ?b)%Z] |- _ => destruct (Z.compare_spec a b)
  | H : context [PosDef.Pos.compare_cont Eq ?a ?b] |- _ =>
      change (PosDef.Pos.compare_cont Eq a b) with (Pos.compare a b) in H;
      destruct (Pos.compare_spec a b)
  end.

Lemma SFcompare_refl s : s <> S754_nan -> SFcompare s s = Some Eq.
Proof.
  destruct s as [b|b| |b m e]; intros H; try congruence; unfold SFcompare.
  - reflexivity.
  - now destruct b.
  - rewrite Z.compare_refl.
    change (PosDef.Pos.compare_cont Eq m m) with (Pos.compare m m).
    rewrite Pos.compare_refl. now destruct b.
Qed.

Lemma SFleb_total x y :
  x <> S754_nan -> y <> S754_nan -> SFltb x y = false -> SFleb y x = true.
Proof.
  unfold SFltb, SFleb.
  destruct x as [bx|bx| |bx mx ex], y as [b_y|b_y| |b_y my ey];
    intros Hx Hy; try congruence; unfold SFcompare;
    repeat match goal with b : bool |- _ => destruct b end;
    try congruence; sf_cases; cbn [CompOpp]; try congruence; try lia.
Qed.

Lemma SFleb_trans x y z :
  SFleb x y = true -> SFleb y z = true -> SFleb x z = true.
Proof.
  unfold SFleb.
  destruct x as [bx|bx| |bx mx ex], y as [b_y|b_y| |b_y my ey],
    z as [bz|bz| |bz mz ez]; unfold SFcompare;
    repeat match goal with b : bool |- _ => destruct b end;
    try congruence; intros H1 H2; sf_cases; cbn [CompOpp] in *;
    try congruence; try lia.
Qed.

Lemma SFltb_leb x y : SFltb x y = true -> SFleb x y = true.
Proof.
  unfold SFltb, SFleb. destruct (SFcompare x y) as [[]|]; congruence.
Qed.

Lemma notNaN_spec x : notNaN x <-> Prim2SF x <> S754_nan.
Proof.
  unfold notNaN, is_nan. rewrite FloatAxioms.eqb_spec. unfold SFeqb.
  split.
  - intros H E. rewrite E in H. discriminate.
  - intros H. now rewrite SFcompare_refl.
Qed.

Lemma leb_refl x : notNaN x -> (x <=? x)%float = true.
Proof.
  intros H. rewrite leb_spec. unfold SFleb.
  now rewrite SFcompare_refl by now apply notNaN_spec.
Qed.

Lemma leb_total x y :
  notNaN x -> notNaN y -> (x <? y)%float = false -> (y <=? x)%float = true.
Proof.
  rewrite !notNaN_spec, ltb_spec, leb_spec. apply SFleb_total.
Qed.

Lemma leb_trans x y z :
  (x <=? y)%float = true -> (y <=? z)%float = true -> (x <=? z)%float = true.
Proof. rewrite !leb_spec. apply SFleb_trans. Qed.

Lemma ltb_leb x y : (x <? y)%float = true -> (x <=? y)%float = true.
Proof. rewrite ltb_spec, leb_spec. apply SFltb_leb. Qed.

Lemma ltb_notNaN x y : (x <? y)%float = true -> notNaN x /\ notNaN y.
Proof.
  rewrite ltb_spec, !notNaN_spec. unfold SFltb.
  destruct (Prim2SF x), (Prim2SF y); simpl; try discriminate;
    intros _; split; discriminate.
Qed.

Lemma finite_spec x :
  finite x = true ->
  notNaN x /\ (neg_infinity <? x)%float = true /\ (x <? infinity)%float = true.
Proof.
  unfold finite. intros [H1 H2]%andb_prop.
  split; [apply (ltb_notNaN _ _ H2) | now split].
Qed.

(** The running minimum and maximum of lines 207-208. *)
Lemma min_step m hv :
  notNaN m -> notNaN hv ->
  let m' := if (hv <? m)%float then hv else m in
  (m' <=? hv)%float = true /\ (m' <=? m)%float = true /\ notNaN m'.
Proof.
  intros Hm Hv. cbv zeta. destruct (hv <? m)%float eqn:E.
  - split; [now apply leb_refl|]. split; [now apply ltb_leb | exact Hv].
  - split; [now apply leb_total|]. split; [now apply leb_refl | exact Hm].
Qed.

Lemma max_step M hv :
  notNaN M -> notNaN hv ->
  let M' := if (M <? hv)%float then hv else M in
  (hv <=? M')%float = true /\ (M <=? M')%float = true /\ notNaN M'.
Proof.
  intros HM Hv. cbv zeta. destruct (M <? hv)%float eqn:E.
  - split; [now apply leb_refl|]. split; [now apply ltb_leb | exact Hv].
  - split; [now apply leb_total|]. split; [now apply leb_refl | exact HM].
Qed.

Lemma sub_zero x : (x - 0)%float = x.
Proof.
  apply Prim2SF_inj. rewrite sub_spec.
  change (Prim2SF 0) with (S754_zero false).
  destruct (Prim2SF x) as [[]|[]| |s m e]; reflexivity.
Qed.

End JSNumber.

(** ** R16Writer *)

Module R16Writer.

(** A chunk of an ADT tile as [setHeightDataFromChunks] reads it:
    [chunk.vertices] (absent for a chunk without height data) and
    [chunk.position], of which only element 2 is used. *)
Record chunk : Type := Chunk {
  vertices : option (list float);
  position : list float
}.

(** The fields of an [R16Writer] instance ([column] and [row] are never
    read). *)
Record writer : Type := Writer {
  out : option string;
  heightData : list float;
  minHeight : float;
  maxHeight : float
}.

(** [new R16Writer()] *)
Definition newWriter : writer := Writer None [] infinity neg_infinity.

Definition chunksPerSide : nat := 16.
Definition vertsPerChunk : nat := 17.
Definition fullSize : nat := chunksPerSide * (vertsPerChunk - 1) + 1.

(** What the two loops of [setHeightDataFromChunks] mutate: the local
    arrays [heights] and [heightSet], and the instance's extrema. *)
Record builder : Type := Builder {
  heights : list float;
  heightSet : list bool;
  bMin : float;
  bMax : float
}.

Definition initBuilder (w : writer) : builder :=
  Builder (repeat 0%float (fullSize * fullSize))
          (repeat false (fullSize * fullSize))
          (minHeight w) (maxHeight w).

(** [!!(row % 2)] *)
Definition isShort (row : nat) : bool := negb (row mod 2 =? 0).

Definition colCount (row : nat) : nat := if isShort row then 8 else 9.

Definition localX (row col : nat) : nat :=
  if isShort row then col * 2 + 1 else col * 2.

(** [heights[index] = heightValue; heightSet[index] = true] and the update
    of the extrema (lines 203-208).  Both arrays have [fullSize * fullSize]
    elements and [index] is below that bound where this is used, so the
    assignment never extends an array. *)
Definition storeSample (b : builder) (index : nat) (heightValue : float)
    : builder :=
  Builder (<[index := heightValue]> (heights b))
          (<[index := true]> (heightSet b))
          (if (heightValue <? bMin b)%float then heightValue else bMin b)
          (if (bMax b <? heightValue)%float then heightValue else bMax b).

(** The body of the innermost loop (lines 180-210), without the increment
    of [vertexIndex]. *)
Definition sampleStep (chunkVertices chunkPosition : list float)
    (chunkX chunkY row col : nat) (b : builder) (vertexIndex : nat)
    : builder :=
  let lX := localX row col in
  let lY := row in
  let globalX := chunkY * (vertsPerChunk - 1) + lX in
  let globalY := chunkX * (vertsPerChunk - 1) + lY in
  if (globalX <? fullSize) && (globalY <? fullSize)
     && (lX <? vertsPerChunk) && (lY <? vertsPerChunk)
  then
    let index := globalY * fullSize + globalX in
    if negb (nth index (heightSet b) false) then
      storeSample b index
        (nth vertexIndex chunkVertices nan + nth 2 chunkPosition nan)%float
    else b
  else b.

(** [for (let col = 0; col < colCount; col++)] with its [break]; the state
    is the builder and [vertexIndex]. *)
Fixpoint colLoop (cv cp : list float) (chunkX chunkY row : nat)
    (cols : list nat) (s : builder * nat) : builder * nat :=
  match cols with
  | [] => s
  | col :: rest =>
      if length cv <=? snd s then s
      else colLoop cv cp chunkX chunkY row rest
             (sampleStep cv cp chunkX chunkY row col (fst s) (snd s),
              S (snd s))
  end.

Definition rowStep (cv cp : list float) (chunkX chunkY : nat)
    (s : builder * nat) (row : nat) : builder * nat :=
  colLoop cv cp chunkX chunkY row (seq 0 (colCount row)) s.

(** [for (let row = 0; row < 17; row++)] *)
Definition rowLoop (cv cp : list float) (chunkX chunkY : nat)
    (s : builder * nat) : builder * nat :=
  fold_left (rowStep cv cp chunkX chunkY) (seq 0 17) s.

(** The body of the loop over [chunkY] (lines 163-214). *)
Definition chunkStep (chunks : list (option chunk)) (chunkX : nat)
    (b : builder) (chunkY : nat) : builder :=
  let chunkIndex := chunkX * chunksPerSide + chunkY in
  match nth chunkIndex chunks None with
  | Some c =>
      match vertices c with
      | Some cv => fst (rowLoop cv (position c) chunkX chunkY (b, 0))
      | None => b
      end
  | None => b
  end.

Definition chunkRow (chunks : list (option chunk)) (b : builder)
    (chunkX : nat) : builder :=
  fold_left (chunkStep chunks chunkX) (seq 0 chunksPerSide) b.

(** The first pair of loops (lines 161-216). *)
Definition fillFromChunks (chunks : list (option chunk)) (b : builder)
    : builder :=
  fold_left (chunkRow chunks) (seq 0 chunksPerSide) b.

(** The two neighbours the interpolation looks at: [{dx, dy}] pairs. *)
Definition neighbors (x : nat) : list (Z * Z) :=
  if x mod 2 =? 0 then [(0, -1); (0, 1)]%Z else [(-1, 0); (1, 0)]%Z.

(** The body of [for (const {dx, dy} of neighbors)]; the accumulator is
    [(totalHeight, count)]. *)
Definition addNeighbor (b : builder) (x y : nat) (acc : float * nat)
    (d : Z * Z) : float * nat :=
  let nx := (Z.of_nat x + fst d)%Z in
  let ny := (Z.of_nat y + snd d)%Z in
  if ((0 <=? nx) && (nx <? Z.of_nat fullSize)
      && (0 <=? ny) && (ny <? Z.of_nat fullSize))%Z
  then
    let nIndex := Z.to_nat (ny * Z.of_nat fullSize + nx) in
    if nth nIndex (heightSet b) false
    then ((fst acc + nth nIndex (heights b) nan)%float, S (snd acc))
    else acc
  else acc.

(** The body of the second pair of loops (lines 221-252). *)
Definition interpolateCell (b : builder) (x y : nat) : builder :=
  let index := y * fullSize + x in
  if negb (nth index (heightSet b) false) then
    let '(totalHeight, count) :=
      fold_left (addNeighbor b x y) (neighbors x) (0%float, 0) in
    if 0 <? count then
      Builder (<[index := (totalHeight / JSNumber.natToFloat count)%float]> (heights b))
              (<[index := true]> (heightSet b))
              (bMin b) (bMax b)
    else b
  else b.

Definition interpolateRow (b : builder) (y : nat) : builder :=
  fold_left (fun b x => interpolateCell b x y) (seq 0 fullSize) b.

(** The second pair of loops (lines 219-254). *)
Definition interpolate (b : builder) : builder :=
  fold_left interpolateRow (seq 0 fullSize) b.

(** The state of the locals at the end of [setHeightDataFromChunks]. *)
Definition buildGrid (w : writer) (chunks : list (option chunk)) : builder :=
  interpolate (fillFromChunks chunks (initBuilder w)).

(** [setHeightDataFromChunks(chunks)] *)
Definition setHeightDataFromChunks (w : writer) (chunks : list (option chunk))
    : writer :=
  let b := buildGrid w chunks in
  Writer (out w) (heights b) (bMin b) (bMax b).

(** The builder when the second pair of loops reaches the cell [(x, y)]:
    all rows above [y] and the cells left of [x] in row [y] were visited. *)
Definition beforeCell (b : builder) (x y : nat) : builder :=
  fold_left (fun b x => interpolateCell b x y) (seq 0 x)
    (fold_left interpolateRow (seq 0 y) b).

(** The specification's words for the neighbours of a cell: the cells in
    row [y - 1] and [y + 1] of the same column when [x] is even, the cells
    in column [x - 1] and [x + 1] of the same row when [x] is odd, each only
    if it lies in the grid. *)
Definition chosenNeighbors (x y : nat) : list nat :=
  if x mod 2 =? 0
  then (if 1 <=? y then [(y - 1) * fullSize + x] else [])
       ++ (if y + 1 <? fullSize then [(y + 1) * fullSize + x] else [])
  else (if 1 <=? x then [y * fullSize + (x - 1)] else [])
       ++ (if x + 1 <? fullSize then [y * fullSize + (x + 1)] else []).

(** The heights of the chosen neighbours that are set. *)
Definition setNeighborHeights (b : builder) (x y : nat) : list float :=
  map (fun i => nth i (heights b) nan)
    (List.filter (fun i => nth i (heightSet b) false) (chosenNeighbors x y)).

(** The chunk at [ci] is present and carries exactly 145 samples. *)
Definition chunkComplete (chunks : list (option chunk)) (ci : nat) : bool :=
  match nth ci chunks None with
  | Some c =>
      match vertices c with
      | Some cv => length cv =? 145
      | None => false
      end
  | None => false
  end.

(** All 256 chunks of the tile are complete. *)
Definition fullyPopulated (chunks : list (option chunk)) : bool :=
  forallb (chunkComplete chunks) (seq 0 (chunksPerSide * chunksPerSide)).

(** The heights a chunk offers: each raw sample plus the chunk's z. *)
Definition chunkSamples (c : option chunk) : list float :=
  match c with
  | Some c =>
      match vertices c with
      | Some cv => map (fun v => (v + nth 2 (position c) nan)%float) cv
      | None => []
      end
  | None => []
  end.

(** The heights offered by the 256 chunks of the tile. *)
Definition allSamples (chunks : list (option chunk)) : list float :=
  flat_map (fun ci => chunkSamples (nth ci chunks None))
    (seq 0 (chunksPerSide * chunksPerSide)).

(** Every offered height is a finite number. *)
Definition finiteSamples (chunks : list (option chunk)) : bool :=
  forallb JSNumber.finite (allSamples chunks).

(** A flat chunk at height 0, and one whose first sample (row 0, column 0)
    is 100. *)
Definition flatChunk : chunk := Chunk (Some (repeat 0%float 145)) [0; 0; 0]%float.

Definition bumpChunk : chunk :=
  Chunk (Some (100%float :: repeat 0%float 144)) [0; 0; 0]%float.

(** A fully populated tile, flat except for the first sample of chunk 1,
    which is meant for the cell (16, 0) that chunk 0 has already set. *)
Definition bumpChunks : list (option chunk) :=
  Some flatChunk :: Some bumpChunk :: repeat (Some flatChunk) 254.

(** A sparse tile: only chunk 0 is there, its samples are 0, 1, ..., 144 in
    the order of the vertex array and it lies at z = 11.  Its row 0 gives
    the cells (0, 0), (2, 0), ... the heights 11, 12, ..., its row 2 the
    cells (0, 2), (2, 2), ... the heights 28, 29, ... *)
Definition rampChunk : chunk :=
  Chunk (Some (map JSNumber.natToFloat (seq 0 145))) [0; 0; 11]%float.

Definition rampChunks : list (option chunk) := [Some rampChunk].

(** [Math.round(normalizedHeight * 65535)] for one cell (lines 281-284). *)
Definition r16Value (w : writer) (h : float) : JSNumber.integral :=
  JSNumber.Math_round
    ((h - minHeight w) / (maxHeight w - minHeight w) * 65535)%float.

(** The value Node's [Buffer.writeUInt16LE] stores: it throws a
    [RangeError] (here [None]) for a value below 0 or above 65535, and NaN,
    which passes both comparisons, is stored as 0. *)
Definition uint16 (r : JSNumber.integral) : option Z :=
  match r with
  | JSNumber.INaN => Some 0%Z
  | JSNumber.IInf _ => None
  | JSNumber.IInt n => if ((0 <=? n) && (n <=? 65535))%Z then Some n else None
  end.

(** [buffer.writeUInt16LE(value, offset)]: the low byte at [offset], the
    high byte at [offset + 1]; it also throws when the two bytes do not fit
    in the buffer. *)
Definition writeUInt16LE (buf : list Z) (value : JSNumber.integral)
    (offset : nat) : option (list Z) :=
  match uint16 value with
  | Some v =>
      if offset + 2 <=? length buf
      then Some (<[S offset := Z.shiftr v 8]> (<[offset := Z.land v 255]> buf))
      else None
  | None => None
  end.

(** [Buffer.alloc(fullSize * fullSize * 2)] with
    [fullSize = Math.sqrt(this.heightData.length)]: the size of the buffer. *)
Definition allocSize (len : nat) : option nat :=
  let side := PrimFloat.sqrt (JSNumber.natToFloat len) in
  JSNumber.toIndex (side * side * 2)%float.

(** The loop over [heightData] (lines 279-286), from cell [i] on. *)
Fixpoint fillBuffer (w : writer) (hs : list float) (i : nat) (buf : list Z)
    : option (list Z) :=
  match hs with
  | [] => Some buf
  | h :: rest =>
      match writeUInt16LE buf (r16Value w h) (i * 2) with
      | Some buf' => fillBuffer w rest (S i) buf'
      | None => None
      end
  end.

(** The bytes handed to the output stream, or [None] when filling the
    buffer throws. *)
Definition r16Buffer (w : writer) : option (list Z) :=
  match allocSize (length (heightData w)) with
  | Some size => fillBuffer w (heightData w) 0 (repeat 0%Z size)
  | None => None
  end.

(** The outcome of [write]. *)
Inductive writeResult : Type :=
  | Skipped
  | Written (path : string) (data : list Z)
  | Threw.

(** [write(overwrite)].  [fileExists] is the answer of
    [generics.fileExists(this.out)] and [ioOk] tells whether creating the
    directory and writing to the stream succeed. *)
Definition write (fileExists ioOk : bool) (overwrite : bool) (w : writer)
    : writeResult :=
  if negb overwrite && fileExists then Skipped
  else
    match out w with
    | Some path =>
        if ioOk then
          match r16Buffer w with
          | Some buf => Written path buf
          | None => Threw
          end
        else Threw
    | None => Threw
    end.

End R16Writer.

(** ** Properties of R16Writer *)

Module R16WriterProofs.
Import JSNumber R16Writer.

Lemma fullSize_eq : fullSize = 257.
Proof. reflexivity. Qed.

Lemma nth_insert_eq {A : Type} (l : list A) i x d :
  i < length l -> nth i (<[i := x]> l) d = x.
Proof.
  intros H. rewrite nth_lookup, list_lookup_insert_eq by exact H. reflexivity.
Qed.

Lemma nth_insert_ne {A : Type} (l : list A) i j x d :
  i <> j -> nth j (<[i := x]> l) d = nth j l d.
Proof.
  intros H. rewrite !nth_lookup, list_lookup_insert_ne by exact H. reflexivity.
Qed.

(** *** Loop principles: whatever every loop body preserves, the loops
    preserve *)

Lemma fold_left_preserves {A B : Type} (I : A -> Prop) (f : A -> B -> A)
    (l : list B) (a : A) :
  (forall a x, In x l -> I a -> I (f a x)) -> I a -> I (fold_left f l a).
Proof.
  revert a. induction l as [|x l IH]; intros a Hf Ha; [exact Ha|].
  simpl. apply IH.
  - intros a' y Hy. apply Hf. now right.
  - apply Hf; [now left | exact Ha].
Qed.

Lemma colLoop_preserves (I : builder -> Prop) cv cp chunkX chunkY row cols s :
  (forall b col vi, In col cols -> vi < length cv -> I b ->
     I (sampleStep cv cp chunkX chunkY row col b vi)) ->
  I (fst s) -> I (fst (colLoop cv cp chunkX chunkY row cols s)).
Proof.
  revert s. induction cols as [|col cols IH]; intros s Hf Hs; [exact Hs|].
  simpl. destruct (Nat.leb_spec (length cv) (snd s)); [exact Hs|].
  apply IH.
  - intros b c vi Hc. apply Hf. now right.
  - simpl. apply Hf; [now left | assumption | exact Hs].
Qed.

Lemma fillFromChunks_preserves (I : builder -> Prop) chunks b :
  (forall b chunkX chunkY c cv row col vi,
     chunkX < chunksPerSide -> chunkY < chunksPerSide ->
     nth (chunkX * chunksPerSide + chunkY) chunks None = Some c ->
     vertices c = Some cv ->
     row < 17 -> col < colCount row -> vi < length cv ->
     I b -> I (sampleStep cv (position c) chunkX chunkY row col b vi)) ->
  I b -> I (fillFromChunks chunks b).
Proof.
  intros Hf. unfold fillFromChunks.
  apply fold_left_preserves. intros b1 chunkX HX%in_seq.
  unfold chunkRow. apply fold_left_preserves. intros b2 chunkY HY%in_seq Hb2.
  unfold chunkStep.
  destruct (nth _ chunks None) as [c|] eqn:Ec; [|exact Hb2].
  destruct (vertices c) as [cv|] eqn:Ev; [|exact Hb2].
  unfold rowLoop.
  apply (fold_left_preserves (fun s => I (fst s))); [|exact Hb2].
  intros s row Hrow%in_seq Hs. unfold rowStep.
  apply colLoop_preserves; [|exact Hs].
  intros b3 col vi Hcol%in_seq Hvi Hb3.
  apply (Hf b3 chunkX chunkY c cv row col vi); try assumption; lia.
Qed.

Lemma interpolate_preserves (I : builder -> Prop) b :
  (forall b x y, x < fullSize -> y < fullSize -> I b ->
     I (interpolateCell b x y)) ->
  I b -> I (interpolate b).
Proof.
  intros Hf. unfold interpolate.
  apply fold_left_preserves. intros b1 y Hy%in_seq.
  unfold interpolateRow. apply fold_left_preserves. intros b2 x Hx%in_seq.
  apply Hf; lia.
Qed.

(** *** Shape of the arrays, and cells that a step leaves alone *)

Definition cells : nat := fullSize * fullSize.

Definition wfB (b : builder) : Prop :=
  length (heights b) = cells /\ length (heightSet b) = cells.

Definition isSet (b : builder) (i : nat) : Prop :=
  nth i (heightSet b) false = true.

Definition sameAt (b b' : builder) (i : nat) : Prop :=
  nth i (heightSet b') false = nth i (heightSet b) false /\
  nth i (heights b') nan = nth i (heights b) nan.

(** [b'] differs from [b] at most on cells that were unset in [b] and
    belong to [P]. *)
Definition frame (P : nat -> Prop) (b b' : builder) : Prop :=
  forall i, isSet b i \/ ~ P i -> sameAt b b' i.

Lemma frame_refl P b : frame P b b.
Proof. intros i _. split; reflexivity. Qed.

Lemma frame_trans P b1 b2 b3 : frame P b1 b2 -> frame P b2 b3 -> frame P b1 b3.
Proof.
  intros H12 H23 i Hi. destruct (H12 i Hi) as [Hs Hh].
  assert (Hi2 : isSet b2 i \/ ~ P i).
  { destruct Hi as [Hi|Hi]; [left|now right].
    unfold isSet in *. now rewrite Hs. }
  destruct (H23 i Hi2) as [Hs' Hh']. split; congruence.
Qed.

Lemma frame_weaken (P Q : nat -> Prop) b b' :
  (forall i, P i -> Q i) -> frame P b b' -> frame Q b b'.
Proof.
  intros HPQ H i [Hi|Hi]; apply H; [now left | right; auto].
Qed.

Lemma wfB_init w : wfB (initBuilder w).
Proof. split; apply repeat_length. Qed.

Lemma storeSample_wfB b i h : wfB b -> wfB (storeSample b i h).
Proof. intros [H1 H2]. split; simpl; now rewrite length_insert. Qed.

Lemma storeSample_frame b i h :
  ~ isSet b i -> frame (fun j => j = i) b (storeSample b i h).
Proof.
  intros Hi j Hj.
  assert (i <> j) by (destruct Hj as [Hj|Hj]; congruence).
  split; simpl; now apply nth_insert_ne.
Qed.

(** The cell a sample is meant for. *)
Definition sampleIndex (chunkX chunkY row col : nat) : nat :=
  (chunkX * (vertsPerChunk - 1) + row) * fullSize
  + (chunkY * (vertsPerChunk - 1) + localX row col).

(** A cell whose two coordinates have the same parity. *)
Definition sampledCell (i : nat) : Prop :=
  exists x y, x < fullSize /\ y < fullSize /\ x mod 2 = y mod 2
              /\ i = y * fullSize + x.

Lemma localX_parity row col : localX row col mod 2 = row mod 2.
Proof.
  unfold localX, isShort. destruct (Nat.eqb_spec (row mod 2) 0); cbn [negb]; lia.
Qed.

Lemma sampleStep_cases cv cp chunkX chunkY row col b vi :
  sampleStep cv cp chunkX chunkY row col b vi = b \/
  (~ isSet b (sampleIndex chunkX chunkY row col) /\
   sampledCell (sampleIndex chunkX chunkY row col) /\
   sampleIndex chunkX chunkY row col < cells /\
   sampleStep cv cp chunkX chunkY row col b vi
   = storeSample b (sampleIndex chunkX chunkY row col)
       (nth vi cv nan + nth 2 cp nan)%float).
Proof.
  unfold sampleStep. fold (sampleIndex chunkX chunkY row col).
  destruct (_ && _) eqn:G; [|now left].
  destruct (nth _ (heightSet b) false) eqn:E; [now left|].
  right. split; [unfold isSet; congruence|].
  apply andb_prop in G as [G _]. apply andb_prop in G as [G _].
  apply andb_prop in G as [G1 G2].
  apply Nat.ltb_lt in G1, G2.
  split; [|split; [unfold sampleIndex, cells; nia | reflexivity]].
  exists (chunkY * (vertsPerChunk - 1) + localX row col),
         (chunkX * (vertsPerChunk - 1) + row).
  split; [exact G1|]. split; [exact G2|]. split; [|reflexivity].
  pose proof (localX_parity row col). unfold vertsPerChunk. cbn [Nat.sub]. lia.
Qed.

Lemma sampleStep_wfB cv cp chunkX chunkY row col b vi :
  wfB b -> wfB (sampleStep cv cp chunkX chunkY row col b vi).
Proof.
  intros H. destruct (sampleStep_cases cv cp chunkX chunkY row col b vi)
    as [->|(_ & _ & _ & ->)]; [exact H | now apply storeSample_wfB].
Qed.

Lemma sampleStep_frame cv cp chunkX chunkY row col b vi :
  frame (fun _ => True) b (sampleStep cv cp chunkX chunkY row col b vi).
Proof.
  destruct (sampleStep_cases cv cp chunkX chunkY row col b vi)
    as [->|(Hn & _ & _ & ->)]; [apply frame_refl|].
  eapply frame_weaken; [|apply storeSample_frame, Hn]. auto.
Qed.

(** *** The interpolation pass *)

Lemma addNeighbor_up b x y acc :
  x < fullSize -> y < fullSize ->
  addNeighbor b x y acc (0, -1)%Z
  = if 1 <=? y then
      if nth ((y - 1) * fullSize + x) (heightSet b) false
      then ((fst acc + nth ((y - 1) * fullSize + x) (heights b) nan)%float,
            S (snd acc))
      else acc
    else acc.
Proof.
  intros Hx Hy. unfold addNeighbor. cbn [fst snd].
  destruct (Nat.leb_spec 1 y) as [H|H].
  - replace (Z.to_nat ((Z.of_nat y + -1) * Z.of_nat fullSize + (Z.of_nat x + 0)))
      with ((y - 1) * fullSize + x) by nia.
    replace (_ && _)%bool with true; [reflexivity|].
    symmetry. rewrite !andb_true_iff, !Z.leb_le, !Z.ltb_lt. lia.
  - replace (_ && _)%bool with false; [reflexivity|].
    symmetry. rewrite !andb_false_iff, !Z.leb_gt, !Z.ltb_ge. lia.
Qed.

Lemma addNeighbor_down b x y acc :
  x < fullSize -> y < fullSize ->
  addNeighbor b x y acc (0, 1)%Z
  = if y + 1 <? fullSize then
      if nth ((y + 1) * fullSize + x) (heightSet b) false
      then ((fst acc + nth ((y + 1) * fullSize + x) (heights b) nan)%float,
            S (snd acc))
      else acc
    else acc.
Proof.
  intros Hx Hy. unfold addNeighbor. cbn [fst snd].
  destruct (Nat.ltb_spec (y + 1) fullSize) as [H|H].
  - replace (Z.to_nat ((Z.of_nat y + 1) * Z.of_nat fullSize + (Z.of_nat x + 0)))
      with ((y + 1) * fullSize + x) by nia.
    replace (_ && _)%bool with true; [reflexivity|].
    symmetry. rewrite !andb_true_iff, !Z.leb_le, !Z.ltb_lt. lia.
  - replace (_ && _)%bool with false; [reflexivity|].
    symmetry. rewrite !andb_false_iff, !Z.leb_gt, !Z.ltb_ge. lia.
Qed.

Lemma addNeighbor_left b x y acc :
  x < fullSize -> y < fullSize ->
  addNeighbor b x y acc (-1, 0)%Z
  = if 1 <=? x then
      if nth (y * fullSize + (x - 1)) (heightSet b) false
      then ((fst acc + nth (y * fullSize + (x - 1)) (heights b) nan)%float,
            S (snd acc))
      else acc
    else acc.
Proof.
  intros Hx Hy. unfold addNeighbor. cbn [fst snd].
  destruct (Nat.leb_spec 1 x) as [H|H].
  - replace (Z.to_nat ((Z.of_nat y + 0) * Z.of_nat fullSize + (Z.of_nat x + -1)))
      with (y * fullSize + (x - 1)) by nia.
    replace (_ && _)%bool with true; [reflexivity|].
    symmetry. rewrite !andb_true_iff, !Z.leb_le, !Z.ltb_lt. lia.
  - replace (_ && _)%bool with false; [reflexivity|].
    symmetry. rewrite !andb_false_iff, !Z.leb_gt, !Z.ltb_ge. lia.
Qed.

Lemma addNeighbor_right b x y acc :
  x < fullSize -> y < fullSize ->
  addNeighbor b x y acc (1, 0)%Z
  = if x + 1 <? fullSize then
      if nth (y * fullSize + (x + 1)) (heightSet b) false
      then ((fst acc + nth (y * fullSize + (x + 1)) (heights b) nan)%float,
            S (snd acc))
      else acc
    else acc.
Proof.
  intros Hx Hy. unfold addNeighbor. cbn [fst snd].
  destruct (Nat.ltb_spec (x + 1) fullSize) as [H|H].
  - replace (Z.to_nat ((Z.of_nat y + 0) * Z.of_nat fullSize + (Z.of_nat x + 1)))
      with (y * fullSize + (x + 1)) by nia.
    replace (_ && _)%bool with true; [reflexivity|].
    symmetry. rewrite !andb_true_iff, !Z.leb_le, !Z.ltb_lt. lia.
  - replace (_ && _)%bool with false; [reflexivity|].
    symmetry. rewrite !andb_false_iff, !Z.leb_gt, !Z.ltb_ge. lia.
Qed.

(** The loop over the two neighbours computes the sum and the number of the
    chosen neighbours that are set. *)
Lemma neighbors_fold b x y :
  x < fullSize -> y < fullSize ->
  fold_left (addNeighbor b x y) (neighbors x) (0%float, 0)
  = (fold_left PrimFloat.add (setNeighborHeights b x y) 0%float,
     length (setNeighborHeights b x y)).
Proof.
  intros Hx Hy. unfold neighbors, setNeighborHeights, chosenNeighbors.
  destruct (x mod 2 =? 0); cbn [fold_left].
  - rewrite addNeighbor_up, addNeighbor_down by assumption.
    destruct (1 <=? y), (y + 1 <? fullSize); cbn [app List.filter];
      repeat match goal with
             | |- context [nth ?i (heightSet b) false] =>
                 destruct (nth i (heightSet b) false)
             end; reflexivity.
  - rewrite addNeighbor_left, addNeighbor_right by assumption.
    destruct (1 <=? x), (x + 1 <? fullSize); cbn [app List.filter];
      repeat match goal with
             | |- context [nth ?i (heightSet b) false] =>
                 destruct (nth i (heightSet b) false)
             end; reflexivity.
Qed.

Lemma interpolateCell_cases b x y :
  x < fullSize -> y < fullSize ->
  let index := y * fullSize + x in
  let hs := setNeighborHeights b x y in
  interpolateCell b x y
  = if nth index (heightSet b) false then b
    else match hs with
         | [] => b
         | _ :: _ =>
             Builder (<[index := (fold_left PrimFloat.add hs 0 /
                                  natToFloat (length hs))%float]> (heights b))
                     (<[index := true]> (heightSet b)) (bMin b) (bMax b)
         end.
Proof.
  intros Hx Hy index hs. unfold interpolateCell. fold index.
  destruct (nth index (heightSet b) false); [reflexivity|]. cbn [negb].
  rewrite neighbors_fold by assumption. fold hs.
  destruct hs; reflexivity.
Qed.

Lemma interpolateCell_wfB b x y :
  x < fullSize -> y < fullSize -> wfB b -> wfB (interpolateCell b x y).
Proof.
  intros Hx Hy [H1 H2]. rewrite interpolateCell_cases by assumption. cbv zeta.
  destruct (nth _ (heightSet b) false); [now split|].
  destruct (setNeighborHeights b x y); [now split|].
  split; simpl; now rewrite length_insert.
Qed.

Lemma interpolateCell_frame b x y :
  x < fullSize -> y < fullSize ->
  frame (fun i => i = y * fullSize + x) b (interpolateCell b x y).
Proof.
  intros Hx Hy. rewrite interpolateCell_cases by assumption. cbv zeta.
  destruct (nth _ (heightSet b) false) eqn:E; [apply frame_refl|].
  destruct (setNeighborHeights b x y); [apply frame_refl|].
  intros j Hj.
  assert (y * fullSize + x <> j).
  { destruct Hj as [Hj|Hj]; [|congruence]. unfold isSet in Hj. congruence. }
  split; simpl; now apply nth_insert_ne.
Qed.

Lemma interpolateCell_extrema b x y :
  bMin (interpolateCell b x y) = bMin b /\
  bMax (interpolateCell b x y) = bMax b.
Proof.
  unfold interpolateCell.
  destruct (negb _); [|now split].
  destruct (fold_left _ _ _) as [t c]. destruct (0 <? c); now split.
Qed.

(** Visiting the cells [a .. a + n - 1] of row [y]. *)
Lemma cols_frame b y a n :
  a + n <= fullSize -> y < fullSize ->
  frame (fun i => y * fullSize + a <= i < y * fullSize + a + n) b
    (fold_left (fun b x => interpolateCell b x y) (seq a n) b).
Proof.
  intros Ha Hy.
  apply (fold_left_preserves
           (frame (fun i => y * fullSize + a <= i < y * fullSize + a + n) b));
    [|apply frame_refl].
  intros b' x Hx%in_seq Hb'. eapply frame_trans; [exact Hb'|].
  eapply frame_weaken; [|apply interpolateCell_frame; lia].
  intros i ->. lia.
Qed.

Lemma cols_wfB b y l :
  Forall (fun x => x < fullSize) l -> y < fullSize -> wfB b ->
  wfB (fold_left (fun b x => interpolateCell b x y) l b).
Proof.
  intros Hl Hy. apply fold_left_preserves. intros b' x Hx.
  apply interpolateCell_wfB; [|exact Hy].
  rewrite Forall_forall in Hl. now apply Hl, list_elem_of_In.
Qed.

Lemma seq_below a n m : a + n <= m -> Forall (fun x => x < m) (seq a n).
Proof.
  intros H. apply Forall_forall. intros x Hx%list_elem_of_In%in_seq. lia.
Qed.

(** Visiting the rows [a .. a + n - 1]. *)
Lemma rows_frame b a n :
  a + n <= fullSize ->
  frame (fun i => a * fullSize <= i < (a + n) * fullSize) b
    (fold_left interpolateRow (seq a n) b).
Proof.
  intros Ha.
  apply (fold_left_preserves
           (frame (fun i => a * fullSize <= i < (a + n) * fullSize) b));
    [|apply frame_refl].
  intros b' y Hy%in_seq Hb'. eapply frame_trans; [exact Hb'|].
  eapply frame_weaken; [|apply (cols_frame b' y 0 fullSize); lia].
  cbv beta. intros i Hi. nia.
Qed.

Lemma rows_wfB b l :
  Forall (fun y => y < fullSize) l -> wfB b ->
  wfB (fold_left interpolateRow l b).
Proof.
  intros Hl. apply fold_left_preserves. intros b' y Hy.
  apply cols_wfB; [apply seq_below; lia|].
  rewrite Forall_forall in Hl. now apply Hl, list_elem_of_In.
Qed.

Lemma beforeCell_frame b x y :
  x < fullSize -> y < fullSize ->
  frame (fun i => i < y * fullSize + x) b (beforeCell b x y).
Proof.
  intros Hx Hy. unfold beforeCell.
  eapply frame_trans.
  - eapply frame_weaken; [|apply (rows_frame b 0 y); lia].
    cbv beta. intros i Hi. nia.
  - eapply frame_weaken; [|apply cols_frame; lia].
    cbv beta. intros i Hi. lia.
Qed.

Lemma beforeCell_wfB b x y :
  x < fullSize -> y < fullSize -> wfB b -> wfB (beforeCell b x y).
Proof.
  intros Hx Hy Hb. unfold beforeCell.
  apply cols_wfB; [apply seq_below; lia | exact Hy |].
  apply rows_wfB; [apply seq_below; lia | exact Hb].
Qed.

Lemma fold_seq_split {A : Type} (f : A -> nat -> A) (n k : nat) (a : A) :
  k < n ->
  fold_left f (seq 0 n) a
  = fold_left f (seq (S k) (n - S k)) (f (fold_left f (seq 0 k) a) k).
Proof.
  intros H. replace n with (k + S (n - S k)) at 1 by lia.
  rewrite seq_app, fold_left_app. reflexivity.
Qed.

(** The pass, cut at the cell [(x, y)]. *)
Lemma interpolate_split b x y :
  x < fullSize -> y < fullSize ->
  interpolate b
  = fold_left interpolateRow (seq (S y) (fullSize - S y))
      (fold_left (fun b x => interpolateCell b x y) (seq (S x) (fullSize - S x))
         (interpolateCell (beforeCell b x y) x y)).
Proof.
  intros Hx Hy. unfold interpolate, beforeCell.
  rewrite (fold_seq_split interpolateRow fullSize y) by exact Hy.
  f_equal. unfold interpolateRow at 1.
  now rewrite (fold_seq_split _ fullSize x) by exact Hx.
Qed.

Lemma afterCell_frame b x y :
  x < fullSize -> y < fullSize ->
  frame (fun i => y * fullSize + x < i) b
    (fold_left interpolateRow (seq (S y) (fullSize - S y))
       (fold_left (fun b x => interpolateCell b x y)
          (seq (S x) (fullSize - S x)) b)).
Proof.
  intros Hx Hy.
  apply frame_trans
    with (b2 := fold_left (fun b x => interpolateCell b x y)
                  (seq (S x) (fullSize - S x)) b).
  - eapply frame_weaken; [|apply cols_frame; lia].
    cbv beta. intros i Hi. lia.
  - eapply frame_weaken; [|apply rows_frame; lia].
    cbv beta. intros i Hi. nia.
Qed.

(** *** The first pass: shape, and unset cells hold the initial zero *)

Lemma fillFromChunks_wfB w chunks : wfB (fillFromChunks chunks (initBuilder w)).
Proof.
  apply fillFromChunks_preserves; [|apply wfB_init].
  intros. now apply sampleStep_wfB.
Qed.

Definition zeroUnset (b : builder) : Prop :=
  forall i, i < cells -> nth i (heightSet b) false = false ->
            nth i (heights b) nan = 0%float.

Lemma fillFromChunks_zeroUnset w chunks :
  zeroUnset (fillFromChunks chunks (initBuilder w)).
Proof.
  apply (fillFromChunks_preserves (fun b => wfB b /\ zeroUnset b)).
  - intros b chunkX chunkY c cv row col vi _ _ _ _ _ _ _ [Hwf Hb].
    split; [now apply sampleStep_wfB|].
    destruct (sampleStep_cases cv (position c) chunkX chunkY row col b vi)
      as [->|(Hn & _ & Hlt & ->)]; [exact Hb|].
    intros i Hi. cbn [storeSample heights heightSet].
    destruct (Nat.eq_dec (sampleIndex chunkX chunkY row col) i) as [->|Hne].
    + rewrite nth_insert_eq; [discriminate|]. destruct Hwf as [_ ->]. exact Hi.
    + rewrite !nth_insert_ne by exact Hne. now apply Hb.
  - split; [apply wfB_init|]. intros i Hi _. cbn [initBuilder heights].
    apply nth_repeat_lt. exact Hi.
Qed.

(** *** The first pass on a fully populated tile *)

Lemma isSet_frame P b b' i : frame P b b' -> isSet b i -> isSet b' i.
Proof.
  intros H Hi. destruct (H i (or_introl Hi)) as [Hs _].
  unfold isSet in *. congruence.
Qed.

Lemma frame_top P b b' : frame P b b' -> frame (fun _ => True) b b'.
Proof. apply frame_weaken. auto. Qed.

Lemma sampleStep_sets cv cp chunkX chunkY row col b vi :
  wfB b -> chunkX < chunksPerSide -> chunkY < chunksPerSide ->
  row < 17 -> col < colCount row ->
  isSet (sampleStep cv cp chunkX chunkY row col b vi)
    (sampleIndex chunkX chunkY row col).
Proof.
  intros [_ Hlen] HX HY Hrow Hcol.
  assert (Hl : localX row col < vertsPerChunk).
  { unfold localX, colCount, vertsPerChunk in *. destruct (isShort row); lia. }
  unfold sampleStep. fold (sampleIndex chunkX chunkY row col).
  replace (_ && _) with true.
  - destruct (nth _ (heightSet b) false) eqn:E; [exact E|].
    unfold isSet. cbn [negb storeSample heightSet].
    apply nth_insert_eq. rewrite Hlen.
    unfold sampleIndex, cells, fullSize, vertsPerChunk, chunksPerSide in *.
    cbn [Nat.sub] in *. nia.
  - symmetry. rewrite !andb_true_iff, !Nat.ltb_lt.
    unfold fullSize, vertsPerChunk, chunksPerSide in *. cbn [Nat.sub] in *.
    lia.
Qed.

(** A row of samples that does not run out of vertices. *)
Lemma colLoop_full cv cp chunkX chunkY row cols s :
  snd s + length cols <= length cv -> wfB (fst s) ->
  chunkX < chunksPerSide -> chunkY < chunksPerSide -> row < 17 ->
  let r := colLoop cv cp chunkX chunkY row cols s in
  wfB (fst r) /\ snd r = snd s + length cols /\
  frame (fun _ => True) (fst s) (fst r) /\
  forall col, In col cols -> col < colCount row ->
              isSet (fst r) (sampleIndex chunkX chunkY row col).
Proof.
  intros Hlen Hwf HX HY Hrow. revert s Hlen Hwf.
  induction cols as [|col cols IH]; intros s Hlen Hwf; cbn [colLoop length] in *.
  { split; [exact Hwf|]. split; [lia|]. split; [apply frame_refl|].
    intros ? []. }
  destruct (Nat.leb_spec (length cv) (snd s)); [lia|].
  set (s1 := (sampleStep cv cp chunkX chunkY row col (fst s) (snd s), S (snd s))).
  assert (Hwf1 : wfB (fst s1)) by now apply sampleStep_wfB.
  destruct (IH s1) as (W & N & Fr & Hset); [simpl; lia | exact Hwf1 |].
  split; [exact W|]. split; [rewrite N; simpl; lia|]. split.
  - eapply frame_trans; [apply sampleStep_frame | exact Fr].
  - intros c [<-|Hc] Hcc; [|now apply Hset].
    eapply isSet_frame; [exact Fr|]. now apply sampleStep_sets.
Qed.

Lemma rows_full cv cp chunkX chunkY rows s :
  snd s + list_sum (map colCount rows) <= length cv -> wfB (fst s) ->
  chunkX < chunksPerSide -> chunkY < chunksPerSide ->
  Forall (fun row => row < 17) rows ->
  let r := fold_left (rowStep cv cp chunkX chunkY) rows s in
  wfB (fst r) /\ snd r = snd s + list_sum (map colCount rows) /\
  frame (fun _ => True) (fst s) (fst r) /\
  forall row col, In row rows -> col < colCount row ->
                  isSet (fst r) (sampleIndex chunkX chunkY row col).
Proof.
  intros Hlen Hwf HX HY Hrows. revert s Hlen Hwf.
  induction Hrows as [|row rows Hrow _ IH]; intros s Hlen Hwf;
    cbn [fold_left map] in *.
  { split; [exact Hwf|]. split; [simpl; lia|]. split; [apply frame_refl|].
    intros ? ? []. }
  change (list_sum (colCount row :: map colCount rows))
    with (colCount row + list_sum (map colCount rows)) in *.
  destruct (colLoop_full cv cp chunkX chunkY row (seq 0 (colCount row)) s)
    as (W1 & N1 & F1 & S1); try assumption.
  { rewrite length_seq. lia. }
  rewrite length_seq in N1. fold (rowStep cv cp chunkX chunkY s row) in *.
  destruct (IH (rowStep cv cp chunkX chunkY s row)) as (W & N & Fr & Hset);
    [lia | exact W1 |].
  split; [exact W|]. split; [lia|]. split.
  - eapply frame_trans; [exact F1 | exact Fr].
  - intros r c [<-|Hr] Hc; [|now apply Hset].
    eapply isSet_frame; [exact Fr|]. apply S1; [apply in_seq; lia | exact Hc].
Qed.

(** Every loop body of the first pass keeps the shape and only adds. *)
Lemma chunkStep_preserves (I : builder -> Prop) chunks chunkX chunkY b :
  chunkX < chunksPerSide -> chunkY < chunksPerSide ->
  (forall b c cv row col vi,
     nth (chunkX * chunksPerSide + chunkY) chunks None = Some c ->
     vertices c = Some cv ->
     row < 17 -> col < colCount row -> vi < length cv ->
     I b -> I (sampleStep cv (position c) chunkX chunkY row col b vi)) ->
  I b -> I (chunkStep chunks chunkX b chunkY).
Proof.
  intros HX HY Hf Hb. unfold chunkStep.
  destruct (nth _ chunks None) as [c|] eqn:Ec; [|exact Hb].
  destruct (vertices c) as [cv|] eqn:Ev; [|exact Hb].
  unfold rowLoop.
  apply (fold_left_preserves (fun s => I (fst s))); [|exact Hb].
  intros s row Hrow%in_seq Hs. unfold rowStep.
  apply colLoop_preserves; [|exact Hs].
  intros b3 col vi Hcol%in_seq Hvi Hb3.
  apply (Hf b3 c cv row col vi); try assumption; try reflexivity; lia.
Qed.

Lemma chunkStep_wfB chunks chunkX chunkY b :
  chunkX < chunksPerSide -> chunkY < chunksPerSide ->
  wfB b -> wfB (chunkStep chunks chunkX b chunkY).
Proof.
  intros HX HY. apply chunkStep_preserves; try assumption.
  intros. now apply sampleStep_wfB.
Qed.

Lemma chunkStep_frame chunks chunkX chunkY b :
  chunkX < chunksPerSide -> chunkY < chunksPerSide ->
  frame (fun _ => True) b (chunkStep chunks chunkX b chunkY).
Proof.
  intros HX HY.
  apply (chunkStep_preserves (frame (fun _ => True) b)); try assumption;
    [|apply frame_refl].
  intros b' c cv row col vi _ _ _ _ _ Hb'.
  eapply frame_trans; [exact Hb' | apply sampleStep_frame].
Qed.

Lemma chunkStep_full chunks chunkX chunkY b row col :
  chunkComplete chunks (chunkX * chunksPerSide + chunkY) = true ->
  wfB b -> chunkX < chunksPerSide -> chunkY < chunksPerSide ->
  row < 17 -> col < colCount row ->
  isSet (chunkStep chunks chunkX b chunkY) (sampleIndex chunkX chunkY row col).
Proof.
  unfold chunkComplete, chunkStep. intros Hc Hwf HX HY Hrow Hcol.
  destruct (nth _ chunks None) as [c|]; [|discriminate].
  destruct (vertices c) as [cv|]; [|discriminate].
  apply Nat.eqb_eq in Hc.
  destruct (rows_full cv (position c) chunkX chunkY (seq 0 17) (b, 0))
    as (_ & _ & _ & Hset); try assumption.
  - rewrite Hc. vm_compute. lia.
  - apply Forall_forall. intros r Hr%list_elem_of_In%in_seq. lia.
  - apply Hset; [apply in_seq; lia | exact Hcol].
Qed.

(** What a loop establishes at one of its iterations and keeps after. *)
Lemma fold_left_reaches {A B : Type} (I Q : A -> Prop) (f : A -> B -> A)
    (l : list B) (x0 : B) (a : A) :
  In x0 l ->
  (forall a x, In x l -> I a -> I (f a x)) ->
  (forall a, I a -> Q (f a x0)) ->
  (forall a x, In x l -> I a -> Q a -> Q (f a x)) ->
  I a -> Q (fold_left f l a).
Proof.
  intros Hin HI H0 HQ. revert a.
  assert (Keep : forall l' a, incl l' l -> I a -> Q a -> Q (fold_left f l' a)).
  { induction l' as [|x l' IH]; intros a Hl Ha Hq; [exact Hq|].
    simpl. apply IH.
    - intros z Hz. apply Hl. now right.
    - apply HI; [apply Hl; now left | exact Ha].
    - apply HQ; [apply Hl; now left | exact Ha | exact Hq]. }
  assert (G : forall l' a, incl l' l -> In x0 l' -> I a -> Q (fold_left f l' a)).
  { induction l' as [|x l' IH]; intros a Hl Hx Ha; [destruct Hx|].
    simpl. destruct Hx as [->|Hx].
    - apply Keep; [intros z Hz; apply Hl; now right | |].
      + apply HI; [apply Hl; now left | exact Ha].
      + now apply H0.
    - apply IH; [intros z Hz; apply Hl; now right | exact Hx |].
      apply HI; [apply Hl; now left | exact Ha]. }
  intros a. apply G; [apply incl_refl | exact Hin].
Qed.

Lemma chunkRow_wfB chunks chunkX b :
  chunkX < chunksPerSide -> wfB b -> wfB (chunkRow chunks b chunkX).
Proof.
  intros HX. unfold chunkRow. apply fold_left_preserves.
  intros b' chunkY HY%in_seq. apply chunkStep_wfB; [exact HX | lia].
Qed.

Lemma chunkRow_frame chunks chunkX b :
  chunkX < chunksPerSide -> frame (fun _ => True) b (chunkRow chunks b chunkX).
Proof.
  intros HX. unfold chunkRow.
  apply (fold_left_preserves (frame (fun _ => True) b)); [|apply frame_refl].
  intros b' chunkY HY%in_seq Hb'.
  eapply frame_trans; [exact Hb' | apply chunkStep_frame; [exact HX | lia]].
Qed.

Lemma fullyPopulated_chunk chunks chunkX chunkY :
  fullyPopulated chunks = true ->
  chunkX < chunksPerSide -> chunkY < chunksPerSide ->
  chunkComplete chunks (chunkX * chunksPerSide + chunkY) = true.
Proof.
  unfold fullyPopulated. rewrite forallb_forall. intros H HX HY.
  apply H, in_seq. unfold chunksPerSide in *. nia.
Qed.

(** After the first pass over a fully populated tile every cell a sample is
    meant for is set. *)
Lemma fillFromChunks_full chunks b chunkX chunkY row col :
  fullyPopulated chunks = true -> wfB b ->
  chunkX < chunksPerSide -> chunkY < chunksPerSide ->
  row < 17 -> col < colCount row ->
  isSet (fillFromChunks chunks b) (sampleIndex chunkX chunkY row col).
Proof.
  intros Hfull Hwf HX HY Hrow Hcol. unfold fillFromChunks.
  apply (fold_left_reaches wfB) with (x0 := chunkX);
    [apply in_seq; lia | | | | exact Hwf].
  - intros a x Hx%in_seq. apply chunkRow_wfB. lia.
  - intros a Ha. unfold chunkRow.
    apply (fold_left_reaches wfB) with (x0 := chunkY);
      [apply in_seq; lia | | | | exact Ha].
    + intros a' y Hy%in_seq. apply chunkStep_wfB; [exact HX | lia].
    + intros a' Ha'. apply chunkStep_full; try assumption.
      now apply fullyPopulated_chunk.
    + intros a' y Hy%in_seq Ha' Hq.
      eapply isSet_frame; [apply chunkStep_frame; [exact HX | lia] | exact Hq].
  - intros a x Hx%in_seq Ha Hq.
    eapply isSet_frame; [apply chunkRow_frame; lia | exact Hq].
Qed.

(** The cells with coordinates of equal parity are the ones samples are
    meant for. *)
Lemma sampled_cell x y :
  x < fullSize -> y < fullSize -> x mod 2 = y mod 2 ->
  exists chunkX chunkY row col,
    chunkX < chunksPerSide /\ chunkY < chunksPerSide /\
    row < 17 /\ col < colCount row /\
    sampleIndex chunkX chunkY row col = y * fullSize + x.
Proof.
  intros Hx Hy Hp. rewrite fullSize_eq in *.
  exists (Nat.min (y / 16) 15), (Nat.min (x / 16) 15),
         (y - 16 * Nat.min (y / 16) 15),
         ((x - 16 * Nat.min (x / 16) 15) / 2).
  unfold sampleIndex, colCount, localX, isShort, chunksPerSide, vertsPerChunk.
  rewrite fullSize_eq. cbn [Nat.sub].
  destruct (Nat.eqb_spec ((y - 16 * Nat.min (y / 16) 15) mod 2) 0);
    cbn [negb]; repeat split; lia.
Qed.

(** *** The second pass on a grid whose sampled cells are all set *)

Lemma interpolate_frame b : frame (fun _ => True) b (interpolate b).
Proof.
  unfold interpolate. eapply frame_top. apply (rows_frame b 0 fullSize). lia.
Qed.

Lemma interpolate_wfB b : wfB b -> wfB (interpolate b).
Proof. apply rows_wfB, seq_below. lia. Qed.

Lemma interpolate_extrema b :
  bMin (interpolate b) = bMin b /\ bMax (interpolate b) = bMax b.
Proof.
  apply (interpolate_preserves
           (fun b' => bMin b' = bMin b /\ bMax b' = bMax b)); [|now split].
  intros b' x y _ _ [H1 H2].
  destruct (interpolateCell_extrema b' x y) as [-> ->]. now split.
Qed.

Lemma setNeighborHeights_nonempty b x y a :
  In a (chosenNeighbors x y) -> isSet b a -> setNeighborHeights b x y <> [].
Proof.
  intros Ha Hs. unfold setNeighborHeights.
  assert (Hin : In a (List.filter (fun i => nth i (heightSet b) false)
                        (chosenNeighbors x y))).
  { apply filter_In. split; [exact Ha | exact Hs]. }
  destruct (List.filter _ _); [destruct Hin | discriminate].
Qed.

(** A cell between two sampled cells has a chosen neighbour that is one. *)
Lemma unsampled_neighbor x y :
  x < fullSize -> y < fullSize -> x mod 2 <> y mod 2 ->
  exists x' y', x' < fullSize /\ y' < fullSize /\ x' mod 2 = y' mod 2 /\
                In (y' * fullSize + x') (chosenNeighbors x y).
Proof.
  intros Hx Hy Hp. unfold chosenNeighbors. rewrite fullSize_eq in *.
  destruct (Nat.eqb_spec (x mod 2) 0) as [E|E].
  - exists x, (y - 1). repeat split; try lia.
    destruct (Nat.leb_spec 1 y); [now left | lia].
  - exists (x - 1), y. repeat split; try lia.
    destruct (Nat.leb_spec 1 x); [now left | lia].
Qed.

Lemma interpolate_all_set b :
  wfB b ->
  (forall x y, x < fullSize -> y < fullSize -> x mod 2 = y mod 2 ->
               isSet b (y * fullSize + x)) ->
  forall x y, x < fullSize -> y < fullSize ->
              isSet (interpolate b) (y * fullSize + x).
Proof.
  intros Hwf Hsampled x y Hx Hy.
  destruct (Nat.eq_dec (x mod 2) (y mod 2)) as [Hp|Hp].
  { eapply isSet_frame; [apply interpolate_frame | now apply Hsampled]. }
  rewrite (interpolate_split b x y Hx Hy).
  eapply isSet_frame; [apply afterCell_frame; assumption|].
  rewrite interpolateCell_cases by assumption. cbv zeta.
  destruct (nth _ (heightSet (beforeCell b x y)) false) eqn:E; [exact E|].
  destruct (unsampled_neighbor x y Hx Hy Hp) as (x' & y' & Hx' & Hy' & Hp' & Hin).
  assert (Hne : setNeighborHeights (beforeCell b x y) x y <> []).
  { apply (setNeighborHeights_nonempty _ x y _ Hin).
    eapply isSet_frame; [apply beforeCell_frame; assumption|].
    now apply Hsampled. }
  destruct (setNeighborHeights (beforeCell b x y) x y); [congruence|].
  unfold isSet. cbn [heightSet]. apply nth_insert_eq.
  destruct (beforeCell_wfB b x y Hx Hy Hwf) as [_ ->]. unfold cells. nia.
Qed.

(** *** The extrema the first pass keeps *)

Section Extrema.

Variable chunks : list (option chunk).
Hypothesis Hfinite : finiteSamples chunks = true.

Definition bounded (b : builder) : Prop :=
  forall i, i < cells -> isSet b i ->
    sampledCell i /\ In (nth i (heights b) nan) (allSamples chunks) /\
    (bMin b <=? nth i (heights b) nan)%float = true /\
    (nth i (heights b) nan <=? bMax b)%float = true.

Definition attained (b : builder) : Prop :=
  (bMin b = infinity /\ bMax b = neg_infinity /\
   forall i, i < cells -> ~ isSet b i) \/
  ((exists i, i < cells /\ isSet b i /\ nth i (heights b) nan = bMin b) /\
   (exists i, i < cells /\ isSet b i /\ nth i (heights b) nan = bMax b)).

Definition extInv (b : builder) : Prop :=
  wfB b /\ notNaN (bMin b) /\ notNaN (bMax b) /\ bounded b /\ attained b.

Lemma extInv_init : extInv (initBuilder newWriter).
Proof.
  split; [apply wfB_init|]. split; [reflexivity|]. split; [reflexivity|].
  assert (Hu : forall i, i < cells -> ~ isSet (initBuilder newWriter) i).
  { intros i Hi. unfold isSet. cbn [initBuilder heightSet].
    rewrite nth_repeat_lt by exact Hi. discriminate. }
  split.
  - intros i Hi Hs. now destruct (Hu i Hi).
  - left. now repeat split.
Qed.

Lemma storeSample_extInv b idx hv :
  ~ isSet b idx -> idx < cells -> sampledCell idx ->
  In hv (allSamples chunks) ->
  extInv b -> extInv (storeSample b idx hv).
Proof.
  intros Hn Hidx Hcell Hin (Hwf & Nm & NM & Hb & Ha).
  assert (Hfin : finite hv = true).
  { unfold finiteSamples in Hfinite. rewrite forallb_forall in Hfinite.
    now apply Hfinite. }
  destruct (finite_spec hv Hfin) as (Nv & Hlo & Hhi).
  destruct (min_step (bMin b) hv Nm Nv) as (m1 & m2 & m3).
  destruct (max_step (bMax b) hv NM Nv) as (M1 & M2 & M3).
  pose proof Hwf as [L1 L2].
  assert (Hat : nth idx (heights (storeSample b idx hv)) nan = hv).
  { cbn [storeSample heights]. apply nth_insert_eq. now rewrite L1. }
  assert (Hst : isSet (storeSample b idx hv) idx).
  { unfold isSet. cbn [storeSample heightSet]. apply nth_insert_eq.
    now rewrite L2. }
  assert (Hoth : forall i, i <> idx ->
            nth i (heights (storeSample b idx hv)) nan = nth i (heights b) nan
            /\ (isSet (storeSample b idx hv) i <-> isSet b i)).
  { intros i Hi. unfold isSet. cbn [storeSample heights heightSet].
    rewrite !nth_insert_ne by congruence. tauto. }
  split; [now apply storeSample_wfB|].
  split; [exact m3|]. split; [exact M3|]. split.
  - intros i Hi Hs. destruct (Nat.eq_dec i idx) as [->|Hne].
    + rewrite Hat. cbn [storeSample bMin bMax]. auto.
    + destruct (Hoth i Hne) as [-> Hiff]. apply Hiff in Hs.
      destruct (Hb i Hi Hs) as (C & I & B1 & B2).
      cbn [storeSample bMin bMax]. repeat split; try assumption.
      * eapply leb_trans; [exact m2 | exact B1].
      * eapply leb_trans; [exact B2 | exact M2].
  - right. cbn [storeSample bMin bMax] in *.
    destruct Ha as [(Em & EM & _)|[(i & Hi & Hsi & Ei) (j & Hj & Hsj & Ej)]].
    + rewrite Em, EM, Hhi, Hlo.
      split; exists idx; (split; [exact Hidx|]); (split; [exact Hst|]);
        change (nth idx (heights (storeSample b idx hv)) nan = hv); exact Hat.
    + assert (i <> idx) by (intros ->; contradiction).
      assert (j <> idx) by (intros ->; contradiction).
      split.
      * destruct (hv <? bMin b)%float.
        -- exists idx. split; [exact Hidx|]. split; [exact Hst | exact Hat].
        -- exists i. split; [exact Hi|].
           destruct (Hoth i) as [E Hiff]; [assumption|].
           split; [now apply Hiff|].
           change (nth i (heights (storeSample b idx hv)) nan = bMin b).
           now rewrite E.
      * destruct (bMax b <? hv)%float.
        -- exists idx. split; [exact Hidx|]. split; [exact Hst | exact Hat].
        -- exists j. split; [exact Hj|].
           destruct (Hoth j) as [E Hiff]; [assumption|].
           split; [now apply Hiff|].
           change (nth j (heights (storeSample b idx hv)) nan = bMax b).
           now rewrite E.
Qed.

Lemma sample_in_allSamples chunkX chunkY c cv vi :
  chunkX < chunksPerSide -> chunkY < chunksPerSide ->
  nth (chunkX * chunksPerSide + chunkY) chunks None = Some c ->
  vertices c = Some cv -> vi < length cv ->
  In (nth vi cv nan + nth 2 (position c) nan)%float (allSamples chunks).
Proof.
  intros HX HY Hc Hv Hvi. unfold allSamples. apply in_flat_map.
  exists (chunkX * chunksPerSide + chunkY). split.
  - apply in_seq. unfold chunksPerSide in *. nia.
  - rewrite Hc. unfold chunkSamples. rewrite Hv.
    apply (in_map (fun v => (v + nth 2 (position c) nan)%float)).
    now apply nth_In.
Qed.

Lemma fillFromChunks_extInv :
  extInv (fillFromChunks chunks (initBuilder newWriter)).
Proof.
  apply fillFromChunks_preserves; [|apply extInv_init].
  intros b chunkX chunkY c cv row col vi HX HY Hc Hv _ _ Hvi Hb.
  destruct (sampleStep_cases cv (position c) chunkX chunkY row col b vi)
    as [->|(Hn & Hcell & Hlt & ->)]; [exact Hb|].
  apply storeSample_extInv; try assumption.
  now apply (sample_in_allSamples chunkX chunkY c cv vi).
Qed.

End Extrema.

(** *** The claims about the builder *)

(** The extrema of [bumpChunks].  After the first two chunks the maximum is
    0: the sample 100 of chunk 1 is meant for the cell (16, 0), which chunk 0
    has set, and is skipped.  All later chunks are flat. *)
Lemma bumpChunks_first_two :
  bMax (chunkStep bumpChunks 0
          (chunkStep bumpChunks 0 (initBuilder newWriter) 0) 1) = 0%float.
Proof. vm_compute. reflexivity. Qed.

Lemma bumpChunks_flat ci :
  2 <= ci -> ci < 256 -> nth ci bumpChunks None = Some flatChunk.
Proof.
  destruct ci as [|[|k]]; intros H H'; try lia.
  unfold bumpChunks. cbn [nth]. apply nth_repeat_lt. lia.
Qed.

Lemma flatChunk_sample vi :
  vi < 145 ->
  (nth vi (repeat 0%float 145) nan + nth 2 (position flatChunk) nan)%float
  = 0%float.
Proof. intros H. rewrite nth_repeat_lt by exact H. reflexivity. Qed.

Lemma bumpChunks_step chunkX chunkY b :
  chunkX < chunksPerSide -> chunkY < chunksPerSide ->
  2 <= chunkX * chunksPerSide + chunkY ->
  bMax b = 0%float ->
  bMax (chunkStep bumpChunks chunkX b chunkY) = 0%float.
Proof.
  intros HX HY Hge.
  apply (chunkStep_preserves (fun b => bMax b = 0%float)); try assumption.
  intros b' c cv row col vi Hc Hv _ _ Hvi Hb'.
  rewrite bumpChunks_flat in Hc by (unfold chunksPerSide in *; lia).
  assert (Ec : c = flatChunk) by congruence. subst c.
  assert (Ev : cv = repeat 0%float 145) by (change (vertices flatChunk)
    with (Some (repeat 0%float 145)) in Hv; congruence).
  subst cv. rewrite repeat_length in Hvi.
  destruct (sampleStep_cases (repeat 0%float 145) (position flatChunk)
              chunkX chunkY row col b' vi) as [->|(_ & _ & _ & ->)];
    [exact Hb'|].
  cbn [storeSample bMax]. rewrite Hb', flatChunk_sample by exact Hvi.
  reflexivity.
Qed.

Lemma fold_left_cons {A B : Type} (f : A -> B -> A) x l a :
  fold_left f (x :: l) a = fold_left f l (f a x).
Proof. reflexivity. Qed.

Lemma chunk_rows_split : seq 0 chunksPerSide = 0 :: seq 1 15.
Proof. reflexivity. Qed.

Lemma chunk_cols_split : seq 0 chunksPerSide = 0 :: 1 :: seq 2 14.
Proof. reflexivity. Qed.

Lemma bumpChunks_rest b :
  bMax (chunkStep bumpChunks 0 (chunkStep bumpChunks 0 b 0) 1) = 0%float ->
  bMax (fillFromChunks bumpChunks b) = 0%float.
Proof.
  intros H2. unfold fillFromChunks.
  rewrite chunk_rows_split, fold_left_cons.
  apply (fold_left_preserves (fun b => bMax b = 0%float)).
  - intros b0 chunkX HX%in_seq Hb. unfold chunkRow.
    apply (fold_left_preserves (fun b => bMax b = 0%float)); [|exact Hb].
    intros b' chunkY HY%in_seq.
    apply bumpChunks_step; unfold chunksPerSide in *; lia.
  - unfold chunkRow.
    rewrite chunk_cols_split, !fold_left_cons.
    apply (fold_left_preserves (fun b => bMax b = 0%float)); [|exact H2].
    intros b' chunkY HY%in_seq.
    apply bumpChunks_step; unfold chunksPerSide in *; lia.
Qed.

Lemma bumpChunks_maxHeight :
  maxHeight (setHeightDataFromChunks newWriter bumpChunks) = 0%float.
Proof.
  cbn [setHeightDataFromChunks maxHeight]. unfold buildGrid.
  destruct (interpolate_extrema
              (fillFromChunks bumpChunks (initBuilder newWriter))) as [_ ->].
  apply bumpChunks_rest, bumpChunks_first_two.
Qed.

(** C5, as stated, fails: the extrema are folded only over the samples that
    are stored, and a sample meant for a cell that an earlier chunk has set
    is skipped.  [bumpChunks] is fully populated and 100 is one of its
    samples, but [maxHeight] ends as 0, which is not an upper bound of the
    chunk samples. *)
Lemma shared_border_sample_missed :
  fullyPopulated bumpChunks = true /\
  ~ (forall v, In v (allSamples bumpChunks) ->
       (v <=? maxHeight (setHeightDataFromChunks newWriter bumpChunks))%float
       = true).
Proof.
  split; [vm_compute; reflexivity|].
  intros H. specialize (H 100%float). rewrite bumpChunks_maxHeight in H.
  assert (Hin : In 100%float (allSamples bumpChunks)).
  { unfold allSamples. apply in_flat_map. exists 1. split.
    - apply in_seq. unfold chunksPerSide. lia.
    - now left. }
  specialize (H Hin). vm_compute in H. discriminate.
Qed.

(** C5, amended.  For a fully populated tile (256 chunks of 145 samples)
    built into a new writer, the grid has 257 x 257 cells and every cell is
    set after the interpolation.  When the samples (raw sample plus the
    chunk's z) are finite numbers, every cell with coordinates of equal
    parity holds one of the chunk samples, [minHeight] and [maxHeight] bound
    the heights of all these cells, and each of the two is the height of
    one of them: they are the extrema of the samples stored in the grid.
    (A sample meant for a cell that an earlier chunk has set is not stored
    and not folded into the extrema.) *)
Theorem full_tile_heightmap (chunks : list (option chunk)) :
  fullyPopulated chunks = true ->
  let b := buildGrid newWriter chunks in
  let w := setHeightDataFromChunks newWriter chunks in
  length (heightData w) = fullSize * fullSize /\
  (forall i, i < fullSize * fullSize -> nth i (heightSet b) false = true) /\
  (finiteSamples chunks = true ->
   (forall x y, x < fullSize -> y < fullSize -> x mod 2 = y mod 2 ->
      let h := nth (y * fullSize + x) (heightData w) nan in
      In h (allSamples chunks) /\
      (minHeight w <=? h)%float = true /\ (h <=? maxHeight w)%float = true) /\
   (exists x y, x < fullSize /\ y < fullSize /\ x mod 2 = y mod 2 /\
      nth (y * fullSize + x) (heightData w) nan = minHeight w) /\
   (exists x y, x < fullSize /\ y < fullSize /\ x mod 2 = y mod 2 /\
      nth (y * fullSize + x) (heightData w) nan = maxHeight w)).
Proof.
  intros Hfull b w.
  set (b1 := fillFromChunks chunks (initBuilder newWriter)).
  assert (Hwf1 : wfB b1) by apply fillFromChunks_wfB.
  assert (Hcov : forall x y, x < fullSize -> y < fullSize ->
                   x mod 2 = y mod 2 -> isSet b1 (y * fullSize + x)).
  { intros x y Hx Hy Hp.
    destruct (sampled_cell x y Hx Hy Hp) as (cX & cY & row & col & H1 & H2 & H3 & H4 & <-).
    now apply fillFromChunks_full. }
  assert (Hb : b = interpolate b1) by reflexivity.
  assert (Hsame : forall x y, x < fullSize -> y < fullSize ->
                    x mod 2 = y mod 2 ->
                    nth (y * fullSize + x) (heightData w) nan
                    = nth (y * fullSize + x) (heights b1) nan).
  { intros x y Hx Hy Hp. change (heightData w) with (heights b). rewrite Hb.
    apply (interpolate_frame b1). left. now apply Hcov. }
  destruct (interpolate_extrema b1) as [Emin Emax].
  change (minHeight w) with (bMin b). change (maxHeight w) with (bMax b).
  rewrite Hb, Emin, Emax.
  split; [|split].
  - change (heightData w) with (heights (interpolate b1)).
    exact (proj1 (interpolate_wfB b1 Hwf1)).
  - intros i Hi.
    assert (Hq : i / fullSize < fullSize)
      by (apply Nat.Div0.div_lt_upper_bound; exact Hi).
    assert (Hr : i mod fullSize < fullSize)
      by (apply Nat.mod_upper_bound; discriminate).
    rewrite (Nat.div_mod_eq i fullSize) at 1.
    rewrite (Nat.mul_comm fullSize).
    exact (interpolate_all_set b1 Hwf1 Hcov _ _ Hr Hq).
  - intros Hfin.
    destruct (fillFromChunks_extInv chunks Hfin) as (_ & _ & _ & Hbd & Hat).
    fold b1 in Hbd, Hat.
    assert (Hcell : forall x y, x < fullSize -> y < fullSize ->
                      y * fullSize + x < cells) by (unfold cells; nia).
    assert (H0 : 0 < fullSize) by (rewrite fullSize_eq; lia).
    pose proof (Hcov 0 0 H0 H0 eq_refl) as Hset0.
    pose proof (Hcell 0 0 H0 H0) as Hcell0.
    split; [|split].
    + intros x y Hx Hy Hp. cbv zeta. rewrite (Hsame x y Hx Hy Hp).
      destruct (Hbd (y * fullSize + x) (Hcell x y Hx Hy) (Hcov x y Hx Hy Hp))
        as (_ & I & B1 & B2).
      split; [exact I|]. split; [exact B1 | exact B2].
    + destruct Hat as [(_ & _ & Hnone)|[(i & Hi & Hs & E) _]].
      * exfalso. exact (Hnone _ Hcell0 Hset0).
      * destruct (Hbd i Hi Hs) as ((x & y & Hx & Hy & Hp & Ei) & _).
        exists x, y. split; [exact Hx|]. split; [exact Hy|].
        split; [exact Hp|]. rewrite (Hsame x y Hx Hy Hp), <- Ei. exact E.
    + destruct Hat as [(_ & _ & Hnone)|[_ (i & Hi & Hs & E)]].
      * exfalso. exact (Hnone _ Hcell0 Hset0).
      * destruct (Hbd i Hi Hs) as ((x & y & Hx & Hy & Hp & Ei) & _).
        exists x, y. split; [exact Hx|]. split; [exact Hy|].
        split; [exact Hp|]. rewrite (Hsame x y Hx Hy Hp), <- Ei. exact E.
Qed.

Lemma full_tile_heightmap_witness :
  fullyPopulated bumpChunks = true /\
  length (heightData (setHeightDataFromChunks newWriter bumpChunks))
  = fullSize * fullSize.
Proof.
  assert (Hfull : fullyPopulated bumpChunks = true)
    by (vm_compute; reflexivity).
  split; [exact Hfull|].
  exact (proj1 (full_tile_heightmap bumpChunks Hfull)).
Defined.

(** *** The writer *)

(** A cell value that [writeUInt16LE] accepts as it is. *)
Definition inRange (w : writer) (h : float) : Prop :=
  exists v, r16Value w h = IInt v /\ (0 <= v <= 65535)%Z.

Lemma writeUInt16LE_inRange buf v offset :
  (0 <= v <= 65535)%Z -> offset + 2 <= length buf ->
  writeUInt16LE buf (IInt v) offset
  = Some (<[S offset := Z.shiftr v 8]> (<[offset := Z.land v 255]> buf)).
Proof.
  intros Hv Hlen. unfold writeUInt16LE, uint16.
  replace ((0 <=? v) && (v <=? 65535))%Z with true
    by (symmetry; rewrite andb_true_iff, !Z.leb_le; lia).
  destruct (Nat.leb_spec (offset + 2) (length buf)); [reflexivity | lia].
Qed.

Lemma fillBuffer_spec w hs i buf :
  (i + length hs) * 2 <= length buf ->
  Forall (inRange w) hs ->
  exists buf',
    fillBuffer w hs i buf = Some buf' /\ length buf' = length buf /\
    (forall j, j < i * 2 -> buf' !! j = buf !! j) /\
    forall k h, hs !! k = Some h ->
      exists v, r16Value w h = IInt v /\
                buf' !! ((i + k) * 2) = Some (Z.land v 255) /\
                buf' !! ((i + k) * 2 + 1) = Some (Z.shiftr v 8).
Proof.
  revert i buf. induction hs as [|h hs IH]; intros i buf Hlen Hall.
  { exists buf. repeat split; try reflexivity. intros k h. now destruct k. }
  apply Forall_cons in Hall as [(v & Ev & Hv) Hall].
  cbn [fillBuffer length] in *. rewrite Ev.
  rewrite writeUInt16LE_inRange by (try exact Hv; lia).
  set (buf1 := <[S (i * 2) := Z.shiftr v 8]> (<[i * 2 := Z.land v 255]> buf)).
  assert (L1 : length buf1 = length buf)
    by (unfold buf1; now rewrite !length_insert).
  destruct (IH (S i) buf1) as (buf' & E & L & Hpre & Hcells);
    [rewrite L1; lia | exact Hall |].
  exists buf'. split; [exact E|]. split; [congruence|]. split.
  - intros j Hj. rewrite Hpre by lia. unfold buf1.
    rewrite !list_lookup_insert_ne by lia. reflexivity.
  - intros [|k] h' Hk.
    + injection Hk as <-. exists v. split; [exact Ev|].
      rewrite Nat.add_0_r, !Hpre by lia. unfold buf1. split.
      * rewrite list_lookup_insert_ne by lia.
        apply list_lookup_insert_eq. lia.
      * replace (i * 2 + 1) with (S (i * 2)) by lia.
        apply list_lookup_insert_eq. rewrite length_insert. lia.
    + destruct (Hcells k h' Hk) as (v' & Ev' & H0 & H1).
      exists v'. split; [exact Ev'|].
      replace (i + S k) with (S i + k) by lia. now split.
Qed.

(** C7.  When the buffer has two bytes per cell (the grid length is a
    perfect square whose root [Math.sqrt] returns exactly, as for the
    257 x 257 grid) and for every cell the number
    [round((height - minHeight) / (maxHeight - minHeight) * 65535)],
    computed in binary64, is an integer in 0 .. 65535, [write] hands the
    stream a buffer of exactly [2 * cells] bytes and nothing else, in which
    the bytes at the offsets [2 * i] and [2 * i + 1] are the low and the high
    byte of that number for cell [i].  With [minHeight = 0] and
    [maxHeight = 65535 * k] the number so written for a sample [h] is
    [round(h / (65535 * k) * 65535)]. *)
Theorem write_serialises_cells (w : writer) :
  allocSize (length (heightData w)) = Some (2 * length (heightData w)) ->
  (forall h, In h (heightData w) ->
     exists v,
       Math_round ((h - minHeight w) / (maxHeight w - minHeight w) * 65535)%float
       = IInt v /\ (0 <= v <= 65535)%Z) ->
  exists buf,
    r16Buffer w = Some buf /\
    (forall path fileExists,
       out w = Some path -> write fileExists true true w = Written path buf) /\
    length buf = 2 * length (heightData w) /\
    (forall i h, heightData w !! i = Some h ->
       exists v,
         Math_round
           ((h - minHeight w) / (maxHeight w - minHeight w) * 65535)%float
         = IInt v /\
         (0 <= v <= 65535)%Z /\
         buf !! (2 * i) = Some (v mod 256)%Z /\
         buf !! (2 * i + 1) = Some (v / 256)%Z) /\
    (forall k, minHeight w = 0%float -> maxHeight w = (65535 * k)%float ->
       forall i h, heightData w !! i = Some h ->
         exists v,
           Math_round (h / (65535 * k) * 65535)%float = IInt v /\
           buf !! (2 * i) = Some (v mod 256)%Z /\
           buf !! (2 * i + 1) = Some (v / 256)%Z).
Proof.
  intros Halloc Hrange.
  assert (Hall : Forall (inRange w) (heightData w)).
  { apply List.Forall_forall. intros h Hh. exact (Hrange h Hh). }
  unfold r16Buffer. rewrite Halloc.
  destruct (fillBuffer_spec w (heightData w) 0
              (repeat 0%Z (2 * length (heightData w))))
    as (buf & E & L & _ & Hcells); [rewrite repeat_length; lia | exact Hall |].
  assert (Hbytes : forall i h, heightData w !! i = Some h ->
            exists v,
              Math_round
                ((h - minHeight w) / (maxHeight w - minHeight w) * 65535)%float
              = IInt v /\
              (0 <= v <= 65535)%Z /\
              buf !! (2 * i) = Some (v mod 256)%Z /\
              buf !! (2 * i + 1) = Some (v / 256)%Z).
  { intros i h Hi. destruct (Hcells i h Hi) as (v & Ev & H0 & H1).
    exists v. split; [exact Ev|].
    destruct (Forall_lookup_1 _ _ _ _ Hall Hi) as (v' & Ev' & Hv).
    assert (v' = v) by congruence. subst v'. split; [exact Hv|].
    replace (2 * i) with ((0 + i) * 2) by lia.
    rewrite H0, H1. split; f_equal.
    - change 255%Z with (Z.ones 8). rewrite Z.land_ones by lia. reflexivity.
    - rewrite Z.shiftr_div_pow2 by lia. reflexivity. }
  exists buf. split; [exact E|]. split; [|split; [|split]].
  - intros path fe Hout. unfold write, r16Buffer.
    rewrite Hout, Halloc, E. reflexivity.
  - now rewrite L, repeat_length.
  - exact Hbytes.
  - intros k Hmin Hmax i h Hi.
    destruct (Hbytes i h Hi) as (v & Ev & _ & B0 & B1).
    rewrite Hmin, Hmax, !sub_zero in Ev.
    exists v. split; [exact Ev|]. split; [exact B0 | exact B1].
Qed.

(** A grid of four cells with the range 10 .. 65545: the heights 10, 266,
    268.5 and 65545 have the values 0, 256, 259 (258.5 rounds up) and
    65535, and the file holds the bytes 0 0, 0 1, 3 1, 255 255. *)
Lemma write_serialises_cells_witness :
  write false true true
    (Writer (Some "t.r16"%string) [10; 266; 268.5; 65545]%float 10 65545)
  = Written "t.r16" [0; 0; 0; 1; 3; 1; 255; 255]%Z.
Proof.
  destruct (write_serialises_cells
              (Writer (Some "t.r16"%string) [10; 266; 268.5; 65545]%float
                 10 65545))
    as (buf & _ & Hw & L & Hb & _).
  - vm_compute. reflexivity.
  - intros h [<-|[<-|[<-|[<-|[]]]]].
    + exists 0%Z. split; [vm_compute; reflexivity | lia].
    + exists 256%Z. split; [vm_compute; reflexivity | lia].
    + exists 259%Z. split; [vm_compute; reflexivity | lia].
    + exists 65535%Z. split; [vm_compute; reflexivity | lia].
  - rewrite (Hw "t.r16"%string false eq_refl). f_equal.
    destruct (Hb 0 _ eq_refl) as (v0 & E0 & _ & A0 & B0).
    destruct (Hb 1 _ eq_refl) as (v1 & E1 & _ & A1 & B1).
    destruct (Hb 2 _ eq_refl) as (v2 & E2 & _ & A2 & B2).
    destruct (Hb 3 _ eq_refl) as (v3 & E3 & _ & A3 & B3).
    vm_compute in E0, E1, E2, E3.
    injection E0 as <-. injection E1 as <-.
    injection E2 as <-. injection E3 as <-.
    destruct buf as [|a0 [|b0 [|a1 [|b1 [|a2 [|b2 [|a3 [|b3 [|x buf]]]]]]]]];
      try discriminate L.
    vm_compute in A0, B0, A1, B1, A2, B2, A3, B3. congruence.
Defined.

(** The number written is the rounding of the product as binary64 computes
    it, which need not be [round(h / k)]: with the range 0 .. 65535 * 3 the
    sample 97.499999999999986 is written as 33, while a third of it rounds
    to 32. *)
Example r16Value_not_round_of_quotient :
  r16Value (Writer None [] 0 (65535 * 3)) 97.499999999999986 = IInt 33 /\
  Math_round (97.499999999999986 / 3)%float = IInt 32.
Proof. split; vm_compute; reflexivity. Qed.

(** The buffer for the 257 x 257 grid has two bytes per cell: the first
    hypothesis of [write_serialises_cells] holds for every grid the builder
    makes. *)
Lemma allocSize_cells : allocSize cells = Some (2 * cells).
Proof.
  assert (H : option_map Z.of_nat (allocSize cells)
              = Some (2 * (257 * 257))%Z) by (vm_compute; reflexivity).
  destruct (allocSize cells) as [n|]; [|discriminate].
  cbn [option_map] in H. injection H as H. f_equal.
  unfold cells. rewrite fullSize_eq. lia.
Qed.

Lemma built_grid_alloc w chunks :
  allocSize (length (heightData (setHeightDataFromChunks w chunks)))
  = Some (2 * length (heightData (setHeightDataFromChunks w chunks))).
Proof.
  assert (L : length (heightData (setHeightDataFromChunks w chunks)) = cells).
  { unfold setHeightDataFromChunks. cbn [heightData].
    exact (proj1 (interpolate_wfB _ (fillFromChunks_wfB w chunks))). }
  rewrite L. exact allocSize_cells.
Qed.

(** The arithmetic of the writer on two concrete cells: with the range
    0 .. 65535 * 2 the sample 3 is stored as 2 (1.5 rounds up), and the
    sample 0.5 scaled by 65535 / 65535 is stored as 1. *)
Example r16Value_examples :
  r16Value (Writer None [] 0 (65535 * 2)) 3 = IInt 2 /\
  r16Value (Writer None [] 0 65535) 0.5 = IInt 1.
Proof. split; vm_compute; reflexivity. Qed.

(** C6.  When the second pair of loops reaches a cell that the first pass
    left unset, it looks at the cell's chosen neighbours only: the cells
    above and below when x is even, the cells left and right when x is odd,
    as far as they lie in the grid.  If at least one of them is set at that
    moment, the cell is set to the sum of the set ones (accumulated from 0)
    divided by their number, and that is its final value; if none is, the
    cell stays unset and holds the 0 the array was initialised with.  In
    particular an unset cell whose two chosen neighbours were both set by
    the first pass ends as [(0 + a + c) / 2]. *)
Theorem interpolation_by_x_parity (w : writer) (chunks : list (option chunk))
    (x y : nat) :
  x < fullSize -> y < fullSize ->
  let b1 := fillFromChunks chunks (initBuilder w) in
  let bv := beforeCell b1 x y in
  let final := buildGrid w chunks in
  let index := y * fullSize + x in
  let hs := setNeighborHeights bv x y in
  nth index (heightSet b1) false = false ->
  (hs <> [] ->
     nth index (heightSet final) false = true /\
     nth index (heights final) nan
     = (fold_left PrimFloat.add hs 0 / natToFloat (length hs))%float) /\
  (hs = [] ->
     nth index (heightSet final) false = false /\
     nth index (heights final) nan = 0%float) /\
  (forall a c,
     chosenNeighbors x y = [a; c] ->
     nth a (heightSet b1) false = true -> nth c (heightSet b1) false = true ->
     nth index (heights final) nan
     = ((0 + nth a (heights b1) nan + nth c (heights b1) nan) / 2)%float).
Proof.
  intros Hx Hy b1 bv final index hs Hunset.
  pose proof (fillFromChunks_wfB w chunks) as Hwf1. fold b1 in Hwf1.
  pose proof (beforeCell_wfB b1 x y Hx Hy Hwf1) as Hwfv. fold bv in Hwfv.
  pose proof (beforeCell_frame b1 x y Hx Hy) as Hfr. fold bv in Hfr.
  assert (Hidx : index < cells) by (unfold index, cells; nia).
  destruct (Hfr index) as [Hs1 Hh1]; [right; lia|]. fold index in Hs1, Hh1.
  assert (Hfin : sameAt (interpolateCell bv x y) final index).
  { unfold final, buildGrid. fold b1.
    rewrite (interpolate_split b1 x y Hx Hy). fold bv.
    apply afterCell_frame; [exact Hx | exact Hy | right; unfold index; lia]. }
  destruct Hfin as [Hfs Hfh].
  rewrite (interpolateCell_cases bv x y Hx Hy) in Hfs, Hfh.
  cbv zeta in Hfs, Hfh. fold index hs in Hfs, Hfh.
  rewrite Hs1, Hunset in Hfs, Hfh.
  assert (Hset : hs <> [] ->
     nth index (heightSet final) false = true /\
     nth index (heights final) nan
     = (fold_left PrimFloat.add hs 0 / natToFloat (length hs))%float).
  { intros Hne. destruct hs as [|h t] eqn:E; [congruence|].
    cbn [heights heightSet] in Hfs, Hfh. rewrite Hfs, Hfh.
    destruct Hwfv as [L1 L2].
    split; apply nth_insert_eq; [rewrite L2 | rewrite L1]; exact Hidx. }
  split; [exact Hset|]. split.
  - intros E. rewrite E in Hfs, Hfh. rewrite Hfs, Hfh, Hs1, Hh1.
    split; [exact Hunset|].
    now apply (fillFromChunks_zeroUnset w chunks).
  - intros a c Hn Ha Hc.
    destruct (Hfr a) as [Hsa Hha]; [now left|].
    destruct (Hfr c) as [Hsc Hhc]; [now left|].
    assert (E : hs = [nth a (heights b1) nan; nth c (heights b1) nan]).
    { unfold hs, setNeighborHeights. rewrite Hn. cbn [List.filter].
      rewrite Hsa, Ha, Hsc, Hc. cbn [map]. now rewrite Hha, Hhc. }
    destruct Hset as [_ ->]; [rewrite E; discriminate|].
    rewrite E. reflexivity.
Qed.

(** The tile [rampChunks]: the cell (1, 0), with x odd, lies between the
    samples 11 and 12 of row 0 and ends as 11.5; the cell (0, 1), with x
    even, lies between the samples 11 and 28 of column 0 and ends as 19.5;
    the cell (18, 0), outside the only chunk, has no set neighbour when the
    loops reach it and stays unset, at 0. *)
Lemma interpolation_by_x_parity_witness :
  nth (0 * fullSize + 1)
    (heightSet (fillFromChunks rampChunks (initBuilder newWriter))) false
  = false /\
  nth (0 * fullSize + 1) (heights (buildGrid newWriter rampChunks)) nan
  = 11.5%float /\
  nth (1 * fullSize + 0)
    (heightSet (fillFromChunks rampChunks (initBuilder newWriter))) false
  = false /\
  nth (1 * fullSize + 0) (heights (buildGrid newWriter rampChunks)) nan
  = 19.5%float /\
  nth (0 * fullSize + 18) (heightSet (buildGrid newWriter rampChunks)) false
  = false /\
  nth (0 * fullSize + 18) (heights (buildGrid newWriter rampChunks)) nan
  = 0%float.
Proof.
  assert (H0 : 0 < fullSize) by (rewrite fullSize_eq; lia).
  assert (H1 : 1 < fullSize) by (rewrite fullSize_eq; lia).
  assert (H18 : 18 < fullSize) by (rewrite fullSize_eq; lia).
  assert (Hu10 : nth (0 * fullSize + 1)
                   (heightSet (fillFromChunks rampChunks (initBuilder newWriter)))
                   false = false) by (vm_compute; reflexivity).
  assert (Hu01 : nth (1 * fullSize + 0)
                   (heightSet (fillFromChunks rampChunks (initBuilder newWriter)))
                   false = false) by (vm_compute; reflexivity).
  assert (Hu18 : nth (0 * fullSize + 18)
                   (heightSet (fillFromChunks rampChunks (initBuilder newWriter)))
                   false = false) by (vm_compute; reflexivity).
  assert (S0 : nth 0 (heightSet (fillFromChunks rampChunks (initBuilder newWriter)))
                 false = true) by (vm_compute; reflexivity).
  assert (S2 : nth 2 (heightSet (fillFromChunks rampChunks (initBuilder newWriter)))
                 false = true) by (vm_compute; reflexivity).
  assert (S514 : nth 514
                   (heightSet (fillFromChunks rampChunks (initBuilder newWriter)))
                   false = true) by (vm_compute; reflexivity).
  assert (V0 : nth 0 (heights (fillFromChunks rampChunks (initBuilder newWriter)))
                 nan = 11%float) by (vm_compute; reflexivity).
  assert (V2 : nth 2 (heights (fillFromChunks rampChunks (initBuilder newWriter)))
                 nan = 12%float) by (vm_compute; reflexivity).
  assert (V514 : nth 514
                   (heights (fillFromChunks rampChunks (initBuilder newWriter)))
                   nan = 28%float) by (vm_compute; reflexivity).
  assert (N10 : chosenNeighbors 1 0 = [0; 2]) by (vm_compute; reflexivity).
  assert (N01 : chosenNeighbors 0 1 = [0; 514]) by (vm_compute; reflexivity).
  assert (E18 : setNeighborHeights
                  (beforeCell (fillFromChunks rampChunks (initBuilder newWriter))
                     18 0) 18 0 = []) by (vm_compute; reflexivity).
  destruct (interpolation_by_x_parity newWriter rampChunks 1 0 H1 H0 Hu10)
    as (_ & _ & A10).
  destruct (interpolation_by_x_parity newWriter rampChunks 0 1 H0 H1 Hu01)
    as (_ & _ & A01).
  destruct (interpolation_by_x_parity newWriter rampChunks 18 0 H18 H0 Hu18)
    as (_ & Z18 & _).
  specialize (A10 0 2 N10 S0 S2). rewrite V0, V2 in A10.
  specialize (A01 0 514 N01 S0 S514). rewrite V0, V514 in A01.
  specialize (Z18 E18).
  split; [exact Hu10|]. split; [exact A10|].
  split; [exact Hu01|]. split; [exact A01|]. exact Z18.
Defined.

End R16WriterProofs.

(** ** tab-maps: the game object index and the tile export *)

Module TabMaps.
Import R16Writer.

(** A row of GameObjects.db2 as the code uses it; [FileDataID] is the
    property [collectGameObjects] adds to a row it indexes. *)
Record gameObject : Type := GameObject {
  DisplayID : nat;
  OwnerID : nat;
  Pos : list float;
  FileDataID : option nat
}.

(** [gameObjectsDB2] once built: owning map to the rows added to its [Set],
    in insertion order.  Every row of the table is a distinct object, so a
    [Set] of rows is a list to which each row is appended once. *)
Abbreviation objectIndex := (gmap nat (list gameObject)).

(** The body of the loop over [objTable.getAllRows().values()]
    (lines 134-147); [idTable !! d] is [idTable.getRow(d)], the row's
    [FileDataID] when the row exists and [None] for [null]. *)
Definition indexRow (idTable : gmap nat nat) (index : objectIndex)
    (row : gameObject) : objectIndex :=
  match idTable !! DisplayID row with
  | Some fid =>
      let row' := GameObject (DisplayID row) (OwnerID row) (Pos row) (Some fid) in
      match index !! OwnerID row with
      | None => <[OwnerID row := [row']]> index
      | Some map => <[OwnerID row := map ++ [row']]> index
      end
  | None => index
  end.

Definition buildIndex (objTable : list gameObject) (idTable : gmap nat nat)
    : objectIndex :=
  fold_left (indexRow idTable) objTable ∅.

(** [filter !== undefined && filter(obj)] *)
Definition passesFilter (filter : option (gameObject -> bool)) (obj : gameObject)
    : bool :=
  match filter with
  | Some f => f obj
  | None => false
  end.

(** [collectGameObjects(mapID, filter)]: the result and the new value of the
    module variable [gameObjectsDB2], whose old value is [db]. *)
Definition collectGameObjects (objTable : list gameObject)
    (idTable : gmap nat nat) (db : option objectIndex) (mapID : nat)
    (filter : option (gameObject -> bool))
    : list gameObject * option objectIndex :=
  let index :=
    match db with
    | Some index => index
    | None => buildIndex objTable idTable
    end in
  let result :=
    match index !! mapID with
    | Some mapObjects => List.filter (passesFilter filter) mapObjects
    | None => []
    end in
  (result, Some index).

(** What [adt.export] returns: [{type, path}]. *)
Record exportOut : Type := ExportOut {
  outType : string;
  outPath : string
}.

(** The outcome of [adt.export(dir, quality, gameObjects, helper,
    r16Writer)]: the descriptor it returns together with the state it
    leaves the writer in, or the message of the error it throws. *)
Inductive exportResult : Type :=
  | ExportOk (o : exportOut) (w : writer)
  | ExportThrows (message : string).

(** A call of [helper.mark(path, success, message)]. *)
Record mark : Type := Mark {
  markedPath : string;
  markedOk : bool;
  markedMessage : option string
}.

(** The object serialised into heightmap_metadata.json. *)
Record metadata : Type := Metadata {
  tile_count : nat;
  min_height : float;
  max_height : float;
  range : float
}.

(** Everything [exportSelectedMap] takes from outside: the view's
    configuration, the selected map, the constants of [constants.GAME], the
    two tables, the position of a tile ([adt.tileX], [adt.tileY]), the
    outcome of the i-th export, the answer of the n-th call of
    [helper.isCancelled()], whether file output to a path succeeds, and the
    [message] of the error that [write()] throws for a writer and of the
    error that writing the manifest throws. *)
Record environment : Type := Environment {
  mapsIncludeGameObjects : bool;
  mapsExportHeightmap : bool;
  exportPathsOpen : bool;
  selectedMapID : nat;
  selectedMapDir : string;
  dir : string;
  TILE_SIZE : float;
  MAP_OFFSET : float;
  objTable : list gameObject;
  idTable : gmap nat nat;
  tileX : nat -> float;
  tileY : nat -> float;
  adtExport : nat -> nat -> option (list gameObject) -> exportResult;
  isCancelled : nat -> bool;
  ioOk : string -> bool;
  writeError : writer -> string;
  metadataError : string
}.

(** [path.join(a, b)] for two plain segments. *)
Definition pathJoin (a b : string) : string := (a ++ "/" ++ b)%string.

(** The state of an export: the locals of [exportSelectedMap], the module
    variable [gameObjectsDB2], and what the function has done to the outside:
    the calls of [helper.isCancelled] and [helper.mark], the heightmap files
    and the manifest written, the lines sent to the export stream, and the
    clearing of the ADT cache. *)
Record job : Type := Job {
  polls : nat;
  gameObjectsDB2 : option objectIndex;
  r16Writers : list writer;
  adtExports : list (exportOut * nat);
  globalMinHeight : float;
  globalMaxHeight : float;
  marks : list mark;
  heightmapFiles : list (string * list Z);
  manifest : option metadata;
  exportPathLines : list string;
  cacheCleared : bool
}.

Definition initJob (db : option objectIndex) : job :=
  Job 0 db [] [] infinity neg_infinity [] [] None [] false.

Definition markPath (e : environment) : string :=
  pathJoin (pathJoin "maps" (selectedMapDir e)) (selectedMapDir e).

(** The predicate of lines 259-262. *)
Definition inTile (e : environment) (index : nat) (obj : gameObject) : bool :=
  let startX := (MAP_OFFSET e - tileX e index * TILE_SIZE e - TILE_SIZE e)%float in
  let startY := (MAP_OFFSET e - tileY e index * TILE_SIZE e - TILE_SIZE e)%float in
  let endX := (startX + TILE_SIZE e)%float in
  let endY := (startY + TILE_SIZE e)%float in
  let posX := nth 0 (Pos obj) nan in
  let posY := nth 1 (Pos obj) nan in
  (startX <? posX)%float && (posX <? endX)%float
  && (startY <? posY)%float && (posY <? endY)%float.

(** Lines 252-263: the game objects handed to the export of a tile. *)
Definition locateGameObjects (e : environment) (db : option objectIndex)
    (index : nat) : option (list gameObject) * option objectIndex :=
  if mapsIncludeGameObjects e then
    let '(objs, db') :=
      collectGameObjects (objTable e) (idTable e) db (selectedMapID e)
        (Some (inTile e index)) in
    (Some objs, db')
  else (None, db).

(** Lines 273-280: the writer is kept and its extrema are folded into the
    global ones. *)
Definition keepWriter (st : job) (w : writer) : job :=
  Job (polls st) (gameObjectsDB2 st) (r16Writers st ++ [w]) (adtExports st)
      (if (minHeight w <? globalMinHeight st)%float
       then minHeight w else globalMinHeight st)
      (if (globalMaxHeight st <? maxHeight w)%float
       then maxHeight w else globalMaxHeight st)
      (marks st) (heightmapFiles st) (manifest st) (exportPathLines st)
      (cacheCleared st).

Definition addMark (st : job) (m : mark) : job :=
  Job (polls st) (gameObjectsDB2 st) (r16Writers st) (adtExports st)
      (globalMinHeight st) (globalMaxHeight st) (marks st ++ [m])
      (heightmapFiles st) (manifest st) (exportPathLines st) (cacheCleared st).

Definition addExport (st : job) (o : exportOut) (i : nat) : job :=
  Job (polls st) (gameObjectsDB2 st) (r16Writers st) (adtExports st ++ [(o, i)])
      (globalMinHeight st) (globalMaxHeight st) (marks st)
      (heightmapFiles st) (manifest st) (exportPathLines st) (cacheCleared st).

Definition setDB (st : job) (db : option objectIndex) : job :=
  Job (polls st) db (r16Writers st) (adtExports st)
      (globalMinHeight st) (globalMaxHeight st) (marks st)
      (heightmapFiles st) (manifest st) (exportPathLines st) (cacheCleared st).

(** One call of [helper.isCancelled()] has been made. *)
Definition polled (st : job) : job :=
  Job (S (polls st)) (gameObjectsDB2 st) (r16Writers st) (adtExports st)
      (globalMinHeight st) (globalMaxHeight st) (marks st)
      (heightmapFiles st) (manifest st) (exportPathLines st) (cacheCleared st).

(** The body of the first loop after the cancellation check
    (lines 246-287), for the tile [index] at position [i]. *)
Definition exportTile (e : environment) (st : job) (i index : nat) : job :=
  let '(gameObjects, db) := locateGameObjects e (gameObjectsDB2 st) index in
  let st := setDB st db in
  match adtExport e i index gameObjects with
  | ExportOk o w =>
      let st := addExport st o i in
      let st := if mapsExportHeightmap e then keepWriter st w else st in
      addMark st (Mark (markPath e) true None)
  | ExportThrows message =>
      addMark st (Mark (markPath e) false (Some message))
  end.

(** The first loop (lines 239-288), from position [i] on. *)
Fixpoint pass1 (e : environment) (tiles : list nat) (i : nat) (st : job)
    : job :=
  match tiles with
  | [] => st
  | index :: rest =>
      if isCancelled e (polls st) then polled st
      else pass1 e rest (S i) (exportTile e (polled st) i index)
  end.

Definition addHeightmap (st : job) (path : string) (data : list Z) : job :=
  Job (polls st) (gameObjectsDB2 st) (r16Writers st) (adtExports st)
      (globalMinHeight st) (globalMaxHeight st) (marks st)
      (heightmapFiles st ++ [(path, data)]) (manifest st)
      (exportPathLines st) (cacheCleared st).

(** Lines 303-304. *)
Definition withGlobalRange (st : job) (w : writer) : writer :=
  Writer (out w) (heightData w) (globalMinHeight st) (globalMaxHeight st).

(** The body of the second loop after the cancellation check
    (lines 296-311); [write()] is called with its default [overwrite]. *)
Definition writeHeightmap (e : environment) (st : job) (w : writer) : job :=
  let w' := withGlobalRange st w in
  let io := match out w' with Some path => ioOk e path | None => false end in
  match write false io true w' with
  | Written path data => addHeightmap st path data
  | Skipped => st
  | Threw => addMark st (Mark (markPath e) false (Some (writeError e w')))
  end.

(** The second loop (lines 291-312) over the writers still to be written. *)
Fixpoint pass2 (e : environment) (ws : list writer) (st : job) : job :=
  match ws with
  | [] => st
  | w :: rest =>
      if isCancelled e (polls st) then polled st
      else pass2 e rest (writeHeightmap e (polled st) w)
  end.

Definition metadataPath (e : environment) : string :=
  pathJoin (dir e) "heightmap_metadata.json".

(** Lines 315-335. *)
Definition writeMetadata (e : environment) (st : job) : job :=
  if ioOk e (metadataPath e) then
    Job (polls st) (gameObjectsDB2 st) (r16Writers st) (adtExports st)
        (globalMinHeight st) (globalMaxHeight st) (marks st)
        (heightmapFiles st)
        (Some (Metadata (length (r16Writers st)) (globalMinHeight st)
                 (globalMaxHeight st)
                 (globalMaxHeight st - globalMinHeight st)%float))
        (exportPathLines st) (cacheCleared st)
  else addMark st (Mark "heightmap metadata" false (Some (metadataError e))).

(** Lines 290-336. *)
Definition finalizeHeightmaps (e : environment) (st : job) : job :=
  match r16Writers st with
  | [] => st
  | _ :: _ => writeMetadata e (pass2 e (r16Writers st) st)
  end.

Definition exportLine (o : exportOut) : string :=
  (outType o ++ ":" ++ outPath o)%string.

(** Lines 338-348. *)
Definition finish (e : environment) (st : job) : job :=
  Job (polls st) (gameObjectsDB2 st) (r16Writers st) (adtExports st)
      (globalMinHeight st) (globalMaxHeight st) (marks st)
      (heightmapFiles st) (manifest st)
      (if exportPathsOpen e
       then map (fun x => exportLine (fst x)) (adtExports st) else [])
      true.

(** [exportSelectedMap()] for the selection [exportTiles]; [None] when
    nothing is selected (the function only raises a toast). *)
Definition exportSelectedMap (e : environment) (db : option objectIndex)
    (exportTiles : list nat) : option job :=
  match exportTiles with
  | [] => None
  | _ :: _ =>
      Some (finish e (finalizeHeightmaps e (pass1 e exportTiles 0 (initJob db))))
  end.

End TabMaps.

(** ** Properties of tab-maps *)

Module TabMapsProofs.
Import R16Writer TabMaps.

(** *** collectGameObjects *)

(** Every object of the index has a display identifier that resolves, and
    is filed under its owning map. *)
Definition indexSound (idTable : gmap nat nat) (index : objectIndex) : Prop :=
  forall k objs, index !! k = Some objs ->
    Forall (fun obj => is_Some (idTable !! DisplayID obj) /\ OwnerID obj = k)
      objs.

Lemma indexRow_sound idTable index row :
  indexSound idTable index -> indexSound idTable (indexRow idTable index row).
Proof.
  intros Hs. unfold indexRow.
  destruct (idTable !! DisplayID row) as [fid|] eqn:E; [|exact Hs].
  assert (Hrow : is_Some (idTable !! DisplayID
                   (GameObject (DisplayID row) (OwnerID row) (Pos row) (Some fid)))
                 /\ OwnerID (GameObject (DisplayID row) (OwnerID row) (Pos row)
                              (Some fid)) = OwnerID row).
  { cbn [DisplayID OwnerID]. rewrite E. split; [eexists; reflexivity | reflexivity]. }
  destruct (index !! OwnerID row) as [objs0|] eqn:E0; intros k objs Hk.
  - destruct (decide (OwnerID row = k)) as [<-|Hne].
    + rewrite lookup_insert_eq in Hk. injection Hk as <-.
      apply Forall_app. split; [now apply Hs | now constructor].
    + rewrite lookup_insert_ne in Hk by exact Hne. now apply Hs.
  - destruct (decide (OwnerID row = k)) as [<-|Hne].
    + rewrite lookup_insert_eq in Hk. injection Hk as <-. now constructor.
    + rewrite lookup_insert_ne in Hk by exact Hne. now apply Hs.
Qed.

Lemma buildIndex_sound objTable idTable :
  indexSound idTable (buildIndex objTable idTable).
Proof.
  unfold buildIndex.
  assert (G : forall index, indexSound idTable index ->
                indexSound idTable (fold_left (indexRow idTable) objTable index)).
  { induction objTable as [|row rows IH]; intros index Hs; [exact Hs|].
    simpl. apply IH, indexRow_sound, Hs. }
  apply G. intros k objs Hk. rewrite lookup_empty in Hk. discriminate.
Qed.

(** C8.  Whether the index is built by this call or was built by an earlier
    one, no object of the index, under any owning map, has a display
    identifier without a GameObjectDisplayInfo row: a row whose DisplayID
    does not resolve is therefore under no key of the index, and every
    object [collectGameObjects] returns for any map and predicate has a
    resolved display identifier (and belongs to the queried map). *)
Theorem collectGameObjects_resolved (objTable : list gameObject)
    (idTable : gmap nat nat) (db : option objectIndex) (mapID : nat)
    (filter : option (gameObject -> bool)) :
  db = None \/ db = Some (buildIndex objTable idTable) ->
  let r := collectGameObjects objTable idTable db mapID filter in
  snd r = Some (buildIndex objTable idTable) /\
  (forall obj, In obj (fst r) ->
     is_Some (idTable !! DisplayID obj) /\ OwnerID obj = mapID) /\
  (forall row k objs obj,
     In row objTable -> idTable !! DisplayID row = None ->
     buildIndex objTable idTable !! k = Some objs -> In obj objs ->
     DisplayID obj <> DisplayID row).
Proof.
  intros Hdb r.
  assert (Er : r = collectGameObjects objTable idTable
                     (Some (buildIndex objTable idTable)) mapID filter).
  { subst r. now destruct Hdb as [->| ->]. }
  rewrite Er. clear Er r. cbn [collectGameObjects fst snd].
  pose proof (buildIndex_sound objTable idTable) as Hs.
  split; [reflexivity|]. split.
  - intros obj Hin.
    destruct (buildIndex objTable idTable !! mapID) as [objs|] eqn:E;
      [|destruct Hin].
    apply filter_In in Hin as [Hin _].
    pose proof (Hs mapID objs E) as Hall. rewrite Forall_forall in Hall.
    now apply Hall, list_elem_of_In.
  - intros row k objs obj _ Hnone Hk Hin Heq.
    pose proof (Hs k objs Hk) as Hall. rewrite Forall_forall in Hall.
    destruct (Hall obj) as [[fid Hfid] _]; [now apply list_elem_of_In|].
    rewrite Heq in Hfid. congruence.
Qed.

(** Two rows of map 1: the display identifier of the first one resolves,
    that of the second one does not. *)
Definition sampleObjects : list gameObject :=
  [GameObject 10 1 [5; 5; 0]%float None; GameObject 11 1 [5; 5; 0]%float None].

Definition sampleDisplayInfo : gmap nat nat := {[ 10 := 777 ]}.

Lemma collectGameObjects_resolved_witness :
  fst (collectGameObjects sampleObjects sampleDisplayInfo None 1
         (Some (fun _ => true)))
  = [GameObject 10 1 [5; 5; 0]%float (Some 777)] /\
  forall obj,
    In obj (fst (collectGameObjects sampleObjects sampleDisplayInfo None 1
                   (Some (fun _ => true)))) ->
    is_Some (sampleDisplayInfo !! DisplayID obj) /\ OwnerID obj = 1.
Proof.
  split; [vm_compute; reflexivity|].
  exact (proj1 (proj2 (collectGameObjects_resolved sampleObjects
                         sampleDisplayInfo None 1 (Some (fun _ => true))
                         (or_introl eq_refl)))).
Defined.

(** C9.  Without a predicate nothing is returned, whatever the index holds
    for the map. *)
Theorem collectGameObjects_without_filter (objTable : list gameObject)
    (idTable : gmap nat nat) (db : option objectIndex) (mapID : nat) :
  fst (collectGameObjects objTable idTable db mapID None) = [].
Proof.
  unfold collectGameObjects. cbn [fst].
  destruct (_ !! mapID) as [objs|]; [|reflexivity].
  induction objs as [|obj objs IH]; [reflexivity | exact IH].
Qed.

(** The index of the sample tables holds an object for map 1, and the call
    without a predicate still returns nothing. *)
Example collectGameObjects_without_filter_example :
  buildIndex sampleObjects sampleDisplayInfo !! 1
  = Some [GameObject 10 1 [5; 5; 0]%float (Some 777)] /\
  fst (collectGameObjects sampleObjects sampleDisplayInfo None 1 None) = [].
Proof. split; vm_compute; reflexivity. Qed.

(** *** exportSelectedMap *)

Definition builtIndex (e : environment) : objectIndex :=
  buildIndex (objTable e) (idTable e).

(** The values [gameObjectsDB2] can have. *)
Definition dbOk (e : environment) (db : option objectIndex) : Prop :=
  db = None \/ db = Some (builtIndex e).

(** The specification's words for step 2 of pass 1: the objects of the
    selected map that lie strictly inside the tile, if game objects are
    included at all. *)
Definition objectsFor (e : environment) (index : nat)
    : option (list gameObject) :=
  if mapsIncludeGameObjects e
  then Some (List.filter (inTile e index)
               (default [] (builtIndex e !! selectedMapID e)))
  else None.

(** The outcome of the export of the tile at position [i]. *)
Definition resultAt (e : environment) (i index : nat) : exportResult :=
  adtExport e i index (objectsFor e index).

(** The specification's words for the outcome of pass 1: the tiles whose
    export succeeded, in list order, each with its descriptor, position and
    writer ... *)
Fixpoint successes (e : environment) (tiles : list nat) (i : nat)
    : list (exportOut * nat * writer) :=
  match tiles with
  | [] => []
  | index :: rest =>
      match resultAt e i index with
      | ExportOk o w => (o, i, w) :: successes e rest (S i)
      | ExportThrows _ => successes e rest (S i)
      end
  end.

(** ... and one mark per tile, failed with the error's message where the
    export threw. *)
Fixpoint tileMarks (e : environment) (tiles : list nat) (i : nat)
    : list mark :=
  match tiles with
  | [] => []
  | index :: rest =>
      match resultAt e i index with
      | ExportOk _ _ => Mark (markPath e) true None
      | ExportThrows message => Mark (markPath e) false (Some message)
      end :: tileMarks e rest (S i)
  end.

(** The global extrema: the fold of lines 278-279 over a list of writers. *)
Definition foldRange (ws : list writer) (r : float * float) : float * float :=
  fold_left (fun r w =>
               (if (minHeight w <? fst r)%float then minHeight w else fst r,
                if (snd r <? maxHeight w)%float then maxHeight w else snd r))
    ws r.

(** The file pass 2 writes for a writer under the range [mn .. mx], if the
    write succeeds. *)
Definition writtenFile (e : environment) (mn mx : float) (w : writer)
    : option (string * list Z) :=
  match out w with
  | Some path =>
      if ioOk e path then
        match r16Buffer (Writer (out w) (heightData w) mn mx) with
        | Some data => Some (path, data)
        | None => None
        end
      else None
  | None => None
  end.

Definition keptWriters (e : environment) (tiles : list nat) (i : nat)
    : list writer :=
  if mapsExportHeightmap e then map snd (successes e tiles i) else [].

Lemma locateGameObjects_spec e db index :
  dbOk e db ->
  exists db', locateGameObjects e db index = (objectsFor e index, db')
              /\ dbOk e db'.
Proof.
  intros Hdb. unfold locateGameObjects, objectsFor.
  destruct (mapsIncludeGameObjects e); [|now exists db].
  exists (Some (builtIndex e)). split; [|now right].
  assert (E : collectGameObjects (objTable e) (idTable e) db (selectedMapID e)
                (Some (inTile e index))
              = (List.filter (inTile e index)
                   (default [] (builtIndex e !! selectedMapID e)),
                 Some (builtIndex e))).
  { unfold collectGameObjects. fold (builtIndex e).
    destruct Hdb as [->| ->];
      destruct (builtIndex e !! selectedMapID e); reflexivity. }
  now rewrite E.
Qed.

(** The first pass never touches the files. *)
Lemma pass1_files e tiles i st :
  heightmapFiles (pass1 e tiles i st) = heightmapFiles st /\
  manifest (pass1 e tiles i st) = manifest st.
Proof.
  revert i st. induction tiles as [|index tiles IH]; intros i st; [now split|].
  cbn [pass1]. destruct (isCancelled e (polls st)); [now split|].
  destruct (IH (S i) (exportTile e (polled st) i index)) as [-> ->].
  unfold exportTile.
  destruct (locateGameObjects e (gameObjectsDB2 (polled st)) index) as [g db'].
  destruct (adtExport e i index g); [|now split].
  destruct (mapsExportHeightmap e); now split.
Qed.

(** The first pass without cancellation visits every tile. *)
Lemma pass1_spec e tiles i st :
  (forall n, isCancelled e n = false) -> dbOk e (gameObjectsDB2 st) ->
  let st' := pass1 e tiles i st in
  adtExports st' = adtExports st ++ map fst (successes e tiles i) /\
  marks st' = marks st ++ tileMarks e tiles i /\
  r16Writers st' = r16Writers st ++ keptWriters e tiles i /\
  (globalMinHeight st', globalMaxHeight st')
  = foldRange (keptWriters e tiles i) (globalMinHeight st, globalMaxHeight st).
Proof.
  intros Hc. revert i st. unfold keptWriters.
  induction tiles as [|index tiles IH]; intros i st Hdb; cbn [pass1].
  { cbn [successes tileMarks map]. rewrite !app_nil_r.
    destruct (mapsExportHeightmap e); now rewrite ?app_nil_r. }
  rewrite Hc. cbn [successes tileMarks].
  destruct (locateGameObjects_spec e (gameObjectsDB2 st) index Hdb)
    as (db' & Hloc & Hdb').
  assert (Estep : exportTile e (polled st) i index
    = match resultAt e i index with
      | ExportOk o w =>
          let st1 := addExport (setDB (polled st) db') o i in
          addMark (if mapsExportHeightmap e then keepWriter st1 w else st1)
            (Mark (markPath e) true None)
      | ExportThrows message =>
          addMark (setDB (polled st) db') (Mark (markPath e) false (Some message))
      end).
  { unfold exportTile. cbn [polled gameObjectsDB2]. rewrite Hloc. reflexivity. }
  rewrite Estep. clear Estep.
  destruct (resultAt e i index) as [o w|message].
  - cbv zeta.
    destruct (mapsExportHeightmap e) eqn:Eh.
    + destruct (IH (S i) (addMark (keepWriter (addExport (setDB (polled st) db') o i) w)
                            (Mark (markPath e) true None)))
        as (H1 & H2 & H3 & H4); [exact Hdb'|].
      rewrite H1, H2, H3, H4. cbn. rewrite <- !app_assoc. now repeat split.
    + destruct (IH (S i) (addMark (addExport (setDB (polled st) db') o i)
                            (Mark (markPath e) true None)))
        as (H1 & H2 & H3 & H4); [exact Hdb'|].
      rewrite H1, H2, H3, H4. cbn. rewrite <- !app_assoc. now repeat split.
  - destruct (IH (S i) (addMark (setDB (polled st) db')
                          (Mark (markPath e) false (Some message))))
      as (H1 & H2 & H3 & H4); [exact Hdb'|].
    rewrite H1, H2, H3, H4. cbn. rewrite <- !app_assoc. now repeat split.
Qed.

Lemma writeHeightmap_cases e st w :
  (exists path data,
     writtenFile e (globalMinHeight st) (globalMaxHeight st) w
     = Some (path, data)
     /\ writeHeightmap e st w = addHeightmap st path data) \/
  (writtenFile e (globalMinHeight st) (globalMaxHeight st) w = None
   /\ writeHeightmap e st w
      = addMark st (Mark (markPath e) false
                      (Some (writeError e (withGlobalRange st w))))).
Proof.
  unfold writeHeightmap, withGlobalRange, write, writtenFile.
  cbn [out heightData negb andb].
  destruct (out w) as [path|]; [|now right].
  destruct (ioOk e path); [|now right].
  destruct (r16Buffer _) as [data|]; [left; now exists path, data | now right].
Qed.

(** The second pass without cancellation writes every writer under the
    global range, and records the writes that fail. *)
Lemma pass2_spec e ws st :
  (forall n, isCancelled e n = false) ->
  let st' := pass2 e ws st in
  heightmapFiles st'
  = heightmapFiles st
    ++ omap (writtenFile e (globalMinHeight st) (globalMaxHeight st)) ws /\
  (exists failed, marks st' = marks st ++ failed
                  /\ Forall (fun m => markedOk m = false) failed) /\
  r16Writers st' = r16Writers st /\ adtExports st' = adtExports st /\
  globalMinHeight st' = globalMinHeight st /\
  globalMaxHeight st' = globalMaxHeight st /\ manifest st' = manifest st.
Proof.
  intros Hc. revert st. induction ws as [|w ws IH]; intros st; cbn [pass2].
  { cbn [omap list_omap]. rewrite app_nil_r. repeat split; try reflexivity.
    exists []. now rewrite app_nil_r. }
  rewrite Hc.
  destruct (IH (writeHeightmap e (polled st) w))
    as (H1 & (failed & H2 & Hf) & H3 & H4 & H5 & H6 & H7).
  cbv zeta. rewrite H1, H2, H3, H4, H5, H6, H7. clear IH H1 H2 H3 H4 H5 H6 H7.
  change (omap ?f (w :: ws))
    with (match f w with Some y => y :: omap f ws | None => omap f ws end).
  destruct (writeHeightmap_cases e (polled st) w)
    as [(path & data & Ew & ->)|[Ew ->]];
    cbn [polled globalMinHeight globalMaxHeight] in Ew;
    cbn [addHeightmap addMark polled heightmapFiles marks r16Writers adtExports
         globalMinHeight globalMaxHeight manifest];
    rewrite Ew.
  - rewrite <- app_assoc. repeat split; try reflexivity.
    exists failed. split; [reflexivity | exact Hf].
  - repeat split; try reflexivity.
    exists (Mark (markPath e) false
              (Some (writeError e (withGlobalRange (polled st) w))) :: failed).
    rewrite <- app_assoc. split; [reflexivity | now constructor].
Qed.

(** *** The claims about the export *)

(** One selected tile whose export succeeds and leaves a heightmap writer;
    the export is cancelled after the first pass: the first call of
    [helper.isCancelled()] answers false, every later one true. *)
Definition cancelEnv : environment :=
  Environment false true true 0 "azeroth" "export" 0 0 [] ∅
    (fun _ => 0%float) (fun _ => 0%float)
    (fun _ _ _ => ExportOk (ExportOut "ADT" "adt_32_32.obj")
                    (Writer (Some "adt_32_32.r16"%string) [] 0 1))
    (fun n => 1 <=? n) (fun _ => true) (fun _ => "write failed"%string)
    "write failed".

(** C1.  The code breaks the claim.  The second loop is left by the [break]
    under the comment 'Abort if the export has been cancelled', but the
    manifest is written after that loop, inside [if (r16Writers.length > 0)]
    only, so a cancelled export still writes it.  For [cancelEnv] the first
    pass keeps one writer and the export is cancelled before the second pass
    begins: no heightmap file is written, and yet heightmap_metadata.json is
    written and announces one tile, with the range 0 .. 1. *)
Lemma manifest_emitted_after_cancel :
  let st1 := pass1 cancelEnv [2080] 0 (initJob None) in
  r16Writers st1 <> [] /\ isCancelled cancelEnv (polls st1) = true /\
  (exists final,
     exportSelectedMap cancelEnv None [2080] = Some final /\
     heightmapFiles final = [] /\
     manifest final = Some (Metadata 1 0 1 1)) /\
  ~ (forall final, exportSelectedMap cancelEnv None [2080] = Some final ->
       heightmapFiles final = [] /\ manifest final = None).
Proof.
  cbv zeta. split; [vm_compute; discriminate|].
  split; [vm_compute; reflexivity|]. split.
  - eexists. split; [reflexivity|]. split; vm_compute; reflexivity.
  - intros H. destruct (H _ eq_refl) as [_ Hm]. vm_compute in Hm. discriminate.
Qed.

(** That defect does not depend on the input: whenever the first pass
    kept at least one heightmap writer and cancellation is asserted
    when the second pass begins, no heightmap file is written, and the
    manifest is written all the same (if that file can be written), counting
    heightmaps that do not exist. *)
Lemma cancel_before_pass2 (e : environment) (db : option objectIndex)
    (tiles : list nat) :
  let st1 := pass1 e tiles 0 (initJob db) in
  r16Writers st1 <> [] -> isCancelled e (polls st1) = true ->
  exists final,
    exportSelectedMap e db tiles = Some final /\
    heightmapFiles final = [] /\
    manifest final
    = if ioOk e (metadataPath e)
      then Some (Metadata (length (r16Writers st1)) (globalMinHeight st1)
                   (globalMaxHeight st1)
                   (globalMaxHeight st1 - globalMinHeight st1)%float)
      else None.
Proof.
  intros st1 Hws Hc.
  destruct tiles as [|t tiles]; [now destruct Hws|].
  exists (finish e (finalizeHeightmaps e st1)). split; [reflexivity|].
  destruct (pass1_files e (t :: tiles) 0 (initJob db)) as [Hf Hm].
  fold st1 in Hf, Hm. cbn [initJob heightmapFiles manifest] in Hf, Hm.
  unfold finalizeHeightmaps.
  destruct (r16Writers st1) as [|w ws] eqn:Ew; [now destruct Hws|].
  cbn [pass2]. rewrite Hc. unfold writeMetadata.
  cbn [polled r16Writers globalMinHeight globalMaxHeight heightmapFiles].
  rewrite Ew.
  destruct (ioOk e (metadataPath e)); cbn; now rewrite ?Hf, ?Hm.
Qed.

(** C2.  Without cancellation the first pass visits every tile: it leaves
    one mark per tile, failed with the error's message where the export
    threw, and keeps the descriptor and the writer of exactly the tiles
    whose export succeeded, in order; the global range is folded over
    exactly these writers; the second pass writes each of them under that
    range; the manifest counts them; and the export-path log has one line
    per successful tile.  For three tiles of which the second fails, the
    log and the manifest cover the first and the third tile only, and both
    heightmaps are written with the range folded from these two. *)
Theorem tile_failure_never_aborts (e : environment) (db : option objectIndex)
    (tiles : list nat) :
  (forall n, isCancelled e n = false) -> dbOk e db -> tiles <> [] ->
  let ok := successes e tiles 0 in
  let ws := keptWriters e tiles 0 in
  let gmin := fst (foldRange ws (infinity, neg_infinity)) in
  let gmax := snd (foldRange ws (infinity, neg_infinity)) in
  exists final,
    exportSelectedMap e db tiles = Some final /\
    (exists later, marks final = tileMarks e tiles 0 ++ later
                   /\ Forall (fun m => markedOk m = false) later) /\
    adtExports final = map fst ok /\
    exportPathLines final
    = (if exportPathsOpen e
       then map (fun s => exportLine (fst (fst s))) ok else []) /\
    r16Writers final = ws /\
    globalMinHeight final = gmin /\ globalMaxHeight final = gmax /\
    heightmapFiles final = omap (writtenFile e gmin gmax) ws /\
    manifest final
    = match ws with
      | [] => None
      | _ :: _ =>
          if ioOk e (metadataPath e)
          then Some (Metadata (length ws) gmin gmax (gmax - gmin)%float)
          else None
      end /\
    forall t1 t2 t3 o1 w1 message o3 w3,
      tiles = [t1; t2; t3] ->
      resultAt e 0 t1 = ExportOk o1 w1 ->
      resultAt e 1 t2 = ExportThrows message ->
      resultAt e 2 t3 = ExportOk o3 w3 ->
      mapsExportHeightmap e = true ->
      tileMarks e tiles 0
      = [Mark (markPath e) true None; Mark (markPath e) false (Some message);
         Mark (markPath e) true None] /\
      adtExports final = [(o1, 0); (o3, 2)] /\
      exportPathLines final
      = (if exportPathsOpen e then [exportLine o1; exportLine o3] else []) /\
      r16Writers final = [w1; w3] /\
      (globalMinHeight final, globalMaxHeight final)
      = foldRange [w1; w3] (infinity, neg_infinity) /\
      heightmapFiles final
      = omap (writtenFile e (globalMinHeight final) (globalMaxHeight final))
          [w1; w3] /\
      manifest final
      = if ioOk e (metadataPath e)
        then Some (Metadata 2 (globalMinHeight final) (globalMaxHeight final)
                     (globalMaxHeight final - globalMinHeight final)%float)
        else None.
Proof.
  intros Hc Hdb Hne. cbv zeta.
  assert (Erun : exportSelectedMap e db tiles
                 = Some (finish e (finalizeHeightmaps e
                                     (pass1 e tiles 0 (initJob db)))))
    by (destruct tiles; [now destruct Hne | reflexivity]).
  destruct (pass1_spec e tiles 0 (initJob db) Hc Hdb) as (A1 & M1 & W1 & R1).
  destruct (pass1_files e tiles 0 (initJob db)) as [F1 N1].
  cbn [initJob adtExports marks r16Writers globalMinHeight globalMaxHeight
       heightmapFiles manifest app] in A1, M1, W1, R1, F1, N1.
  set (st1 := pass1 e tiles 0 (initJob db)) in *.
  set (ok := successes e tiles 0) in *.
  set (ws := keptWriters e tiles 0) in *.
  destruct (foldRange ws (infinity, neg_infinity)) as [gmin gmax] eqn:ER.
  cbn [fst snd]. injection R1 as Gmin Gmax.
  set (st2 := finalizeHeightmaps e st1) in *.
  assert (H2 :
    (exists later, marks st2 = tileMarks e tiles 0 ++ later
                   /\ Forall (fun m => markedOk m = false) later) /\
    adtExports st2 = map fst ok /\ r16Writers st2 = ws /\
    globalMinHeight st2 = gmin /\ globalMaxHeight st2 = gmax /\
    heightmapFiles st2 = omap (writtenFile e gmin gmax) ws /\
    manifest st2
    = match ws with
      | [] => None
      | _ :: _ =>
          if ioOk e (metadataPath e)
          then Some (Metadata (length ws) gmin gmax (gmax - gmin)%float)
          else None
      end).
  { unfold st2, finalizeHeightmaps. rewrite W1.
    destruct ws as [|w0 ws0] eqn:Ews.
    - repeat split; try assumption; try congruence.
      exists []. rewrite app_nil_r. split; [exact M1 | constructor].
    - rewrite <- Ews in *.
      destruct (pass2_spec e ws st1 Hc)
        as (P1 & (failed & P2 & Pf) & P3 & P4 & P5 & P6 & P7).
      rewrite F1, Gmin, Gmax in P1. cbn [app] in P1.
      unfold writeMetadata. rewrite P3, P5, P6, W1, Gmin, Gmax.
      destruct (ioOk e (metadataPath e));
        cbn [addMark marks adtExports r16Writers globalMinHeight
             globalMaxHeight heightmapFiles manifest].
      + repeat split; try congruence.
        exists failed. split; [congruence | exact Pf].
      + repeat split; try congruence.
        exists (failed ++ [Mark "heightmap metadata" false
                             (Some (metadataError e))]).
        rewrite P2, M1, <- app_assoc. split; [reflexivity|].
        apply Forall_app. split; [exact Pf | now repeat constructor]. }
  destruct H2 as (HM & HA & HW & Hmin & Hmax & HF & HN).
  exists (finish e st2). split; [exact Erun|].
  cbn [finish marks adtExports exportPathLines r16Writers globalMinHeight
       globalMaxHeight heightmapFiles manifest].
  split; [exact HM|]. split; [exact HA|]. split.
  { rewrite HA, map_map. reflexivity. }
  split; [exact HW|]. split; [exact Hmin|]. split; [exact Hmax|].
  split; [exact HF|]. split; [exact HN|].
  intros t1 t2 t3 o1 w1 message o3 w3 E3 R1' R2' R3' Hh.
  assert (Eok : ok = [(o1, 0, w1); (o3, 2, w3)]).
  { unfold ok. rewrite E3. cbn [successes]. now rewrite R1', R2', R3'. }
  assert (Ews : ws = [w1; w3]).
  { unfold ws, keptWriters. rewrite Hh, E3. cbn [successes].
    now rewrite R1', R2', R3'. }
  split. { rewrite E3. cbn [tileMarks]. now rewrite R1', R2', R3'. }
  split. { now rewrite HA, Eok. }
  split. { rewrite HA, map_map, Eok. reflexivity. }
  split. { now rewrite HW. }
  split. { rewrite Hmin, Hmax. symmetry. rewrite <- Ews. exact ER. }
  split. { rewrite HF, Hmin, Hmax, Ews. reflexivity. }
  rewrite HN, Hmin, Hmax, Ews. reflexivity.
Qed.

(** Three selected tiles; the export of the second one throws. *)
Definition threeTilesEnv : environment :=
  Environment false true true 0 "azeroth" "export" 0 0 [] ∅
    (fun _ => 0%float) (fun _ => 0%float)
    (fun i _ _ =>
       match i with
       | 0 => ExportOk (ExportOut "ADT" "adt_32_32.obj")
                (Writer (Some "adt_32_32.r16"%string) [1]%float 1 2)
       | 1 => ExportThrows "missing tile data"
       | _ => ExportOk (ExportOut "ADT" "adt_32_34.obj")
                (Writer (Some "adt_32_34.r16"%string) [5]%float 3 5)
       end)
    (fun _ => false) (fun _ => true) (fun _ => "write failed"%string)
    "write failed".

Lemma tile_failure_never_aborts_witness :
  exists final,
    exportSelectedMap threeTilesEnv None [2080; 2081; 2082] = Some final /\
    exportPathLines final = ["ADT:adt_32_32.obj"; "ADT:adt_32_34.obj"]%string /\
    manifest final = Some (Metadata 2 1 5 4) /\
    heightmapFiles final
    = [("adt_32_32.r16"%string, [0; 0]%Z); ("adt_32_34.r16"%string, [255; 255]%Z)].
Proof.
  destruct (tile_failure_never_aborts threeTilesEnv None [2080; 2081; 2082])
    as (final & E & _ & _ & _ & _ & _ & _ & _ & _ & H3).
  - reflexivity.
  - now left.
  - discriminate.
  - specialize (H3 _ _ _ _ _ _ _ _ eq_refl eq_refl eq_refl eq_refl eq_refl).
    destruct H3 as (_ & _ & HL & _ & HR & HF & HN).
    exists final. split; [exact E|].
    injection HR as Hmin Hmax.
    split; [exact HL|]. split.
    + rewrite HN, Hmin, Hmax. vm_compute. reflexivity.
    + rewrite HF, Hmin, Hmax. vm_compute. reflexivity.
Defined.

End TabMapsProofs.

(** ** More on JavaScript numbers *)

Module JSNumberMore.
Import JSNumber.

(** *** NaN through the arithmetic *)

Lemma sub_nan_l x : (nan - x)%float = nan.
Proof.
  apply Prim2SF_inj. rewrite sub_spec.
  change (Prim2SF nan) with S754_nan. reflexivity.
Qed.

Lemma sub_nan_r x : (x - nan)%float = nan.
Proof.
  apply Prim2SF_inj. rewrite sub_spec.
  change (Prim2SF nan) with S754_nan.
  destruct (Prim2SF x) as [[]|[]| |s m e]; reflexivity.
Qed.

Lemma mul_nan_l x : (nan * x)%float = nan.
Proof.
  apply Prim2SF_inj. rewrite mul_spec.
  change (Prim2SF nan) with S754_nan. reflexivity.
Qed.

Lemma mul_nan_r x : (x * nan)%float = nan.
Proof.
  apply Prim2SF_inj. rewrite mul_spec.
  change (Prim2SF nan) with S754_nan.
  destruct (Prim2SF x) as [[]|[]| |s m e]; reflexivity.
Qed.

Lemma add_nan_l x : (nan + x)%float = nan.
Proof.
  apply Prim2SF_inj. rewrite add_spec.
  change (Prim2SF nan) with S754_nan. reflexivity.
Qed.

Lemma ltb_nan_l x : (nan <? x)%float = false.
Proof.
  rewrite ltb_spec. change (Prim2SF nan) with S754_nan. reflexivity.
Qed.

Lemma ltb_nan_r x : (x <? nan)%float = false.
Proof.
  rewrite ltb_spec. change (Prim2SF nan) with S754_nan.
  now destruct (Prim2SF x).
Qed.

(** *** Equal numbers *)

Lemma SFcompare_Eq_sym x y :
  SFcompare x y = Some Eq -> SFcompare y x = Some Eq.
Proof.
  destruct x as [bx|bx| |bx mx ex], y as [b_y|b_y| |b_y my ey];
    unfold SFcompare;
    repeat match goal with b : bool |- _ => destruct b end;
    try congruence; intros H; sf_cases; cbn [CompOpp] in *;
    try congruence; try lia.
Qed.

(** Two numbers that are equal ([===]) are not below one another. *)
Lemma eqb_not_ltb x y :
  (x =? y)%float = true ->
  (x <? y)%float = false /\ (y <? x)%float = false.
Proof.
  rewrite FloatAxioms.eqb_spec, !ltb_spec. unfold SFeqb, SFltb.
  destruct (SFcompare (Prim2SF x) (Prim2SF y)) as [[]|] eqn:E;
    try discriminate. intros _.
  now rewrite (SFcompare_Eq_sym _ _ E).
Qed.

(** *** Differences, finite and positive numbers *)

(** [x - x] is a zero, or NaN when [x] is not finite. *)
Lemma SFsub_diag s :
  SF64sub s s = S754_nan \/ exists z, SF64sub s s = S754_zero z.
Proof.
  destruct s as [[]|[]| |sg m e]; unfold SF64sub, SFsub;
    try (now left); try (right; eexists; reflexivity).
  cbv zeta. rewrite Z.sub_diag. right. eexists. reflexivity.
Qed.

Lemma Math_round_spec x :
  Math_round x
  = match Prim2SF x with
    | S754_nan => INaN
    | S754_infinity s => IInf s
    | S754_zero _ => IInt 0
    | S754_finite s m e =>
        let sm := if s then Z.neg m else Z.pos m in
        if (0 <=? e)%Z then IInt (sm * 2 ^ e)
        else IInt ((2 * sm + 2 ^ (- e)) / 2 ^ (- e + 1))
    end.
Proof. reflexivity. Qed.

Lemma finite_Prim2SF x :
  finite x = true ->
  (exists z, Prim2SF x = S754_zero z) \/
  (exists s m e, Prim2SF x = S754_finite s m e).
Proof.
  intros H. destruct (finite_spec x H) as (_ & H1 & H2).
  rewrite ltb_spec in H1, H2.
  change (Prim2SF neg_infinity) with (S754_infinity true) in H1.
  change (Prim2SF infinity) with (S754_infinity false) in H2.
  destruct (Prim2SF x) as [z|[]| |s m e]; try discriminate; eauto.
Qed.

Lemma positive_Prim2SF x :
  (0 <? x)%float = true ->
  Prim2SF x = S754_infinity false \/ exists m e, Prim2SF x = S754_finite false m e.
Proof.
  rewrite ltb_spec. change (Prim2SF 0) with (S754_zero false).
  destruct (Prim2SF x) as [z|[]| |[] m e]; try discriminate; eauto.
Qed.

End JSNumberMore.

(** ** More properties of FaceCuller *)

Module FaceCullerMore.
Import FaceCuller FaceCullerProofs JSNumberMore.

(** A triangle whose last index is [undefined] has a NaN normal: it is not
    degenerate, and it is opposite to nothing. *)
Lemma rawNormal_undefined v a b :
  rawNormal v a b None = (nan, nan, nan).
Proof.
  unfold rawNormal.
  change (vertexAt v None) with (nan, nan, nan).
  destruct (vertexAt v a) as [[v0x v0y] v0z].
  destruct (vertexAt v b) as [[v1x v1y] v1z].
  rewrite !sub_nan_l, !mul_nan_r, !sub_nan_l. reflexivity.
Qed.

Lemma degenerate_nan : degenerate (nan, nan, nan) = false.
Proof. vm_compute. reflexivity. Qed.

Lemma unitNormal_nan : unitNormal (nan, nan, nan) = (nan, nan, nan).
Proof. vm_compute. reflexivity. Qed.

Lemma opposite_nan_l n : opposite (nan, nan, nan) n = false.
Proof.
  destruct n as [[x y] z]. unfold opposite, dotProduct.
  rewrite !mul_nan_l, !add_nan_l. apply ltb_nan_l.
Qed.

(** *** The last group of a ragged index array *)

Lemma groups_ragged l :
  length l mod 3 <> 0 ->
  exists gs a b, groups l = gs ++ [(Some a, b, None)].
Proof.
  induction l as [|a|a b|a b c l IH] using list_ind3; intros H.
  - now destruct H.
  - now exists [], a, None.
  - now exists [], a, (Some b).
  - change (length (a :: b :: c :: l)) with (3 + length l) in H.
    rewrite mod3_step in H.
    destruct (IH H) as (gs & a' & b' & E).
    exists ((Some a, Some b, Some c) :: gs), a', b'.
    change (groups (a :: b :: c :: l))
      with ((Some a, Some b, Some c) :: groups l).
    now rewrite E.
Qed.

Lemma tsSet_In t ms : In t (tsSet t ms).
Proof.
  induction ms as [|t' ms IH]; simpl; [now left|].
  destruct (String.eqb _ _); [now left | now right].
Qed.

(** A group that ends in [undefined] is always kept. *)
Lemma stepA_undefined v s a b :
  In (a, b, None) (pool (stepA v s (a, b, None))).
Proof.
  destruct s as [cs ms]. unfold stepA, pool.
  destruct (tripleMalformed v _).
  { cbn [fst snd]. apply in_or_app. left. apply in_or_app. right. now left. }
  unfold tripleDegenerate, tripleNormal, tripleRaw.
  rewrite rawNormal_undefined, degenerate_nan, unitNormal_nan.
  destruct (tsGet _ ms).
  - rewrite opposite_nan_l. cbn [fst snd].
    apply in_or_app. left. apply in_or_app. right. now left.
  - cbn [fst snd]. apply in_or_app. right. apply tsSet_In.
Qed.

Lemma In_flatten3_third {A : Type} (a b c : A) ts :
  In (a, b, c) ts -> In c (flatten3 ts).
Proof.
  intros H. unfold flatten3. apply in_flat_map. exists (a, b, c).
  split; [exact H|]. right. right. now left.
Qed.

(** X1.  For an index array whose length is not a multiple of three, the
    last, incomplete group is completed with [undefined] and is always
    emitted: the output of [cullBackFaces] has a length that is a multiple
    of three and holds a triple whose last element is [undefined]. *)
Theorem ragged_tail_emitted (tis : list nat) (v : list float) :
  length tis mod 3 <> 0 ->
  let out := cullBackFaces (Some tis) (Some v) in
  length out mod 3 = 0 /\ In None out /\
  exists a b, last (groups tis) = Some (Some a, b, None) /\
              In (Some a, b, None) (triples out).
Proof.
  intros H out. subst out. cbn [cullBackFaces].
  rewrite cullArrays_groups. cbv zeta.
  destruct (groups_ragged tis H) as (gs & a & b & E). rewrite E.
  rewrite fold_left_app. cbn [fold_left].
  set (s := fold_left (stepA v) gs ([], [])).
  pose proof (stepA_undefined v s (Some a) b) as Hin. unfold pool in Hin.
  rewrite triples_flatten3, length_flatten3.
  split; [rewrite Nat.mul_comm; apply Nat.Div0.mod_mul|].
  split; [eapply In_flatten3_third; exact Hin|].
  exists a, b. split; [apply last_snoc | exact Hin].
Qed.

Lemma ragged_tail_emitted_witness :
  In None (cullBackFaces (Some [0; 1; 2; 0; 2]) (Some squareVertices)).
Proof.
  apply (ragged_tail_emitted [0; 1; 2; 0; 2] squareVertices). discriminate.
Defined.

(** *** A degenerate triangle *)

(** X2.  A triple that is well formed and whose raw normal is shorter than
    1e-6 (a zero-area triangle) is dropped without a trace: the output is
    the output for the input without that triple. *)
Theorem degenerate_triangle_dropped (v : list float) (pre post : list nat)
    (a b c : nat) :
  length pre mod 3 = 0 ->
  malformed v (Some a) (Some b) (Some c) = false ->
  degenerate (rawNormal v (Some a) (Some b) (Some c)) = true ->
  cullBackFaces (Some (pre ++ a :: b :: c :: post)) (Some v)
  = cullBackFaces (Some (pre ++ post)) (Some v).
Proof.
  intros Hpre Hok Hdeg. cbn [cullBackFaces].
  rewrite !cullArrays_groups. cbv zeta.
  rewrite !(groups_app pre) by exact Hpre.
  change (groups (a :: b :: c :: post))
    with ((Some a, Some b, Some c) :: groups post).
  rewrite !fold_left_app. cbn [fold_left].
  destruct (fold_left (stepA v) (groups pre) ([], [])) as [cs ms].
  assert (Hs : stepA v (cs, ms) (Some a, Some b, Some c) = (cs, ms)).
  { unfold stepA, tripleMalformed, tripleDegenerate, tripleRaw.
    now rewrite Hok, Hdeg. }
  now rewrite Hs.
Qed.

Lemma degenerate_triangle_dropped_witness :
  cullBackFaces (Some ([0; 1; 2] ++ 0 :: 1 :: 1 :: [1; 2; 3]))
    (Some squareVertices)
  = cullBackFaces (Some ([0; 1; 2] ++ [1; 2; 3])) (Some squareVertices).
Proof.
  apply (degenerate_triangle_dropped squareVertices [0; 1; 2] [1; 2; 3] 0 1 1);
    reflexivity.
Defined.

(** *** Two triangles of one key that are not opposite *)

(** X3.  When exactly two triangles of the input share a key, neither is
    malformed or degenerate, and the dot product of their unit normals is
    not below -0.8, both are emitted: the later one is pushed when the loop
    meets it, the earlier one follows from the map, so the later one comes
    first in the output. *)
Theorem same_key_pair_both_kept (v : list float)
    (pre mid post : list (nat * nat * nat)) (tp tq : nat * nat * nat) :
  let k := keyOf (jsTriple tp) in
  tripleMalformed v (jsTriple tp) = false ->
  tripleDegenerate v (jsTriple tp) = false ->
  tripleMalformed v (jsTriple tq) = false ->
  tripleDegenerate v (jsTriple tq) = false ->
  keyOf (jsTriple tq) = k ->
  opposite (tripleNormal v (jsTriple tq)) (tripleNormal v (jsTriple tp)) = false ->
  Forall (fun t => keyOf (jsTriple t) <> k) (pre ++ mid ++ post) ->
  List.filter (sameKey k)
    (triples (cullBackFaces
                (Some (flatten3 (pre ++ tp :: mid ++ tq :: post))) (Some v)))
  = [jsTriple tq; jsTriple tp].
Proof.
  intros k Hmp Hdp Hmq Hdq Hk Hopp Hothers.
  cbn [cullBackFaces]. rewrite cullArrays_groups. cbv zeta.
  rewrite triples_flatten3, groups_flatten3.
  rewrite !map_app, !map_cons, !map_app, !map_cons.
  apply Forall_app in Hothers as [Hpre Hothers].
  apply Forall_app in Hothers as [Hmid Hpost].
  assert (Fm : forall l, Forall (fun t => keyOf (jsTriple t) <> k) l ->
                         Forall (fun t => keyOf t <> k) (map jsTriple l)).
  { intros l Hl. induction Hl; constructor; auto. }
  apply Fm in Hpre, Hmid, Hpost.
  rewrite fold_left_app. cbn [fold_left]. rewrite fold_left_app. cbn [fold_left].
  destruct (foldA_other v k _ ([], []) Hpre) as [Hc1 Hm1].
  destruct (fold_left (stepA v) (map jsTriple pre) ([], [])) as [cs1 ms1].
  cbn [fst snd List.filter] in Hc1, Hm1.
  assert (S2 : stepA v (cs1, ms1) (jsTriple tp) = (cs1, tsSet (jsTriple tp) ms1)).
  { unfold stepA. rewrite Hmp, Hdp. fold k. now rewrite sameKey_tsGet, Hm1. }
  rewrite S2.
  destruct (foldA_other v k _ (cs1, tsSet (jsTriple tp) ms1) Hmid) as [Hc3 Hm3].
  destruct (fold_left (stepA v) (map jsTriple mid) _) as [cs3 ms3].
  cbn [fst snd] in Hc3, Hm3.
  rewrite (filter_tsSet_same k) in Hm3 by reflexivity.
  rewrite Hm1 in Hm3. cbn [tail] in Hm3.
  assert (S4 : stepA v (cs3, ms3) (jsTriple tq) = (cs3 ++ [jsTriple tq], ms3)).
  { unfold stepA. rewrite Hmq, Hdq, Hk, sameKey_tsGet, Hm3. cbn [head].
    now rewrite Hopp. }
  rewrite S4.
  destruct (foldA_other v k _ (cs3 ++ [jsTriple tq], ms3) Hpost) as [Hc5 Hm5].
  destruct (fold_left (stepA v) (map jsTriple post) _) as [cs5 ms5].
  cbn [fst snd] in Hc5, Hm5 |- *.
  rewrite List.filter_app, Hc5, Hm5, Hm3, filter_snoc, Hc3, Hc1.
  unfold sameKey at 1. rewrite Hk, String.eqb_refl. reflexivity.
Qed.

Lemma same_key_pair_both_kept_witness :
  List.filter (sameKey (keyOf (jsTriple (0, 1, 2))))
    (triples (cullBackFaces
       (Some (flatten3 ([(1, 2, 3)] ++ (0, 1, 2) :: [(1, 2, 3)]
                          ++ (1, 2, 0) :: [(3, 2, 1)])))
       (Some squareVertices)))
  = [jsTriple (1, 2, 0); jsTriple (0, 1, 2)].
Proof.
  apply (same_key_pair_both_kept squareVertices [(1, 2, 3)] [(1, 2, 3)]
           [(3, 2, 1)] (0, 1, 2) (1, 2, 0)); try reflexivity.
  repeat constructor; discriminate.
Defined.

(** *** A mesh without duplicates *)

Definition wellFormed (v : list float) (t : jtriple) : bool :=
  negb (tripleMalformed v t).

Lemma tsGet_fresh k ms : ~ In k (map keyOf ms) -> tsGet k ms = None.
Proof.
  induction ms as [|t ms IH]; simpl; intros H; [reflexivity|].
  destruct (String.eqb_spec k (keyOf t)) as [->|Hne]; [tauto|].
  apply IH. tauto.
Qed.

Lemma tsSet_fresh t ms :
  ~ In (keyOf t) (map keyOf ms) -> tsSet t ms = ms ++ [t].
Proof.
  induction ms as [|t' ms IH]; simpl; intros H; [reflexivity|].
  destruct (String.eqb_spec (keyOf t) (keyOf t')) as [E|Hne].
  { exfalso. apply H. now left. }
  f_equal. apply IH. tauto.
Qed.

(** The loop on triangles that are malformed or have a key of their own:
    the malformed ones are pushed, the others are recorded, in order. *)
Lemma foldA_partition v ts cs ms :
  Forall (fun t => tripleMalformed v t = false -> tripleDegenerate v t = false)
    ts ->
  NoDup (map keyOf (ms ++ List.filter (wellFormed v) ts)) ->
  fold_left (stepA v) ts (cs, ms)
  = (cs ++ List.filter (tripleMalformed v) ts,
     ms ++ List.filter (wellFormed v) ts).
Proof.
  intros Hdeg. revert cs ms.
  induction Hdeg as [|t ts Ht _ IH]; intros cs ms Hnd.
  { simpl. now rewrite !app_nil_r. }
  assert (Ef : List.filter (wellFormed v) (t :: ts)
               = if tripleMalformed v t then List.filter (wellFormed v) ts
                 else t :: List.filter (wellFormed v) ts).
  { cbn [List.filter]. unfold wellFormed at 1.
    now destruct (tripleMalformed v t). }
  rewrite Ef in Hnd |- *. clear Ef. cbn [fold_left List.filter].
  destruct (tripleMalformed v t) eqn:Em.
  - assert (Es : stepA v (cs, ms) t = (cs ++ [t], ms))
      by (unfold stepA; now rewrite Em).
    rewrite Es, IH by exact Hnd. now rewrite <- app_assoc.
  - assert (Hfresh : ~ In (keyOf t) (map keyOf ms)).
    { rewrite map_app in Hnd. cbn [map] in Hnd.
      apply NoDup_app in Hnd as (_ & Hd & _). intros Hin.
      apply (Hd (keyOf t)); [now apply list_elem_of_In | now left]. }
    assert (Es : stepA v (cs, ms) t = (cs, ms ++ [t])).
    { unfold stepA. rewrite Em, (Ht eq_refl).
      now rewrite (tsGet_fresh _ _ Hfresh), (tsSet_fresh _ _ Hfresh). }
    rewrite Es, IH.
    + now rewrite <- app_assoc.
    + now rewrite <- app_assoc.
Qed.

(** X4.  When no well-formed triangle of the input is degenerate and the
    well-formed triangles have pairwise different keys, nothing is culled:
    the output holds the malformed triples in input order, followed by the
    well-formed ones in input order.  A mesh without malformed triples comes
    out unchanged. *)
Theorem distinct_keys_nothing_culled (tis : list nat) (v : list float) :
  let gs := groups tis in
  Forall (fun t => tripleMalformed v t = false -> tripleDegenerate v t = false)
    gs ->
  NoDup (map keyOf (List.filter (wellFormed v) gs)) ->
  cullBackFaces (Some tis) (Some v)
  = flatten3 (List.filter (tripleMalformed v) gs
              ++ List.filter (wellFormed v) gs) /\
  (Forall (fun t => tripleMalformed v t = false) gs ->
   length tis mod 3 = 0 ->
   cullBackFaces (Some tis) (Some v) = map Some tis).
Proof.
  intros gs Hdeg Hnd. cbn [cullBackFaces]. rewrite cullArrays_groups.
  cbv zeta. fold gs.
  rewrite (foldA_partition v gs [] [] Hdeg Hnd). cbn [fst snd app].
  split; [reflexivity|].
  intros Hwf Hlen.
  assert (E1 : List.filter (tripleMalformed v) gs = []).
  { clear -Hwf. induction Hwf as [|t ts Ht _ IH]; [reflexivity|].
    cbn [List.filter]. now rewrite Ht. }
  assert (E2 : List.filter (wellFormed v) gs = gs).
  { clear -Hwf. induction Hwf as [|t ts Ht _ IH]; [reflexivity|].
    cbn [List.filter]. unfold wellFormed at 1. rewrite Ht. cbn [negb].
    now rewrite IH. }
  rewrite E1, E2. cbn [app]. unfold gs.
  rewrite (groups_triples tis Hlen), flatten3_jsTriple.
  now rewrite (flatten3_triples tis Hlen).
Qed.

Lemma distinct_keys_nothing_culled_witness :
  cullBackFaces (Some [0; 1; 2; 0; 1; 7; 1; 2; 3]) (Some squareVertices)
  = [Some 0; Some 1; Some 7; Some 0; Some 1; Some 2; Some 1; Some 2; Some 3].
Proof.
  apply (distinct_keys_nothing_culled [0; 1; 2; 0; 1; 7; 1; 2; 3]
           squareVertices).
  - repeat constructor.
  - vm_compute.
    repeat (apply NoDup_cons_2;
            [rewrite ?elem_of_cons, elem_of_nil; intuition discriminate|]).
    apply NoDup_nil_2.
Defined.

(** *** What the output holds, for every input *)

(** A triple the loop may keep: pushed at once, or not of zero area. *)
Definition keepable (v : list float) (t : jtriple) : Prop :=
  tripleMalformed v t = true \/ tripleDegenerate v t = false.

Lemma stepA_keepable v s t :
  Forall (keepable v) (pool s) -> Forall (keepable v) (pool (stepA v s t)).
Proof.
  destruct s as [cs ms]. unfold pool. cbn [fst snd]. intros H.
  apply Forall_app in H as [Hc Hm]. unfold stepA.
  assert (Hset : keepable v t -> Forall (keepable v) (tsSet t ms)).
  { intros Ht. apply List.Forall_forall. intros u Hu.
    apply list_elem_of_In in Hu.
    pose proof (elem_of_submseteq _ _ _ Hu (tsSet_submseteq t ms)) as Hu'.
    clear Hu. apply elem_of_cons in Hu' as [->|Hu]; [exact Ht|].
    apply list_elem_of_In in Hu.
    now apply (proj1 (List.Forall_forall _ _) Hm). }
  destruct (tripleMalformed v t) eqn:Em.
  { cbn [fst snd]. rewrite !Forall_app. repeat split; auto.
    constructor; [now left | constructor]. }
  destruct (tripleDegenerate v t) eqn:Ed.
  { cbn [fst snd]. now apply Forall_app. }
  assert (Ht : keepable v t) by now right.
  destruct (tsGet (keyOf t) ms).
  - destruct (opposite _ _).
    + destruct (_ <? _)%float; cbn [fst snd]; apply Forall_app; auto.
    + cbn [fst snd]. rewrite !Forall_app. repeat split; auto.
  - cbn [fst snd]. apply Forall_app; auto.
Qed.

(** X5.  For every index array, ragged or not, the triples of the output
    form a sub-multiset of the groups the loop visits, and none of them is a
    well-formed triangle of zero area. *)
Theorem emitted_never_degenerate (tis : list nat) (v : list float) :
  let out := triples (cullBackFaces (Some tis) (Some v)) in
  out ⊆+ groups tis /\
  Forall (fun t => tripleMalformed v t = true \/ tripleDegenerate v t = false)
    out.
Proof.
  cbv zeta. cbn [cullBackFaces]. rewrite cullArrays_groups. cbv zeta.
  rewrite triples_flatten3. split.
  - apply (foldA_pool v (groups tis) ([], [])).
  - apply (R16WriterProofs.fold_left_preserves
             (fun s => Forall (keepable v) (pool s))); [|constructor].
    intros s t _. apply stepA_keepable.
Qed.

(** *** No vertex set loses all its triangles *)

Lemma tsGet_tsSet k t ms :
  tsGet k (tsSet t ms) = if String.eqb k (keyOf t) then Some t else tsGet k ms.
Proof.
  induction ms as [|t' ms IH]; simpl; [reflexivity|].
  destruct (String.eqb_spec (keyOf t) (keyOf t')) as [E|E]; simpl.
  - rewrite <- E. now destruct (String.eqb k (keyOf t)).
  - rewrite IH.
    destruct (String.eqb_spec k (keyOf t')) as [E1|E1],
             (String.eqb_spec k (keyOf t)) as [E2|E2]; try reflexivity.
    congruence.
Qed.

Lemma tsGet_In k ms t : tsGet k ms = Some t -> In t ms /\ keyOf t = k.
Proof.
  induction ms as [|t' ms IH]; simpl; [discriminate|].
  destruct (String.eqb_spec k (keyOf t')) as [E|E].
  - intros [= ->]. split; [now left | now symmetry].
  - intros H. destruct (IH H). split; [now right | assumption].
Qed.

(** A key that is pending in the map stays pending. *)
Lemma stepA_pending v s t k :
  tsGet k (snd s) <> None -> tsGet k (snd (stepA v s t)) <> None.
Proof.
  destruct s as [cs ms]. cbn [snd]. intros H. unfold stepA.
  assert (Hset : tsGet k (tsSet t ms) <> None).
  { rewrite tsGet_tsSet. now destruct (String.eqb k (keyOf t)). }
  destruct (tripleMalformed v t); [exact H|].
  destruct (tripleDegenerate v t); [exact H|].
  destruct (tsGet (keyOf t) ms); [|exact Hset].
  destruct (opposite _ _); [|exact H].
  destruct (_ <? _)%float; [exact Hset | exact H].
Qed.

(** The key of a triangle with a normal is pending once the loop met it. *)
Lemma stepA_records v s t :
  tripleMalformed v t = false -> tripleDegenerate v t = false ->
  tsGet (keyOf t) (snd (stepA v s t)) <> None.
Proof.
  destruct s as [cs ms]. intros Hm Hd. unfold stepA. rewrite Hm, Hd.
  assert (Hset : tsGet (keyOf t) (tsSet t ms) <> None).
  { now rewrite tsGet_tsSet, String.eqb_refl. }
  destruct (tsGet (keyOf t) ms) as [old|] eqn:E; [|exact Hset].
  destruct (opposite _ _); cbn [snd]; [|now rewrite E].
  destruct (_ <? _)%float; cbn [snd]; [exact Hset | now rewrite E].
Qed.

Lemma foldA_pending v ts s k :
  tsGet k (snd s) <> None -> tsGet k (snd (fold_left (stepA v) ts s)) <> None.
Proof.
  revert s. induction ts as [|t ts IH]; intros s H; [exact H|].
  cbn [fold_left]. now apply IH, stepA_pending.
Qed.

Lemma foldA_records v ts s t :
  In t ts -> tripleMalformed v t = false -> tripleDegenerate v t = false ->
  tsGet (keyOf t) (snd (fold_left (stepA v) ts s)) <> None.
Proof.
  intros Hin Hm Hd. revert s.
  induction ts as [|t' ts IH]; intros s; [destruct Hin|].
  cbn [fold_left]. destruct Hin as [->|Hin]; [|now apply IH].
  now apply foldA_pending, stepA_records.
Qed.

(** X6.  Culling never removes all triangles of a vertex set: for every
    group of the input that is well formed and not degenerate, the output
    holds a triangle with the same key, itself a group of the input. *)
Theorem every_key_survives (tis : list nat) (v : list float) (t : jtriple) :
  In t (groups tis) ->
  tripleMalformed v t = false ->
  tripleDegenerate v t = false ->
  exists t', In t' (triples (cullBackFaces (Some tis) (Some v))) /\
             In t' (groups tis) /\ keyOf t' = keyOf t.
Proof.
  intros Hin Hm Hd. cbn [cullBackFaces]. rewrite cullArrays_groups. cbv zeta.
  rewrite triples_flatten3.
  pose proof (foldA_records v (groups tis) ([], []) t Hin Hm Hd) as H.
  pose proof (foldA_pool v (groups tis) ([], [])) as Hsub.
  unfold pool in Hsub. cbn [fst snd app] in Hsub.
  destruct (fold_left (stepA v) (groups tis) ([], [])) as [cs ms].
  cbn [fst snd] in H, Hsub |- *.
  destruct (tsGet (keyOf t) ms) as [t'|] eqn:E; [|now destruct H].
  apply tsGet_In in E as [Ht' Hk].
  assert (Hout : In t' (cs ++ ms)) by (apply in_or_app; now right).
  exists t'. split; [exact Hout|]. split; [|exact Hk].
  apply list_elem_of_In.
  apply (elem_of_submseteq _ _ _ (proj2 (list_elem_of_In _ _) Hout) Hsub).
Qed.

Lemma every_key_survives_witness :
  exists t', In t' (triples (cullBackFaces (Some [0; 1; 2; 0; 2; 1; 1; 2; 3])
                               (Some squareVertices))) /\
             In t' (groups [0; 1; 2; 0; 2; 1; 1; 2; 3]) /\
             keyOf t' = keyOf (Some 0, Some 2, Some 1).
Proof.
  apply (every_key_survives [0; 1; 2; 0; 2; 1; 1; 2; 3] squareVertices
           (Some 0, Some 2, Some 1)).
  - right. now left.
  - reflexivity.
  - reflexivity.
Defined.

End FaceCullerMore.

(** ** More properties of R16Writer *)

Module R16WriterMore.
Import JSNumber JSNumberMore R16Writer R16WriterProofs.

(** *** The cell a chunk is the first to write *)

(** The value of [vertexIndex] when the loops reach the sample at
    [(row, col)] of a chunk that has not run out of vertices: one for every
    sample of the rows above, and [col] for the samples of the row. *)
Definition vertexIndexAt (row col : nat) : nat :=
  list_sum (map colCount (seq 0 row)) + col.

Lemma vertexIndexAt_closed row col :
  row < 17 -> vertexIndexAt row col = 17 * (row / 2) + 9 * (row mod 2) + col.
Proof.
  intros H. unfold vertexIndexAt.
  do 17 (destruct row as [|row]; [reflexivity|]). lia.
Qed.

(** A cell holds the height [h]. *)
Definition holds (i : nat) (h : float) (b : builder) : Prop :=
  isSet b i /\ nth i (heights b) nan = h.

Lemma frame_holds P b b' i h : frame P b b' -> holds i h b -> holds i h b'.
Proof.
  intros Hf [Hs Hh]. destruct (Hf i (or_introl Hs)) as [Es Eh].
  split; [unfold isSet in *; congruence | congruence].
Qed.

Definition unsetAt (i : nat) (b : builder) : Prop := wfB b /\ ~ isSet b i.

Lemma sampleStep_unsetAt cv cp chunkX chunkY row col b vi i :
  sampleIndex chunkX chunkY row col <> i ->
  unsetAt i b -> unsetAt i (sampleStep cv cp chunkX chunkY row col b vi).
Proof.
  intros Hne [Hwf Hu]. split; [now apply sampleStep_wfB|].
  destruct (sampleStep_cases cv cp chunkX chunkY row col b vi)
    as [->|(_ & _ & _ & ->)]; [exact Hu|].
  unfold isSet. cbn [storeSample heightSet].
  now rewrite nth_insert_ne by exact Hne.
Qed.

Lemma localX_bound row col : col < colCount row -> localX row col <= 16.
Proof. unfold colCount, localX. destruct (isShort row); lia. Qed.

Lemma localX_mono row col col' :
  col < col' -> localX row col < localX row col'.
Proof. unfold localX. destruct (isShort row); lia. Qed.

(** Two samples are meant for the same cell only if they agree on both
    coordinates. *)
Lemma sampleIndex_coords X Y r c X' Y' r' c' :
  Y < chunksPerSide -> Y' < chunksPerSide ->
  c < colCount r -> c' < colCount r' ->
  sampleIndex X Y r c = sampleIndex X' Y' r' c' ->
  X * 16 + r = X' * 16 + r' /\ Y * 16 + localX r c = Y' * 16 + localX r' c'.
Proof.
  intros HY HY' Hc Hc'. pose proof (localX_bound r c Hc).
  pose proof (localX_bound r' c' Hc').
  unfold sampleIndex, vertsPerChunk, chunksPerSide in *. rewrite fullSize_eq.
  cbn [Nat.sub]. lia.
Qed.

Lemma colLoop_app cv cp chunkX chunkY row l1 l2 s :
  colLoop cv cp chunkX chunkY row (l1 ++ l2) s
  = colLoop cv cp chunkX chunkY row l2 (colLoop cv cp chunkX chunkY row l1 s).
Proof.
  revert s. induction l1 as [|c l1 IH]; intros s; [reflexivity|].
  cbn [app colLoop]. destruct (length cv <=? snd s) eqn:E; [|apply IH].
  destruct l2 as [|c2 l2]; [reflexivity|]. cbn [colLoop]. now rewrite E.
Qed.

Lemma rows_preserve (I : builder -> Prop) cv cp chunkX chunkY rows s :
  (forall b row col vi, In row rows -> col < colCount row -> I b ->
     I (sampleStep cv cp chunkX chunkY row col b vi)) ->
  I (fst s) -> I (fst (fold_left (rowStep cv cp chunkX chunkY) rows s)).
Proof.
  intros Hf. apply (fold_left_preserves (fun s => I (fst s))).
  intros s' row Hrow Hs. unfold rowStep. apply colLoop_preserves; [|exact Hs].
  intros b col vi Hcol%in_seq _. apply Hf; [exact Hrow | lia].
Qed.

Lemma seq_split_at n k : k < n -> seq 0 n = seq 0 k ++ k :: seq (S k) (n - S k).
Proof.
  intros H. replace n with (k + S (n - S k)) at 1 by lia.
  now rewrite seq_app.
Qed.

Section FirstOwner.

Variables (w : writer) (chunks : list (option chunk)).
Variables (cx cy row col : nat) (c : chunk) (cv : list float).
Hypothesis Hcx : cx < chunksPerSide.
Hypothesis Hcy : cy < chunksPerSide.
Hypothesis Hrow : row < 17.
Hypothesis Hcol : col < colCount row.
Hypothesis Hchunk : nth (cx * chunksPerSide + cy) chunks None = Some c.
Hypothesis Hverts : vertices c = Some cv.
Hypothesis Hlen : vertexIndexAt row col < length cv.
Hypothesis Htop : row = 0 -> cx = 0.
Hypothesis Hleft : localX row col = 0 -> cy = 0.

Let i0 : nat := sampleIndex cx cy row col.
Let h0 : float :=
  (nth (vertexIndexAt row col) cv nan + nth 2 (position c) nan)%float.

(** No sample of an earlier chunk, and no earlier sample of the chunk, is
    meant for the cell. *)
Lemma other_chunk_row X Y r c' :
  X < cx -> Y < chunksPerSide -> r < 17 -> c' < colCount r ->
  sampleIndex X Y r c' <> i0.
Proof using All.
  intros HX HY Hr Hc' E.
  destruct (sampleIndex_coords X Y r c' cx cy row col HY Hcy Hc' Hcol E).
  lia.
Qed.

Lemma other_chunk_col Y r c' :
  Y < cy -> r < 17 -> c' < colCount r -> sampleIndex cx Y r c' <> i0.
Proof using All.
  intros HY Hr Hc' E.
  assert (HY' : Y < chunksPerSide) by lia.
  destruct (sampleIndex_coords cx Y r c' cx cy row col HY' Hcy Hc' Hcol E).
  pose proof (localX_bound r c' Hc'). lia.
Qed.

Lemma other_row r c' :
  r < row -> c' < colCount r -> sampleIndex cx cy r c' <> i0.
Proof using All.
  intros Hr Hc' E.
  destruct (sampleIndex_coords cx cy r c' cx cy row col Hcy Hcy Hc' Hcol E).
  lia.
Qed.

Lemma other_col c' : c' < col -> sampleIndex cx cy row c' <> i0.
Proof using All.
  intros Hc' E.
  assert (Hc'' : c' < colCount row) by lia.
  destruct (sampleIndex_coords cx cy row c' cx cy row col Hcy Hcy Hc'' Hcol E).
  pose proof (localX_mono row c' col Hc'). lia.
Qed.

(** When the loops reach the chunk, the cell is unset. *)
Lemma unset_before_chunk :
  unsetAt i0
    (fold_left (chunkStep chunks cx) (seq 0 cy)
       (fold_left (chunkRow chunks) (seq 0 cx) (initBuilder w))).
Proof using All.
  apply (fold_left_preserves (unsetAt i0)).
  { intros b Y HY%in_seq Hb.
    apply (chunkStep_preserves (unsetAt i0)); try assumption; [lia|].
    intros b' c' cv' r col' vi _ _ Hr Hc' _.
    apply sampleStep_unsetAt. apply other_chunk_col; [lia | exact Hr | exact Hc']. }
  apply (fold_left_preserves (unsetAt i0)).
  { intros b X HX%in_seq Hb. unfold chunkRow.
    apply (fold_left_preserves (unsetAt i0)); [|exact Hb].
    intros b' Y HY%in_seq.
    apply (chunkStep_preserves (unsetAt i0)); [lia | lia |].
    intros b'' c' cv' r col' vi _ _ Hr Hc' _.
    apply sampleStep_unsetAt. apply other_chunk_row; [lia | lia | exact Hr | exact Hc']. }
  split; [apply wfB_init|].
  unfold isSet. cbn [initBuilder heightSet].
  destruct (Nat.lt_ge_cases i0 (fullSize * fullSize)) as [Hi|Hi].
  - rewrite nth_repeat_lt by exact Hi. discriminate.
  - rewrite nth_overflow by (now rewrite repeat_length). discriminate.
Qed.

(** The chunk stores its sample in the cell. *)
Lemma chunk_stores_sample b :
  unsetAt i0 b -> holds i0 h0 (chunkStep chunks cx b cy).
Proof using All.
  intros [Hwf Hu]. unfold chunkStep. rewrite Hchunk, Hverts. unfold rowLoop.
  rewrite (seq_split_at 17 row Hrow), fold_left_app, fold_left_cons.
  set (sC := fold_left (rowStep cv (position c) cx cy) (seq 0 row) (b, 0)).
  assert (HC : unsetAt i0 (fst sC) /\ snd sC = list_sum (map colCount (seq 0 row))).
  { destruct (rows_full cv (position c) cx cy (seq 0 row) (b, 0))
      as (W & N & _ & _); try assumption.
    - cbn [snd]. unfold vertexIndexAt in Hlen. lia.
    - apply Forall_forall. intros r Hr%list_elem_of_In%in_seq. lia.
    - split; [|exact N].
      apply (rows_preserve (unsetAt i0)); [|now split].
      intros b' r c' vi Hr%in_seq Hc'. apply sampleStep_unsetAt.
      apply other_row; [lia | exact Hc']. }
  destruct HC as [[WC UC] NC].
  unfold rowStep at 2.
  rewrite (seq_split_at (colCount row) col Hcol), colLoop_app.
  set (sD := colLoop cv (position c) cx cy row (seq 0 col) sC).
  assert (HD : unsetAt i0 (fst sD) /\ snd sD = vertexIndexAt row col).
  { destruct (colLoop_full cv (position c) cx cy row (seq 0 col) sC)
      as (W & N & _ & _); try assumption.
    - rewrite length_seq, NC. unfold vertexIndexAt in Hlen. lia.
    - rewrite length_seq, NC in N. split; [|exact N].
      apply (colLoop_preserves (unsetAt i0)); [|now split].
      intros b' c' vi Hc'%in_seq _. apply sampleStep_unsetAt.
      apply other_col. lia. }
  destruct HD as [[WD UD] ND].
  cbn [colLoop]. rewrite ND.
  destruct (Nat.leb_spec (length cv) (vertexIndexAt row col)); [lia|].
  assert (Hstore : holds i0 h0
            (sampleStep cv (position c) cx cy row col (fst sD)
               (vertexIndexAt row col))).
  { pose proof (sampleStep_sets cv (position c) cx cy row col (fst sD)
                  (vertexIndexAt row col) WD Hcx Hcy Hrow Hcol) as Hset.
    destruct (sampleStep_cases cv (position c) cx cy row col (fst sD)
                (vertexIndexAt row col)) as [E|(_ & _ & Hlt & E)].
    - rewrite E in Hset. now destruct UD.
    - split; [exact Hset|]. rewrite E. cbn [storeSample heights].
      apply nth_insert_eq. destruct WD as [-> _]. exact Hlt. }
  apply (rows_preserve (holds i0 h0)).
  { intros b' r c' vi _ _. apply frame_holds with (P := fun _ => True).
    apply sampleStep_frame. }
  apply (colLoop_preserves (holds i0 h0)); [|exact Hstore].
  intros b' c' vi _ _. apply frame_holds with (P := fun _ => True).
  apply sampleStep_frame.
Qed.

Lemma first_owner_fill :
  holds i0 h0 (fillFromChunks chunks (initBuilder w)).
Proof using All.
  unfold fillFromChunks.
  rewrite (seq_split_at chunksPerSide cx Hcx), fold_left_app, fold_left_cons.
  apply (fold_left_preserves (holds i0 h0)).
  { intros b X HX%in_seq. apply frame_holds with (P := fun _ => True).
    apply chunkRow_frame. lia. }
  unfold chunkRow at 1.
  rewrite (seq_split_at chunksPerSide cy Hcy), fold_left_app, fold_left_cons.
  apply (fold_left_preserves (holds i0 h0)).
  { intros b Y HY%in_seq. apply frame_holds with (P := fun _ => True).
    apply chunkStep_frame; [exact Hcx | lia]. }
  apply chunk_stores_sample, unset_before_chunk.
Qed.

End FirstOwner.

(** X7.  A sample of a chunk that is the first one meant for its cell ends
    up in the heightmap: for the chunk at [(cx, cy)] and its sample at
    [(row, col)], which is sample [vertexIndexAt row col] of the chunk's
    vertex sequence, if that sample exists and the cell is not on the
    chunk's first row (unless [cx = 0]) and not in its first column (unless
    [cy = 0]), the borders an earlier chunk writes, then the cell
    [(cy * 16 + localX, cx * 16 + row)] of the grid holds the sample plus
    the chunk's z, whatever the other chunks are. *)
Theorem first_owner_sample (w : writer) (chunks : list (option chunk))
    (cx cy row col : nat) (c : chunk) (cv : list float) :
  cx < chunksPerSide -> cy < chunksPerSide ->
  row < 17 -> col < colCount row ->
  nth (cx * chunksPerSide + cy) chunks None = Some c ->
  vertices c = Some cv ->
  vertexIndexAt row col < length cv ->
  (row = 0 -> cx = 0) -> (localX row col = 0 -> cy = 0) ->
  nth ((cx * 16 + row) * fullSize + (cy * 16 + localX row col))
    (heightData (setHeightDataFromChunks w chunks)) nan
  = (nth (vertexIndexAt row col) cv nan + nth 2 (position c) nan)%float /\
  vertexIndexAt row col = 17 * (row / 2) + 9 * (row mod 2) + col.
Proof.
  intros Hcx Hcy Hrow Hcol Hchunk Hverts Hlen Htop Hleft.
  split; [|now apply vertexIndexAt_closed].
  pose proof (first_owner_fill w chunks cx cy row col c cv Hcx Hcy Hrow Hcol
                Hchunk Hverts Hlen Htop Hleft) as H.
  apply (frame_holds _ _ _ _ _ (interpolate_frame _)) in H.
  destruct H as [_ H]. exact H.
Qed.

Lemma first_owner_sample_witness :
  nth ((0 * 16 + 0) * fullSize + (1 * 16 + localX 0 1))
    (heightData (setHeightDataFromChunks newWriter bumpChunks)) nan
  = 0%float.
Proof.
  assert (Hlt : 0 < 17) by lia.
  assert (H16 : 1 < chunksPerSide) by (unfold chunksPerSide; lia).
  assert (H016 : 0 < chunksPerSide) by (unfold chunksPerSide; lia).
  assert (Hc : 1 < colCount 0) by (vm_compute; lia).
  assert (Hv : vertexIndexAt 0 1 < length (100%float :: repeat 0%float 144))
    by (vm_compute; lia).
  assert (Hl : localX 0 1 = 0 -> 1 = 0) by (vm_compute; discriminate).
  exact (proj1 (first_owner_sample newWriter bumpChunks 0 1 0 1 bumpChunk
                  (100%float :: repeat 0%float 144) H016 H16 Hlt Hc eq_refl
                  eq_refl Hv (fun _ => eq_refl) Hl)).
Defined.

(** *** Any chunk list *)

(** X8.  Whatever the chunk list is (too short, with missing chunks, with
    chunks of too few or too many vertices), the grid has 257 x 257 cells,
    [write] allocates two bytes for each of them, and [out] is left as it
    was. *)
Theorem grid_shape_any_input (w : writer) (chunks : list (option chunk)) :
  let w' := setHeightDataFromChunks w chunks in
  length (heightData w') = 257 * 257 /\
  allocSize (length (heightData w')) = Some (2 * length (heightData w')) /\
  out w' = out w.
Proof.
  cbv zeta. split; [|split; [apply built_grid_alloc | reflexivity]].
  unfold setHeightDataFromChunks. cbn [heightData].
  exact (proj1 (interpolate_wfB _ (fillFromChunks_wfB w chunks))).
Qed.

Lemma chunkSamples_nil chunks ci c cv :
  chunkSamples (nth ci chunks None) = [] ->
  nth ci chunks None = Some c -> vertices c = Some cv -> length cv = 0.
Proof.
  intros H Hc Hv. rewrite Hc in H. unfold chunkSamples in H. rewrite Hv in H.
  destruct cv; [reflexivity | discriminate].
Qed.

Lemma interpolate_nothing_set b :
  (forall i, nth i (heightSet b) false = false) -> interpolate b = b.
Proof.
  intros Hb. apply (interpolate_preserves (fun b' => b' = b)); [|reflexivity].
  intros b' x y Hx Hy ->. rewrite interpolateCell_cases by assumption.
  cbv zeta. rewrite Hb. unfold setNeighborHeights.
  replace (List.filter _ (chosenNeighbors x y)) with (@nil nat); [reflexivity|].
  symmetry. induction (chosenNeighbors x y) as [|i l IH]; [reflexivity|].
  cbn [List.filter]. now rewrite Hb.
Qed.

(** X9.  A tile none of whose 256 chunks offers a sample (the chunk is
    missing, has no vertices, or an empty vertex array) is tolerated: the
    grid is all zeros, and [minHeight] and [maxHeight] are left as they
    were. *)
Theorem empty_tile_all_zero (w : writer) (chunks : list (option chunk)) :
  (forall ci, ci < chunksPerSide * chunksPerSide ->
     chunkSamples (nth ci chunks None) = []) ->
  setHeightDataFromChunks w chunks
  = Writer (out w) (repeat 0%float (fullSize * fullSize))
      (minHeight w) (maxHeight w).
Proof.
  intros Hempty.
  assert (Hfill : fillFromChunks chunks (initBuilder w) = initBuilder w).
  { apply (fillFromChunks_preserves (fun b => b = initBuilder w));
      [|reflexivity].
    intros b chunkX chunkY c cv row col vi HX HY Hc Hv _ _ Hvi _.
    rewrite (chunkSamples_nil chunks (chunkX * chunksPerSide + chunkY) c cv)
      in Hvi; try assumption; [lia|].
    apply Hempty. unfold chunksPerSide in *. nia. }
  unfold setHeightDataFromChunks, buildGrid. rewrite Hfill.
  rewrite interpolate_nothing_set; [reflexivity|].
  intros i. cbn [initBuilder heightSet]. apply nth_repeat.
Qed.

Lemma empty_tile_all_zero_witness :
  setHeightDataFromChunks newWriter [None; Some (Chunk None [0; 0; 0]%float)]
  = Writer None (repeat 0%float (fullSize * fullSize)) infinity neg_infinity.
Proof.
  apply (empty_tile_all_zero newWriter
           [None; Some (Chunk None [0; 0; 0]%float)]).
  intros [|[|ci]] _; [reflexivity | reflexivity |].
  cbn [nth]. now destruct ci.
Defined.

(** *** What [write] refuses *)

Lemma fillBuffer_rejects w hs i buf h :
  In h hs -> uint16 (r16Value w h) = None -> fillBuffer w hs i buf = None.
Proof.
  intros Hin Hbad. revert i buf.
  induction hs as [|h' hs IH]; intros i buf; [destruct Hin|].
  cbn [fillBuffer]. destruct (writeUInt16LE buf (r16Value w h') (i * 2)) eqn:E;
    [|reflexivity].
  destruct Hin as [->|Hin]; [|now apply IH].
  unfold writeUInt16LE in E. rewrite Hbad in E. discriminate.
Qed.

(** X10.  If the value of one cell is not an integer in 0 .. 65535 (a height
    outside [minHeight .. maxHeight], or an infinite value), filling the
    buffer throws and [write] hands nothing to the stream: no file with
    clamped or partial data is written. *)
Theorem write_rejects_out_of_range (w : writer) (h : float) :
  In h (heightData w) -> uint16 (r16Value w h) = None ->
  r16Buffer w = None /\
  forall fileExists ioOk overwrite path data,
    write fileExists ioOk overwrite w <> Written path data.
Proof.
  intros Hin Hbad.
  assert (E : r16Buffer w = None).
  { unfold r16Buffer. destruct (allocSize _); [|reflexivity].
    now apply (fillBuffer_rejects w _ _ _ h). }
  split; [exact E|].
  intros fe io ow path data. unfold write. rewrite E.
  destruct (negb ow && fe); [discriminate|].
  destruct (out w); [|discriminate]. destruct io; discriminate.
Qed.

Lemma write_rejects_out_of_range_witness :
  r16Buffer (Writer (Some "t.r16"%string) [0; 1; 5; 3]%float 0 3) = None.
Proof.
  apply (write_rejects_out_of_range
           (Writer (Some "t.r16"%string) [0; 1; 5; 3]%float 0 3) 5).
  - right. right. now left.
  - vm_compute. reflexivity.
Defined.

(** *** The ends of the range *)

Lemma Prim2SF_65535 :
  exists m e, Prim2SF 65535 = S754_finite false m e.
Proof. eexists _, _. vm_compute. reflexivity. Qed.

(** X11.  With [minHeight = maxHeight] (a flat range, whatever the value)
    the normalisation divides by zero: no cell gets a value of its own.
    The value of a cell is NaN, which is stored as 0, or infinite, which
    [writeUInt16LE] refuses; a cell at the common height is stored as 0. *)
Theorem flat_range_never_scales (w : writer) (h : float) :
  minHeight w = maxHeight w ->
  (r16Value w h = INaN \/ exists s, r16Value w h = IInf s) /\
  (uint16 (r16Value w h) = Some 0%Z \/ uint16 (r16Value w h) = None) /\
  (h = minHeight w -> uint16 (r16Value w h) = Some 0%Z).
Proof.
  intros Hflat.
  destruct Prim2SF_65535 as (m65 & e65 & E65).
  assert (Hv : forall h',
            Prim2SF ((h' - minHeight w) / (maxHeight w - minHeight w) * 65535)
            = SF64mul (SF64div (SF64sub (Prim2SF h') (Prim2SF (minHeight w)))
                         (SF64sub (Prim2SF (minHeight w)) (Prim2SF (minHeight w))))
                (S754_finite false m65 e65)).
  { intros h'. rewrite mul_spec, div_spec, !sub_spec, <- Hflat, E65.
    reflexivity. }
  assert (H1 : r16Value w h = INaN \/ exists s, r16Value w h = IInf s).
  { unfold r16Value. rewrite Math_round_spec, Hv.
    destruct (SFsub_diag (Prim2SF (minHeight w))) as [->|[z ->]];
      destruct (SF64sub (Prim2SF h) (Prim2SF (minHeight w)))
        as [sx|sx| |sx mx ex]; cbn; eauto. }
  split; [exact H1|]. split.
  - destruct H1 as [->|[s ->]]; [now left | now right].
  - intros ->. unfold r16Value. rewrite Math_round_spec, Hv.
    destruct (SFsub_diag (Prim2SF (minHeight w))) as [->|[z ->]]; reflexivity.
Qed.

Lemma flat_range_never_scales_witness :
  uint16 (r16Value (Writer None [] 7 7) 7) = Some 0%Z.
Proof.
  apply (flat_range_never_scales (Writer None [] 7 7) 7); reflexivity.
Defined.

(** X12.  When [minHeight] is finite and the range [maxHeight - minHeight]
    is positive, a cell at [minHeight] gets the value 0 and is stored as
    the two bytes 0, 0. *)
Theorem lowest_height_is_zero (w : writer) :
  finite (minHeight w) = true ->
  (0 <? maxHeight w - minHeight w)%float = true ->
  r16Value w (minHeight w) = IInt 0 /\
  forall buf offset, offset + 2 <= length buf ->
    writeUInt16LE buf (r16Value w (minHeight w)) offset
    = Some (<[S offset := 0%Z]> (<[offset := 0%Z]> buf)).
Proof.
  intros Hfin Hpos.
  destruct Prim2SF_65535 as (m65 & e65 & E65).
  assert (E : r16Value w (minHeight w) = IInt 0).
  { unfold r16Value. rewrite Math_round_spec, mul_spec, div_spec, E65.
    rewrite (sub_spec (minHeight w) (minHeight w)).
    destruct (SFsub_diag (Prim2SF (minHeight w))) as [En|[z ->]].
    - exfalso. unfold SF64sub, SFsub in En.
      destruct (finite_Prim2SF _ Hfin) as [[z Ez]|(s & m & e & Ez)];
        rewrite Ez in En.
      + now destruct z.
      + cbv zeta in En. rewrite Z.sub_diag in En. discriminate.
    - destruct (positive_Prim2SF _ Hpos) as [->|(m & e & ->)]; reflexivity. }
  split; [exact E|].
  intros buf offset Hlen. rewrite E.
  now rewrite writeUInt16LE_inRange by (try exact Hlen; lia).
Qed.

Lemma lowest_height_is_zero_witness :
  r16Value (Writer None [] (-3) 12) (-3) = IInt 0.
Proof.
  apply (lowest_height_is_zero (Writer None [] (-3) 12)); reflexivity.
Defined.

(** *** The extrema of any tile *)

Lemma all_zero (l : list float) n :
  length l = n -> (forall i, i < n -> nth i l nan = 0%float) ->
  l = repeat 0%float n.
Proof.
  intros Hl Hz. apply (nth_ext l (repeat 0%float n) nan nan).
  - now rewrite repeat_length.
  - intros i Hi. rewrite Hl in Hi. rewrite Hz by exact Hi.
    symmetry. now apply nth_repeat_lt.
Qed.

(** The extrema of the writer are those the first pair of loops leaves. *)
Lemma built_extrema w chunks :
  minHeight (setHeightDataFromChunks w chunks)
  = bMin (fillFromChunks chunks (initBuilder w)) /\
  maxHeight (setHeightDataFromChunks w chunks)
  = bMax (fillFromChunks chunks (initBuilder w)).
Proof.
  unfold setHeightDataFromChunks, buildGrid. cbn [minHeight maxHeight].
  apply interpolate_extrema.
Qed.

(** X13.  For any chunk list whose samples (raw sample plus the chunk's z)
    are finite numbers, also a sparse one, built into a new writer:
    [minHeight] and [maxHeight] are never NaN.  Either no sample was
    stored, and then they are still [Infinity] and [-Infinity] and the grid
    is all zeros; or both are heights that chunks offered, and
    [minHeight <= maxHeight]. *)
Theorem extrema_of_any_tile (chunks : list (option chunk)) :
  finiteSamples chunks = true ->
  let w := setHeightDataFromChunks newWriter chunks in
  notNaN (minHeight w) /\ notNaN (maxHeight w) /\
  ((minHeight w = infinity /\ maxHeight w = neg_infinity /\
    heightData w = repeat 0%float (fullSize * fullSize)) \/
   (In (minHeight w) (allSamples chunks) /\
    In (maxHeight w) (allSamples chunks) /\
    (minHeight w <=? maxHeight w)%float = true)).
Proof.
  intros Hfin w.
  set (b1 := fillFromChunks chunks (initBuilder newWriter)).
  destruct (fillFromChunks_extInv chunks Hfin) as (Hwf & Nm & NM & Hbd & Hat).
  fold b1 in Hwf, Nm, NM, Hbd, Hat.
  destruct (interpolate_extrema b1) as [Emin Emax].
  change (minHeight w) with (bMin (interpolate b1)).
  change (maxHeight w) with (bMax (interpolate b1)).
  change (heightData w) with (heights (interpolate b1)).
  rewrite Emin, Emax.
  split; [exact Nm|]. split; [exact NM|].
  destruct Hat as [(Em & EM & Hnone)|[(i & Hi & Hs & Ei) (j & Hj & Hsj & Ej)]].
  - left. split; [exact Em|]. split; [exact EM|].
    assert (Hunset : forall k, nth k (heightSet b1) false = false).
    { intros k. destruct (Nat.lt_ge_cases k cells) as [Hk|Hk].
      - specialize (Hnone k Hk). unfold isSet in Hnone.
        now destruct (nth k (heightSet b1) false).
      - apply nth_overflow. destruct Hwf as [_ ->]. exact Hk. }
    rewrite (interpolate_nothing_set b1 Hunset).
    apply all_zero; [exact (proj1 Hwf)|].
    intros k Hk. apply (fillFromChunks_zeroUnset newWriter chunks k Hk).
    apply Hunset.
  - right. destruct (Hbd i Hi Hs) as (_ & Ii & _ & Bi).
    destruct (Hbd j Hj Hsj) as (_ & Ij & _ & _).
    rewrite Ei in Ii, Bi. rewrite Ej in Ij. now repeat split.
Qed.

(** The sparse tile [rampChunks], one chunk of 256: samples were stored, so
    the extrema are heights the chunk offered (11 and 155). *)
Lemma extrema_of_any_tile_witness :
  minHeight (setHeightDataFromChunks newWriter rampChunks) <> infinity /\
  In (minHeight (setHeightDataFromChunks newWriter rampChunks))
    (allSamples rampChunks) /\
  In (maxHeight (setHeightDataFromChunks newWriter rampChunks))
    (allSamples rampChunks) /\
  (minHeight (setHeightDataFromChunks newWriter rampChunks)
   <=? maxHeight (setHeightDataFromChunks newWriter rampChunks))%float = true.
Proof.
  assert (Hfin : finiteSamples rampChunks = true) by (vm_compute; reflexivity).
  assert (Hmin : minHeight (setHeightDataFromChunks newWriter rampChunks)
                 <> infinity).
  { rewrite (proj1 (built_extrema newWriter rampChunks)).
    assert (E : bMin (fillFromChunks rampChunks (initBuilder newWriter))
                = 11%float) by (vm_compute; reflexivity).
    rewrite E. intros H. apply (f_equal Prim2SF) in H.
    vm_compute in H. discriminate. }
  split; [exact Hmin|].
  destruct (extrema_of_any_tile rampChunks Hfin) as (_ & _ & [(Hinf & _)|H]);
    [now destruct Hmin | exact H].
Defined.

End R16WriterMore.

(** ** More properties of tab-maps *)

Module TabMapsMore.
Import JSNumber JSNumberMore R16Writer TabMaps TabMapsProofs.

(** *** The index, row by row *)

(** A row as the index holds it: with the [FileDataID] of its display row,
    if there is one. *)
Definition resolveRow (idTable : gmap nat nat) (row : gameObject)
    : option gameObject :=
  match idTable !! DisplayID row with
  | Some fid =>
      Some (GameObject (DisplayID row) (OwnerID row) (Pos row) (Some fid))
  | None => None
  end.

(** The rows of the table owned by the map [k] whose display identifier
    resolves, in table order. *)
Definition rowsOf (objTable : list gameObject) (idTable : gmap nat nat)
    (k : nat) : list gameObject :=
  omap (resolveRow idTable) (List.filter (fun row => OwnerID row =? k) objTable).

(** A key of the index is only made when a row is added under it. *)
Definition nonEmpty {A : Type} (l : list A) : option (list A) :=
  match l with
  | [] => None
  | _ :: _ => Some l
  end.

Lemma nonEmpty_snoc {A : Type} (l : list A) x :
  nonEmpty (l ++ [x]) = Some (l ++ [x]).
Proof. now destruct l. Qed.

Lemma indexRow_spec idTable index row k L :
  index !! k = nonEmpty L ->
  indexRow idTable index row !! k = nonEmpty (L ++ rowsOf [row] idTable k).
Proof.
  intros HL. unfold indexRow, rowsOf, resolveRow. cbn [List.filter].
  destruct (Nat.eqb_spec (OwnerID row) k) as [E|E]; cbn [omap list_omap].
  - destruct (idTable !! DisplayID row) as [fid|];
      [|now rewrite app_nil_r].
    rewrite E, HL, nonEmpty_snoc.
    destruct L as [|a L]; cbn [nonEmpty]; now rewrite lookup_insert_eq.
  - rewrite app_nil_r.
    destruct (idTable !! DisplayID row) as [fid|]; [|exact HL].
    destruct (index !! OwnerID row);
      now rewrite lookup_insert_ne by exact E.
Qed.

Lemma rowsOf_cons row rows idTable k :
  rowsOf (row :: rows) idTable k
  = rowsOf [row] idTable k ++ rowsOf rows idTable k.
Proof.
  unfold rowsOf. cbn [List.filter].
  destruct (OwnerID row =? k); [|reflexivity].
  cbn [omap list_omap]. now destruct (resolveRow idTable row).
Qed.

Lemma buildIndex_spec objTable idTable k :
  buildIndex objTable idTable !! k = nonEmpty (rowsOf objTable idTable k).
Proof.
  unfold buildIndex.
  assert (G : forall rows index L,
            index !! k = nonEmpty L ->
            fold_left (indexRow idTable) rows index !! k
            = nonEmpty (L ++ rowsOf rows idTable k)).
  { induction rows as [|row rows IH]; intros index L HL.
    - cbn [fold_left]. unfold rowsOf. cbn. now rewrite app_nil_r.
    - cbn [fold_left]. rewrite rowsOf_cons, app_assoc.
      apply IH, indexRow_spec, HL. }
  apply (G objTable ∅ []). apply lookup_empty.
Qed.

(** X14.  [collectGameObjects] returns exactly the rows of GameObjects.db2
    that are owned by the queried map, have a display identifier with a
    GameObjectDisplayInfo row, and pass the predicate (applied to the row
    with its [FileDataID] filled in), each once and in table order.  So no
    such row is left out. *)
Theorem collectGameObjects_complete (objTable : list gameObject)
    (idTable : gmap nat nat) (db : option objectIndex) (mapID : nat)
    (filter : gameObject -> bool) :
  db = None \/ db = Some (buildIndex objTable idTable) ->
  let result :=
    fst (collectGameObjects objTable idTable db mapID (Some filter)) in
  result = List.filter filter (rowsOf objTable idTable mapID) /\
  forall row fid,
    In row objTable -> OwnerID row = mapID ->
    idTable !! DisplayID row = Some fid ->
    let obj := GameObject (DisplayID row) (OwnerID row) (Pos row) (Some fid) in
    filter obj = true -> In obj result.
Proof.
  intros Hdb result.
  assert (E : result = List.filter filter (rowsOf objTable idTable mapID)).
  { subst result. unfold collectGameObjects. cbn [fst passesFilter].
    assert (Ei : match db with
                 | Some index => index
                 | None => buildIndex objTable idTable
                 end = buildIndex objTable idTable)
      by now destruct Hdb as [->| ->].
    rewrite Ei, buildIndex_spec.
    now destruct (rowsOf objTable idTable mapID). }
  split; [exact E|].
  intros row fid Hin Hown Hfid obj Hf. rewrite E.
  apply filter_In. split; [|exact Hf].
  unfold rowsOf. apply list_elem_of_In, list_elem_of_omap.
  exists row. split.
  - apply list_elem_of_In, filter_In. split; [exact Hin|].
    now apply Nat.eqb_eq.
  - unfold resolveRow. now rewrite Hfid.
Qed.

Lemma collectGameObjects_complete_witness :
  fst (collectGameObjects sampleObjects sampleDisplayInfo None 1
         (Some (fun _ => true)))
  = List.filter (fun _ => true) (rowsOf sampleObjects sampleDisplayInfo 1).
Proof.
  apply (collectGameObjects_complete sampleObjects sampleDisplayInfo None 1
           (fun _ => true)).
  now left.
Defined.

(** *** The bounds of a tile *)

(** X15.  The bounds of a tile are exclusive: an object with a coordinate
    equal to the start or the end of the tile in that direction is not
    located in the tile, and neither is an object whose [Pos] has fewer
    than two elements. *)
Theorem inTile_excludes_boundary (e : environment) (index : nat)
    (obj : gameObject) :
  let startX := (MAP_OFFSET e - tileX e index * TILE_SIZE e - TILE_SIZE e)%float in
  let startY := (MAP_OFFSET e - tileY e index * TILE_SIZE e - TILE_SIZE e)%float in
  let endX := (startX + TILE_SIZE e)%float in
  let endY := (startY + TILE_SIZE e)%float in
  let posX := nth 0 (Pos obj) nan in
  let posY := nth 1 (Pos obj) nan in
  ((posX =? startX) || (posX =? endX) || (posY =? startY) || (posY =? endY))%float
  = true \/ length (Pos obj) < 2 ->
  inTile e index obj = false.
Proof.
  intros startX startY endX endY posX posY H. unfold inTile.
  fold startX startY. fold endX endY. fold posX posY.
  destruct H as [H|H].
  - rewrite !orb_true_iff in H.
    destruct H as [[[H|H]|H]|H]; destruct (eqb_not_ltb _ _ H) as [H1 H2];
      rewrite ?H1, ?H2, ?andb_false_r; reflexivity.
  - assert (E : posY = nan) by (apply nth_overflow; lia).
    rewrite E, ltb_nan_r, ltb_nan_l, !andb_false_r. reflexivity.
Qed.

Lemma inTile_excludes_boundary_witness :
  inTile cancelEnv 0 (GameObject 1 0 [0; 5; 0]%float None) = false.
Proof.
  apply (inTile_excludes_boundary cancelEnv 0
           (GameObject 1 0 [0; 5; 0]%float None)).
  left. vm_compute. reflexivity.
Defined.

(** *** The two passes under any pattern of cancellation *)

Definition failedMarks (ms : list mark) : Prop :=
  Forall (fun m => markedOk m = false) ms.

(** What the second pass and the manifest never touch. *)
Definition sameExports (st st' : job) : Prop :=
  adtExports st' = adtExports st /\ r16Writers st' = r16Writers st /\
  globalMinHeight st' = globalMinHeight st /\
  globalMaxHeight st' = globalMaxHeight st /\
  exists failed, marks st' = marks st ++ failed /\ failedMarks failed.

Lemma sameExports_refl st : sameExports st st.
Proof.
  repeat split. exists []. split; [now rewrite app_nil_r | constructor].
Qed.

Lemma sameExports_trans st1 st2 st3 :
  sameExports st1 st2 -> sameExports st2 st3 -> sameExports st1 st3.
Proof.
  intros (A1 & W1 & N1 & X1 & f1 & M1 & F1) (A2 & W2 & N2 & X2 & f2 & M2 & F2).
  repeat split; try congruence.
  exists (f1 ++ f2). split; [now rewrite M2, M1, app_assoc|].
  now apply Forall_app.
Qed.

Lemma sameExports_polled st : sameExports st (polled st).
Proof.
  repeat split. exists []. split; [now rewrite app_nil_r | constructor].
Qed.

Lemma sameExports_failed st m :
  markedOk m = false -> sameExports st (addMark st m).
Proof.
  intros Hm. repeat split. exists [m]. split; [reflexivity|].
  now repeat constructor.
Qed.

(** A file the second pass wrote: the bytes of one of the writers under
    the global range. *)
Definition fileOf (e : environment) (st : job) (ws : list writer)
    (pd : string * list Z) : Prop :=
  exists w, In w ws /\
    writtenFile e (globalMinHeight st) (globalMaxHeight st) w = Some pd.

Lemma pass2_any e ws st :
  let st' := pass2 e ws st in
  sameExports st st' /\ manifest st' = manifest st /\
  exists fs, heightmapFiles st' = heightmapFiles st ++ fs /\
             length fs <= length ws /\ Forall (fileOf e st ws) fs.
Proof.
  revert st. induction ws as [|w ws IH]; intros st; cbn [pass2].
  { split; [apply sameExports_refl|]. split; [reflexivity|].
    exists []. rewrite app_nil_r. repeat split; [cbn; lia | constructor]. }
  cbv zeta. destruct (isCancelled e (polls st)).
  { split; [apply sameExports_polled|]. split; [reflexivity|].
    exists []. cbn [polled heightmapFiles]. rewrite app_nil_r.
    repeat split; [cbn; lia | constructor]. }
  destruct (IH (writeHeightmap e (polled st) w)) as (S2 & M2 & fs & F2 & L2 & O2).
  assert (Hw : sameExports st (writeHeightmap e (polled st) w) /\
               manifest (writeHeightmap e (polled st) w) = manifest st /\
               exists f1, heightmapFiles (writeHeightmap e (polled st) w)
                          = heightmapFiles st ++ f1 /\ length f1 <= 1 /\
                          Forall (fileOf e st (w :: ws)) f1).
  { destruct (writeHeightmap_cases e (polled st) w)
      as [(path & data & Ew & ->)|[Ew ->]].
    - split; [repeat split; exists []; split;
              [now rewrite app_nil_r | constructor]|].
      split; [reflexivity|]. exists [(path, data)].
      repeat split; [cbn; lia|]. constructor; [|constructor].
      exists w. split; [now left | exact Ew].
    - split; [exact (sameExports_failed (polled st)
                       (Mark (markPath e) false
                          (Some (writeError e (withGlobalRange (polled st) w))))
                       eq_refl)|].
      split; [reflexivity|].
      exists []. cbn [addMark polled heightmapFiles]. rewrite app_nil_r.
      repeat split; [cbn; lia | constructor]. }
  destruct Hw as (S1 & M1 & f1 & F1 & L1 & O1).
  split; [exact (sameExports_trans _ _ _ S1 S2)|].
  split; [congruence|].
  exists (f1 ++ fs). split; [now rewrite F2, F1, app_assoc|].
  split; [rewrite length_app; cbn [length]; lia|].
  apply Forall_app. split; [exact O1|].
  destruct S1 as (_ & _ & N1 & X1 & _).
  eapply Forall_impl; [exact O2|].
  intros pd (w' & Hin & Ew'). exists w'. split; [now right|].
  now rewrite <- N1, <- X1.
Qed.

Lemma finalizeHeightmaps_any e st :
  manifest st = None ->
  let st' := finalizeHeightmaps e st in
  sameExports st st' /\
  (exists fs, heightmapFiles st' = heightmapFiles st ++ fs /\
              length fs <= length (r16Writers st) /\
              Forall (fileOf e st (r16Writers st)) fs) /\
  (r16Writers st = [] -> st' = st) /\
  forall m, manifest st' = Some m ->
    r16Writers st <> [] /\
    m = Metadata (length (r16Writers st)) (globalMinHeight st)
          (globalMaxHeight st) (globalMaxHeight st - globalMinHeight st)%float.
Proof.
  intros Hm. unfold finalizeHeightmaps. cbv zeta.
  destruct (r16Writers st) as [|w ws] eqn:Ew.
  { split; [apply sameExports_refl|]. split.
    - exists []. rewrite app_nil_r. repeat split; [cbn; lia | constructor].
    - split; [reflexivity|]. intros m E. congruence. }
  destruct (pass2_any e (w :: ws) st) as (S2 & M2 & fs & F2 & L2 & O2).
  cbv zeta in S2, M2, F2. set (st2 := pass2 e (w :: ws) st) in *.
  pose proof S2 as (A2 & W2 & N2 & X2 & _).
  unfold writeMetadata. destruct (ioOk e (metadataPath e)).
  - split.
    { eapply sameExports_trans; [exact S2|]. repeat split.
      exists []. split; [now rewrite app_nil_r | constructor]. }
    split; [exists fs; now repeat split|].
    split; [discriminate|].
    intros m E. cbn [manifest] in E. injection E as <-.
    split; [discriminate|]. now rewrite W2, N2, X2, Ew.
  - split.
    { eapply sameExports_trans; [exact S2|]. now apply sameExports_failed. }
    split; [exists fs; now repeat split|].
    split; [discriminate|].
    intros m E. cbn [addMark manifest] in E. congruence.
Qed.

Lemma exportTile_polls e st i index :
  polls (exportTile e st i index) = polls st.
Proof.
  unfold exportTile.
  destruct (locateGameObjects e (gameObjectsDB2 st) index) as [g db'].
  destruct (adtExport e i index g); [|reflexivity].
  now destruct (mapsExportHeightmap e).
Qed.

(** What the first pass adds, under any pattern of cancellation. *)
Lemma pass1_any e tiles i st :
  let st' := pass1 e tiles i st in
  exists xs ws,
    adtExports st' = adtExports st ++ xs /\
    r16Writers st' = r16Writers st ++ ws /\
    length ws <= length xs /\ length xs <= length tiles /\
    (mapsExportHeightmap e = false -> ws = []).
Proof.
  revert i st. induction tiles as [|index tiles IH]; intros i st; cbn [pass1].
  { exists [], []. rewrite !app_nil_r. repeat split; cbn; lia. }
  cbv zeta. destruct (isCancelled e (polls st)).
  { exists [], []. cbn [polled adtExports r16Writers]. rewrite !app_nil_r.
    repeat split; cbn; lia. }
  destruct (IH (S i) (exportTile e (polled st) i index))
    as (xs & ws & A & W & L1 & L2 & Hh).
  rewrite A, W. clear A W IH. unfold exportTile.
  destruct (locateGameObjects e (gameObjectsDB2 (polled st)) index) as [g db'].
  destruct (adtExport e i index g) as [o w|message].
  - destruct (mapsExportHeightmap e) eqn:Eh.
    + exists ((o, i) :: xs), (w :: ws). cbn. rewrite <- !app_assoc.
      split; [reflexivity|]. split; [reflexivity|].
      split; [lia|]. split; [lia | discriminate].
    + exists ((o, i) :: xs), ws. cbn. rewrite <- !app_assoc.
      split; [reflexivity|]. split; [reflexivity|].
      split; [lia|]. split; [lia | exact Hh].
  - exists xs, ws. cbn.
    split; [reflexivity|]. split; [reflexivity|].
    split; [lia|]. split; [lia | exact Hh].
Qed.

(** X16.  Whatever tiles fail and whenever the export is cancelled: at most
    one heightmap writer is kept per exported tile and none when heightmaps
    are switched off; at most one heightmap file is written per kept writer,
    and each written file holds the bytes of a kept writer under the global
    range, at that writer's path; the manifest is only written when a writer
    was kept, and then counts the kept writers and carries the global
    range; and the ADT cache is cleared. *)
Theorem heightmap_output_bounded (e : environment) (db : option objectIndex)
    (tiles : list nat) (final : job) :
  exportSelectedMap e db tiles = Some final ->
  length (heightmapFiles final) <= length (r16Writers final) /\
  length (r16Writers final) <= length (adtExports final) /\
  length (adtExports final) <= length tiles /\
  (forall path data, In (path, data) (heightmapFiles final) ->
     exists w, In w (r16Writers final) /\ out w = Some path /\
       r16Buffer (Writer (out w) (heightData w) (globalMinHeight final)
                    (globalMaxHeight final)) = Some data) /\
  (forall m, manifest final = Some m ->
     r16Writers final <> [] /\
     m = Metadata (length (r16Writers final)) (globalMinHeight final)
           (globalMaxHeight final)
           (globalMaxHeight final - globalMinHeight final)%float) /\
  (mapsExportHeightmap e = false ->
     r16Writers final = [] /\ heightmapFiles final = [] /\
     manifest final = None) /\
  cacheCleared final = true.
Proof.
  intros Hrun. destruct tiles as [|t tiles]; [discriminate|].
  assert (E : final = finish e (finalizeHeightmaps e
                                  (pass1 e (t :: tiles) 0 (initJob db))))
    by (unfold exportSelectedMap in Hrun; congruence).
  rewrite E. clear E Hrun final.
  set (st1 := pass1 e (t :: tiles) 0 (initJob db)).
  destruct (pass1_any e (t :: tiles) 0 (initJob db))
    as (xs & ws & A1 & W1 & L1 & L2 & Hh).
  destruct (pass1_files e (t :: tiles) 0 (initJob db)) as [F1 M1].
  fold st1 in A1, W1, F1, M1.
  cbn [initJob adtExports r16Writers heightmapFiles manifest app] in A1, W1, F1, M1.
  clearbody st1.
  destruct (finalizeHeightmaps_any e st1 M1)
    as ((A2 & W2 & N2 & X2 & _) & (fs & F2 & Lf & Of) & Hnil & Hman).
  set (st2 := finalizeHeightmaps e st1) in *.
  cbn [finish heightmapFiles r16Writers adtExports manifest globalMinHeight
       globalMaxHeight cacheCleared].
  rewrite F1 in F2. cbn [app] in F2.
  split; [rewrite F2, W2; exact Lf|].
  split; [rewrite W2, A2, W1, A1; exact L1|].
  split; [rewrite A2, A1; exact L2|].
  split.
  { intros path data Hin. rewrite F2 in Hin.
    rewrite Forall_forall in Of.
    destruct (Of (path, data)) as (w & Hw & Ew);
      [now apply list_elem_of_In|].
    exists w. split; [now rewrite W2|].
    unfold writtenFile in Ew. rewrite N2, X2.
    destruct (out w) as [p|]; [|discriminate].
    destruct (ioOk e p); [|discriminate].
    destruct (r16Buffer _) as [d|]; [|discriminate].
    injection Ew as -> ->. now split. }
  split.
  { intros m Em. destruct (Hman m Em) as [Hne ->].
    split; [now rewrite W2|]. now rewrite W2, N2, X2. }
  split; [|reflexivity].
  intros Hoff. assert (Ew : r16Writers st1 = []) by (rewrite W1; now apply Hh).
  assert (E2 : st2 = st1) by now apply Hnil.
  rewrite E2. now repeat split.
Qed.

Lemma heightmap_output_bounded_witness :
  exists final,
    exportSelectedMap threeTilesEnv None [2080; 2081; 2082] = Some final /\
    length (heightmapFiles final) <= length (r16Writers final) /\
    cacheCleared final = true.
Proof.
  eexists. split; [reflexivity|].
  destruct (heightmap_output_bounded threeTilesEnv None [2080; 2081; 2082] _
              eq_refl) as (H & _ & _ & _ & _ & _ & Hc).
  split; [exact H | exact Hc].
Defined.

(** *** The global range *)

(** The global range covers the range of every kept writer. *)
Definition covers (st : job) : Prop :=
  notNaN (globalMinHeight st) /\ notNaN (globalMaxHeight st) /\
  Forall (fun w => (globalMinHeight st <=? minHeight w)%float = true /\
                   (maxHeight w <=? globalMaxHeight st)%float = true)
    (r16Writers st).

Lemma keepWriter_covers st w :
  notNaN (minHeight w) -> notNaN (maxHeight w) ->
  covers st -> covers (keepWriter st w).
Proof.
  intros Hn Hx (Gn & Gx & Hall).
  destruct (min_step (globalMinHeight st) (minHeight w) Gn Hn) as (m1 & m2 & m3).
  destruct (max_step (globalMaxHeight st) (maxHeight w) Gx Hx) as (x1 & x2 & x3).
  unfold covers. cbn [keepWriter globalMinHeight globalMaxHeight r16Writers].
  split; [exact m3|]. split; [exact x3|].
  apply Forall_app. split.
  - eapply Forall_impl; [exact Hall|].
    intros w0 [H1 H2]. split.
    + eapply leb_trans; [exact m2 | exact H1].
    + eapply leb_trans; [exact H2 | exact x2].
  - repeat constructor; assumption.
Qed.

(** Every writer an export leaves has extrema that are numbers. *)
Definition numericExtrema (e : environment) : Prop :=
  forall i index g o w, adtExport e i index g = ExportOk o w ->
    notNaN (minHeight w) /\ notNaN (maxHeight w).

Lemma pass1_covers e tiles i st :
  numericExtrema e -> covers st -> covers (pass1 e tiles i st).
Proof.
  intros Hnum. revert i st.
  induction tiles as [|index tiles IH]; intros i st Hst; cbn [pass1];
    [exact Hst|].
  destruct (isCancelled e (polls st)); [exact Hst|].
  apply IH. unfold exportTile.
  destruct (locateGameObjects e (gameObjectsDB2 (polled st)) index) as [g db'].
  destruct (adtExport e i index g) as [o w|message] eqn:Ex; [|exact Hst].
  destruct (Hnum _ _ _ _ _ Ex) as [Hn Hx].
  destruct (mapsExportHeightmap e); [|exact Hst].
  apply (keepWriter_covers _ w Hn Hx) in Hst. exact Hst.
Qed.

(** X17.  When the writers the tile exports leave have extrema that are
    not NaN, the global range used for every heightmap and written to the
    manifest covers the range of every kept writer, whatever tiles fail and
    whenever the export is cancelled: the global minimum is at most every
    writer's [minHeight] and the global maximum at least every writer's
    [maxHeight]. *)
Theorem global_range_covers (e : environment) (db : option objectIndex)
    (tiles : list nat) (final : job) :
  numericExtrema e ->
  exportSelectedMap e db tiles = Some final ->
  (forall w, In w (r16Writers final) ->
     (globalMinHeight final <=? minHeight w)%float = true /\
     (maxHeight w <=? globalMaxHeight final)%float = true) /\
  (forall m w, manifest final = Some m -> In w (r16Writers final) ->
     (min_height m <=? minHeight w)%float = true /\
     (maxHeight w <=? max_height m)%float = true).
Proof.
  intros Hnum Hrun. destruct tiles as [|t tiles]; [discriminate|].
  assert (E : final = finish e (finalizeHeightmaps e
                                  (pass1 e (t :: tiles) 0 (initJob db))))
    by (unfold exportSelectedMap in Hrun; congruence).
  rewrite E. clear E Hrun final.
  assert (H1 : covers (pass1 e (t :: tiles) 0 (initJob db))).
  { apply pass1_covers; [exact Hnum|].
    split; [reflexivity|]. split; [reflexivity | constructor]. }
  destruct (pass1_files e (t :: tiles) 0 (initJob db)) as [_ M1].
  set (st1 := pass1 e (t :: tiles) 0 (initJob db)) in *. clearbody st1.
  destruct (finalizeHeightmaps_any e st1 M1)
    as ((_ & W2 & N2 & X2 & _) & _ & _ & Hman).
  set (st2 := finalizeHeightmaps e st1) in *.
  cbn [finish r16Writers globalMinHeight globalMaxHeight manifest].
  destruct H1 as (_ & _ & Hall). rewrite Forall_forall in Hall.
  assert (Hcov : forall w, In w (r16Writers st2) ->
            (globalMinHeight st2 <=? minHeight w)%float = true /\
            (maxHeight w <=? globalMaxHeight st2)%float = true).
  { intros w Hw. rewrite W2 in Hw. rewrite N2, X2.
    now apply Hall, list_elem_of_In. }
  split; [exact Hcov|].
  intros m w Em Hw. destruct (Hman m Em) as [_ ->].
  cbn [min_height max_height]. rewrite <- N2, <- X2. now apply Hcov.
Qed.

Lemma threeTilesEnv_numeric : numericExtrema threeTilesEnv.
Proof.
  intros i index g o w. cbn [threeTilesEnv adtExport].
  destruct i as [|[|i]]; intros E; try discriminate;
    injection E as _ <-; split; reflexivity.
Qed.

Lemma global_range_covers_witness :
  exists final,
    exportSelectedMap threeTilesEnv None [2080; 2081; 2082] = Some final /\
    forall w, In w (r16Writers final) ->
      (globalMinHeight final <=? minHeight w)%float = true /\
      (maxHeight w <=? globalMaxHeight final)%float = true.
Proof.
  eexists. split; [reflexivity|].
  exact (proj1 (global_range_covers threeTilesEnv None [2080; 2081; 2082] _
                  threeTilesEnv_numeric eq_refl)).
Defined.

(** *** Cancellation during the first pass *)

(** The environment that agrees with [e] except that nobody cancels. *)
Definition neverCancelled (e : environment) : environment :=
  Environment (mapsIncludeGameObjects e) (mapsExportHeightmap e)
    (exportPathsOpen e) (selectedMapID e) (selectedMapDir e) (dir e)
    (TILE_SIZE e) (MAP_OFFSET e) (objTable e) (idTable e) (tileX e) (tileY e)
    (adtExport e) (fun _ => false) (ioOk e) (writeError e) (metadataError e).

Lemma successes_neverCancelled e tiles i :
  successes (neverCancelled e) tiles i = successes e tiles i.
Proof.
  revert i. induction tiles as [|index tiles IH]; intros i; [reflexivity|].
  cbn [successes]. rewrite !IH. reflexivity.
Qed.

Lemma tileMarks_neverCancelled e tiles i :
  tileMarks (neverCancelled e) tiles i = tileMarks e tiles i.
Proof.
  revert i. induction tiles as [|index tiles IH]; intros i; [reflexivity|].
  cbn [tileMarks]. rewrite IH. reflexivity.
Qed.

Lemma pass1_uncancelled e tiles i st :
  (forall n, n < length tiles -> isCancelled e (polls st + n) = false) ->
  pass1 e tiles i st = pass1 (neverCancelled e) tiles i st.
Proof.
  revert i st. induction tiles as [|index tiles IH]; intros i st Hc;
    [reflexivity|].
  cbn [pass1]. pose proof (Hc 0) as H0. rewrite Nat.add_0_r in H0.
  rewrite H0 by (cbn; lia). cbn [neverCancelled isCancelled].
  change (exportTile (neverCancelled e) (polled st) i index)
    with (exportTile e (polled st) i index).
  apply IH. intros n Hn. rewrite exportTile_polls. cbn [polled polls].
  replace (S (polls st) + n) with (polls st + S n) by lia.
  apply Hc. cbn. lia.
Qed.

Lemma pass1_cancelled_at e tiles i st k :
  k < length tiles ->
  (forall n, n < k -> isCancelled e (polls st + n) = false) ->
  isCancelled e (polls st + k) = true ->
  pass1 e tiles i st = polled (pass1 e (take k tiles) i st).
Proof.
  revert i st k. induction tiles as [|index tiles IH]; intros i st k Hk Hc Hk';
    [cbn in Hk; lia|].
  destruct k as [|k].
  - rewrite Nat.add_0_r in Hk'. cbn [pass1 take]. now rewrite Hk'.
  - pose proof (Hc 0) as H0. rewrite Nat.add_0_r in H0.
    cbn [pass1 take]. rewrite H0 by lia.
    apply IH.
    + cbn in Hk. lia.
    + intros n Hn. rewrite exportTile_polls. cbn [polled polls].
      replace (S (polls st) + n) with (polls st + S n) by lia.
      apply Hc. lia.
    + rewrite exportTile_polls. cbn [polled polls].
      replace (S (polls st) + k) with (polls st + S k) by lia. exact Hk'.
Qed.

(** X18.  If the export is cancelled when the first loop reaches the tile
    at position [k] (the first [k] calls of [helper.isCancelled()] answer
    false, the next one true), the tiles from position [k] on are never
    exported: the descriptors, the marks of the first pass, the kept
    writers and the export-path log cover exactly the first [k] tiles, as
    in an export of these tiles alone; marks added later are failures.  If
    no writer was kept, which is the case for [k = 0], no heightmap and no
    manifest is written. *)
Theorem cancel_during_pass1 (e : environment) (db : option objectIndex)
    (tiles : list nat) (k : nat) :
  dbOk e db -> k < length tiles ->
  (forall n, n < k -> isCancelled e n = false) -> isCancelled e k = true ->
  let done := take k tiles in
  let ok := successes e done 0 in
  exists final,
    exportSelectedMap e db tiles = Some final /\
    adtExports final = map fst ok /\
    r16Writers final = keptWriters e done 0 /\
    (exists later, marks final = tileMarks e done 0 ++ later
                   /\ failedMarks later) /\
    exportPathLines final
    = (if exportPathsOpen e
       then map (fun s => exportLine (fst (fst s))) ok else []) /\
    (keptWriters e done 0 = [] ->
     heightmapFiles final = [] /\ manifest final = None /\
     marks final = tileMarks e done 0).
Proof.
  intros Hdb Hk Hc Hk' done ok.
  destruct tiles as [|t tiles]; [cbn in Hk; lia|].
  exists (finish e (finalizeHeightmaps e
                      (pass1 e (t :: tiles) 0 (initJob db)))).
  split; [reflexivity|].
  assert (E1 : pass1 e (t :: tiles) 0 (initJob db)
               = polled (pass1 (neverCancelled e) done 0 (initJob db))).
  { rewrite (pass1_cancelled_at e (t :: tiles) 0 (initJob db) k Hk);
      [|exact Hc | exact Hk'].
    f_equal. apply pass1_uncancelled.
    intros n Hn. apply Hc. unfold done in Hn.
    rewrite length_take in Hn. cbn [initJob polls]. lia. }
  destruct (pass1_spec (neverCancelled e) done 0 (initJob db))
    as (A1 & M1 & W1 & _); [reflexivity | exact Hdb |].
  destruct (pass1_files (neverCancelled e) done 0 (initJob db)) as [F1 N1].
  unfold keptWriters in W1. cbn [neverCancelled mapsExportHeightmap] in W1.
  rewrite successes_neverCancelled in A1, W1.
  rewrite tileMarks_neverCancelled in M1.
  fold ok in A1. fold (keptWriters e done 0) in W1.
  cbn [initJob adtExports marks r16Writers heightmapFiles manifest app]
    in A1, M1, W1, F1, N1.
  rewrite E1.
  set (st1 := polled (pass1 (neverCancelled e) done 0 (initJob db))) in *.
  assert (N1' : manifest st1 = None) by exact N1.
  destruct (finalizeHeightmaps_any e st1 N1')
    as ((A2 & W2 & _ & _ & later & M2 & L2) & _ & Hnil & _).
  cbn [finish adtExports r16Writers marks exportPathLines heightmapFiles
       manifest].
  split; [rewrite A2; exact A1|].
  split; [rewrite W2; exact W1|].
  split; [exists later; split; [rewrite M2; f_equal; exact M1 | exact L2]|].
  split; [rewrite A2; unfold st1; cbn [polled adtExports];
          rewrite A1, map_map; reflexivity|].
  intros Hnone. rewrite Hnil by (unfold st1; cbn [polled r16Writers]; congruence).
  unfold st1. cbn [polled heightmapFiles manifest marks]. now repeat split.
Qed.

Lemma cancel_during_pass1_witness :
  exists final,
    exportSelectedMap cancelEnv None [2080; 2081] = Some final /\
    adtExports final = map fst (successes cancelEnv (take 1 [2080; 2081]) 0).
Proof.
  destruct (cancel_during_pass1 cancelEnv None [2080; 2081] 1)
    as (final & E & A & _).
  - now left.
  - cbn. lia.
  - intros [|n] Hn; [reflexivity | lia].
  - reflexivity.
  - exists final. split; [exact E | exact A].
Defined.

(** *** The index is built once *)

(** The environment with other tables. *)
Definition withTables (e : environment) (objs : list gameObject)
    (ids : gmap nat nat) : environment :=
  Environment (mapsIncludeGameObjects e) (mapsExportHeightmap e)
    (exportPathsOpen e) (selectedMapID e) (selectedMapDir e) (dir e)
    (TILE_SIZE e) (MAP_OFFSET e) objs ids (tileX e) (tileY e)
    (adtExport e) (isCancelled e) (ioOk e) (writeError e) (metadataError e).

Lemma exportTile_indexed e objs ids st i index idx :
  gameObjectsDB2 st = Some idx ->
  exportTile (withTables e objs ids) st i index = exportTile e st i index /\
  gameObjectsDB2 (exportTile e st i index) = Some idx.
Proof.
  intros Hdb. unfold exportTile, locateGameObjects, collectGameObjects.
  rewrite Hdb. cbn [withTables mapsIncludeGameObjects].
  destruct (mapsIncludeGameObjects e).
  - change (inTile (withTables e objs ids) index) with (inTile e index).
    cbn [withTables selectedMapID adtExport mapsExportHeightmap].
    split; [reflexivity|].
    destruct (adtExport e i index _); [|reflexivity].
    now destruct (mapsExportHeightmap e).
  - cbn [withTables adtExport mapsExportHeightmap].
    split; [reflexivity|].
    destruct (adtExport e i index None); [|reflexivity].
    now destruct (mapsExportHeightmap e).
Qed.

Lemma pass1_indexed e objs ids tiles i st idx :
  gameObjectsDB2 st = Some idx ->
  pass1 (withTables e objs ids) tiles i st = pass1 e tiles i st /\
  gameObjectsDB2 (pass1 e tiles i st) = Some idx.
Proof.
  revert i st. induction tiles as [|index tiles IH]; intros i st Hdb;
    [now split|].
  cbn [pass1]. cbn [withTables isCancelled].
  destruct (isCancelled e (polls st)); [now split|].
  destruct (exportTile_indexed e objs ids (polled st) i index idx Hdb)
    as [-> Hdb'].
  now apply IH.
Qed.

Lemma pass2_tables e objs ids ws st :
  pass2 (withTables e objs ids) ws st = pass2 e ws st /\
  gameObjectsDB2 (pass2 e ws st) = gameObjectsDB2 st.
Proof.
  revert st. induction ws as [|w ws IH]; intros st; [now split|].
  cbn [pass2]. cbn [withTables isCancelled].
  destruct (isCancelled e (polls st)); [now split|].
  change (writeHeightmap (withTables e objs ids) (polled st) w)
    with (writeHeightmap e (polled st) w).
  destruct (IH (writeHeightmap e (polled st) w)) as [-> ->].
  split; [reflexivity|].
  unfold writeHeightmap. now destruct (write _ _ _ _).
Qed.

(** X19.  The index of game objects is built at most once: an export that
    starts with an index never reads GameObjects.db2 or
    GameObjectDisplayInfo.db2 again.  Whatever the two tables hold by
    then, the export does the same as with the tables the index was built
    from, and it leaves the index as it was. *)
Theorem index_never_rebuilt (e : environment) (idx : objectIndex)
    (objs : list gameObject) (ids : gmap nat nat) (tiles : list nat) :
  exportSelectedMap (withTables e objs ids) (Some idx) tiles
  = exportSelectedMap e (Some idx) tiles /\
  forall final, exportSelectedMap e (Some idx) tiles = Some final ->
                gameObjectsDB2 final = Some idx.
Proof.
  destruct tiles as [|t tiles]; [split; [reflexivity | discriminate]|].
  unfold exportSelectedMap.
  destruct (pass1_indexed e objs ids (t :: tiles) 0 (initJob (Some idx)) idx
              eq_refl) as [E1 Hdb].
  rewrite E1.
  set (st1 := pass1 e (t :: tiles) 0 (initJob (Some idx))) in *.
  clearbody st1.
  assert (E2 : finalizeHeightmaps (withTables e objs ids) st1
               = finalizeHeightmaps e st1 /\
               gameObjectsDB2 (finalizeHeightmaps e st1) = Some idx).
  { unfold finalizeHeightmaps. destruct (r16Writers st1) as [|w ws];
      [now split|].
    destruct (pass2_tables e objs ids (w :: ws) st1) as [-> Hdb2].
    change (writeMetadata (withTables e objs ids)) with (writeMetadata e).
    split; [reflexivity|].
    unfold writeMetadata.
    destruct (ioOk e (metadataPath e)); cbn [gameObjectsDB2 addMark];
      congruence. }
  destruct E2 as [-> Hdb2].
  split; [reflexivity|].
  intros final E. injection E as <-. exact Hdb2.
Qed.

End TabMapsMore.

From Stdlib Require Import DecimalNat DecimalFacts.
From stdpp Require Import sorting.

(** ** tab-maps: the map list, the map viewer and the world model export *)

Module MapViewer.
Import TabMaps.

(** *** The entries of the map list *)

(** The character with code 25: [\x19] in the format string of the list
    entries, and [\31] (an octal escape, as the expression has only three
    groups) in the regular expression of [parseMapEntry]. *)
Definition sep : ascii := ascii_of_nat 25.

(** [%d] of [util.format] for a non-negative integer. *)
Definition decimal (n : nat) : string :=
  NilEmpty.string_of_uint (Nat.to_uint n).

(** A row of Map.db2 as the code uses it. *)
Record mapRow : Type := MapRow {
  ExpansionID : nat;
  MapName_lang : string;
  Directory : string
}.

(** [util.format('%d\x19[%d]\x19%s\x19(%s)', ExpansionID, id, MapName_lang,
    Directory)] (line 375). *)
Definition mapListEntry (expansionID id : nat) (name directory : string)
    : string :=
  (decimal expansionID
   ++ String sep ("[" ++ decimal id ++ "]"
   ++ String sep (name
   ++ String sep ("(" ++ directory ++ ")"))))%string.

(** [util.format('world/maps/%s/%s.wdt', d, d)] *)
Definition wdtPathOf (d : string) : string :=
  ("world/maps/" ++ d ++ "/" ++ d ++ ".wdt")%string.

(** A number used as a condition: [undefined] and 0 are falsy. *)
Definition truthyID (x : option nat) : bool :=
  match x with
  | Some n => negb (n =? 0)
  | None => false
  end.

(** The list built by the ['screen-tab-maps'] handler (lines 371-376) from
    the rows of Map.db2, given [listfile.getByFilename]. *)
Definition listMaps (getByFilename : string -> option nat)
    (table : list (nat * mapRow)) : list string :=
  map (fun r => mapListEntry (ExpansionID (snd r)) (fst r)
                  (MapName_lang (snd r)) (Directory (snd r)))
    (List.filter
       (fun r => truthyID (getByFilename (wdtPathOf (Directory (snd r)))))
       table).

(** *** parseMapEntry *)

(** The longest prefix of characters of a class, and the rest: what a
    greedy [+] takes when the next item of the expression cannot match a
    character of the class, so that giving characters back never helps. *)
Fixpoint span (p : ascii -> bool) (s : string) : string * string :=
  match s with
  | String c s' =>
      if p c then let '(a, b) := span p s' in (String c a, b)
      else (EmptyString, s)
  | EmptyString => (EmptyString, EmptyString)
  end.

(** [\d] *)
Definition isDigit (c : ascii) : bool :=
  (48 <=? nat_of_ascii c) && (nat_of_ascii c <=? 57).

(** [[^\31]] and [[^)]] *)
Definition notSep (c : ascii) : bool := negb (Ascii.eqb c sep).
Definition notClose (c : ascii) : bool := negb (Ascii.eqb c ")").

(** A match of [/\[(\d+)\]\31([^\31]+)\31\(([^)]+)\)/] that starts at the
    first character of [s]: the three groups. *)
Definition matchAt (s : string) : option (string * string * string) :=
  match s with
  | String c0 s1 =>
      if Ascii.eqb c0 "[" then
        let '(digits, s2) := span isDigit s1 in
        if String.eqb digits "" then None
        else
          match s2 with
          | String c1 (String c2 s3) =>
              if Ascii.eqb c1 "]" && Ascii.eqb c2 sep then
                let '(name, s4) := span notSep s3 in
                if String.eqb name "" then None
                else
                  match s4 with
                  | String c3 (String c4 s5) =>
                      if Ascii.eqb c3 sep && Ascii.eqb c4 "(" then
                        let '(dir, s6) := span notClose s5 in
                        if String.eqb dir "" then None
                        else
                          match s6 with
                          | String c5 _ =>
                              if Ascii.eqb c5 ")"
                              then Some (digits, name, dir) else None
                          | EmptyString => None
                          end
                      else None
                  | _ => None
                  end
              else None
          | _ => None
          end
      else None
  | EmptyString => None
  end.

(** [entry.match(...)]: the match at the leftmost position that has one. *)
Fixpoint search (s : string) : option (string * string * string) :=
  match matchAt s with
  | Some groups => Some groups
  | None =>
      match s with
      | String _ s' => search s'
      | EmptyString => None
      end
  end.

(** [parseInt] of a string of decimal digits.  JavaScript returns a
    binary64 number, which is the integer written as long as that is below
    2^53, and the nearest number above; the strings parsed here are the
    identifiers of Map.db2, 32-bit integers, for which the result is exact,
    so the integer is used. *)
Definition parseInt (digits : string) : nat :=
  match NilEmpty.uint_of_string digits with
  | Some d => Nat.of_uint d
  | None => 0
  end.

Record mapEntry : Type := MapEntry {
  entryId : nat;
  entryName : string;
  entryDir : string
}.

(** [parseMapEntry(entry)]; [None] when it throws 'Unexpected map entry'. *)
Definition parseMapEntry (entry : string) : option mapEntry :=
  match search entry with
  | Some (digits, name, dir) => Some (MapEntry (parseInt digits) name dir)
  | None => None
  end.

(** *** loadMap *)

(** [wdt.worldModelPlacement], of which [id] and [doodadSetIndex] are used. *)
Record placement : Type := Placement {
  placementId : nat;
  doodadSetIndex : nat
}.

(** A [WDTLoader] instance as the code uses it; [worldModelPlacement] and
    [worldModel] are [None] where the property is undefined. *)
Record wdt : Type := WDT {
  worldModelPlacement : option placement;
  worldModel : option string;
  tiles : list bool
}.

(** What [new WDTLoader(data)] followed by [wdt.load()] comes to: the
    loaded instance, or the instance in the state in which [load] threw. *)
Inductive wdtLoad : Type :=
  | Loaded (w : wdt)
  | LoadThrows (partial : wdt).

(** The module variables [selectedMapID], [selectedMapDir], [selectedWDT]
    and the fields of [core.view] that the map viewer uses. *)
Record viewer : Type := Viewer {
  vSelectedMapID : option nat;
  vSelectedMapDir : option string;
  vSelectedWDT : option wdt;
  mapViewerHasWorldModel : bool;
  mapViewerChunkMask : option (list bool);
  mapViewerSelection : list nat;
  mapViewerSelectedMap : option nat;
  mapViewerSelectedDir : option string
}.

(** What the map viewer takes from outside: [String.prototype.toLowerCase],
    and [casc.getFileByName] followed by the WDT loader ([None] when the
    file cannot be read). *)
Record storage : Type := Storage {
  toLowerCase : string -> string;
  openWDT : string -> option wdtLoad
}.

(** [loadMap(mapID, mapDir)] *)
Definition loadMap (s : storage) (v : viewer) (mapID : nat) (mapDir : string)
    : viewer :=
  let mapDirLower := toLowerCase s mapDir in
  let wdtPath := wdtPathOf mapDirLower in
  let '(selectedWDT, hasWorldModel, chunkMask) :=
    match openWDT s wdtPath with
    | Some (Loaded w) =>
        (Some w,
         match worldModelPlacement w with Some _ => true | None => false end,
         Some (tiles w))
    | Some (LoadThrows partial) => (Some partial, false, None)
    | None => (None, false, None)
    end in
  Viewer (Some mapID) (Some mapDirLower) selectedWDT hasWorldModel chunkMask
    [] (Some mapID) (Some mapDir).

(** A string used as a condition: [undefined] and the empty string are
    falsy. *)
Definition truthyString (x : option string) : option string :=
  match x with
  | Some s => if String.eqb s "" then None else Some s
  | None => None
  end.

(** The body of the watcher of [selectionMaps] (lines 389-398); [None] when
    [parseMapEntry] throws. *)
Definition onSelectionChanged (s : storage) (v : viewer) (isBusy : nat)
    (selection : list string) : option viewer :=
  match truthyString (head selection) with
  | Some first =>
      if isBusy =? 0 then
        match parseMapEntry first with
        | Some map =>
            match vSelectedMapID v with
            | Some current =>
                if current =? entryId map then Some v
                else Some (loadMap s v (entryId map) (entryDir map))
            | None => Some (loadMap s v (entryId map) (entryDir map))
            end
        | None => None
        end
      else Some v
  | None => Some v
  end.

(** *** loadMapTile *)

(** [x.toString().padStart(2, '0')] *)
Definition padStart2 (s : string) : string :=
  match String.length s with
  | 0 => "00"
  | 1 => ("0" ++ s)%string
  | _ => s
  end.

(** [util.format('world/minimaps/%s/map%s_%s.blp', selectedMapDir, paddedX,
    paddedY)] *)
Definition tilePath (mapDir : string) (x y : nat) : string :=
  ("world/minimaps/" ++ mapDir ++ "/map" ++ padStart2 (decimal x)
   ++ "_" ++ padStart2 (decimal y) ++ ".blp")%string.

(** [loadMapTile(x, y, size)]: [fetch path size] stands for reading the
    BLP file and scaling it, [None] when any of that throws; the result
    [None] is the [false] the function returns. *)
Definition loadMapTile {image : Type} (fetch : string -> nat -> option image)
    (v : viewer) (x y size : nat) : option image :=
  match truthyString (vSelectedMapDir v) with
  | Some mapDir => fetch (tilePath mapDir x y) size
  | None => None
  end.

(** *** exportSelectedMapWMO *)

(** What the export of the world model takes from outside: the listfile,
    the two functions of [ExportHelper] on paths, the error [casc.getFile]
    throws for a file (if any), the error [wmo.exportAsOBJ] throws for a
    file, a doodad set and a path (if any), and the answer of
    [helper.isCancelled()]. *)
Record wmoEnvironment : Type := WmoEnvironment {
  getByFilename : string -> option nat;
  getByID : nat -> option string;
  getExportPath : string -> string;
  replaceExtension : string -> string -> string;
  getFileError : nat -> option string;
  exportError : nat -> nat -> string -> option string;
  wmoCancelled : bool
}.

(** What [exportSelectedMapWMO] has done: the call of [wmo.exportAsOBJ]
    (file, doodad set, path), the calls of [helper.mark], and whether
    [WMOExporter.clearCache()] and [helper.finish()] were reached. *)
Record wmoJob : Type := WmoJob {
  exportedOBJ : option (nat * nat * string);
  wmoMarks : list mark;
  wmoCacheCleared : bool;
  wmoFinished : bool
}.

(** The [catch] block and what follows it. *)
Definition wmoFailed (exported : option (nat * nat * string))
    (message : string) : wmoJob :=
  WmoJob exported [Mark "world model" false (Some message)] true true.

(** Lines 172-188: the file to export and its name, or the error thrown. *)
Definition worldModelFile (e : wmoEnvironment) (w : wdt) (p : placement)
    : nat * string + string :=
  match truthyString (worldModel w) with
  | Some fileName =>
      match getByFilename e fileName with
      | Some (S n) => inl (S n, fileName)
      | _ => inr ("Invalid world model path: " ++ fileName)%string
      end
  | None =>
      if placementId p =? 0
      then inr "Map does not define a valid world model."%string
      else
        inl (placementId p,
             match truthyString (getByID e (placementId p)) with
             | Some fileName => fileName
             | None =>
                 ("unknown_" ++ decimal (placementId p) ++ ".wmo")%string
             end)
  end.

(** [exportSelectedMapWMO()] *)
Definition exportSelectedMapWMO (e : wmoEnvironment) (selectedWDT : option wdt)
    : wmoJob :=
  match selectedWDT with
  | Some w =>
      match worldModelPlacement w with
      | Some p =>
          match worldModelFile e w p with
          | inl (fileDataID, fileName) =>
              let exportPath :=
                replaceExtension e (getExportPath e fileName) ".obj" in
              match getFileError e fileDataID with
              | Some message => wmoFailed None message
              | None =>
                  let call := (fileDataID, doodadSetIndex p, exportPath) in
                  match exportError e fileDataID (doodadSetIndex p) exportPath with
                  | Some message => wmoFailed (Some call) message
                  | None =>
                      if wmoCancelled e then WmoJob (Some call) [] false false
                      else WmoJob (Some call) [Mark fileName true None]
                             true true
                  end
              end
          | inr message => wmoFailed None message
          end
      | None => wmoFailed None "Map does not contain a world model."
      end
  | None => wmoFailed None "Map does not contain a world model."
  end.

End MapViewer.

(** ** Properties of the map list, the map viewer and the world model
    export *)

Module MapViewerProofs.
Import TabMaps MapViewer.

(** *** Strings of one class of characters *)

Fixpoint allChars (p : ascii -> bool) (s : string) : bool :=
  match s with
  | String c s' => p c && allChars p s'
  | EmptyString => true
  end.

(** The string is empty or starts with a character outside the class. *)
Definition stopsAt (p : ascii -> bool) (s : string) : Prop :=
  match s with
  | String c _ => p c = false
  | EmptyString => True
  end.

Lemma span_app p a rest :
  allChars p a = true -> stopsAt p rest ->
  span p (a ++ rest)%string = (a, rest).
Proof.
  intros Ha Hrest. induction a as [|c a IH]; simpl in *.
  - destruct rest as [|c rest]; [reflexivity|].
    simpl in *. now rewrite Hrest.
  - apply andb_prop in Ha as [Hc Ha]. now rewrite Hc, IH.
Qed.

Lemma allChars_impl (p q : ascii -> bool) s :
  (forall c, p c = true -> q c = true) ->
  allChars p s = true -> allChars q s = true.
Proof.
  intros Hpq. induction s as [|c s IH]; cbn [allChars]; [reflexivity|].
  intros [Hc Hs]%andb_prop. now rewrite (Hpq c Hc), IH.
Qed.

Lemma uint_digits d : allChars isDigit (NilEmpty.string_of_uint d) = true.
Proof. induction d; cbn [NilEmpty.string_of_uint allChars]; now rewrite ?IHd. Qed.

Lemma decimal_digits n : allChars isDigit (decimal n) = true.
Proof. apply uint_digits. Qed.

Lemma to_uint_nonnil n : Nat.to_uint n <> Decimal.Nil.
Proof.
  rewrite <- (Unsigned.of_to n) at 1. rewrite Unsigned.to_of.
  apply unorm_nonnil.
Qed.

Lemma decimal_nonempty n : String.eqb (decimal n) "" = false.
Proof.
  unfold decimal. pose proof (to_uint_nonnil n) as H.
  destruct (Nat.to_uint n); [now destruct H | reflexivity ..].
Qed.

Lemma parseInt_decimal n : parseInt (decimal n) = n.
Proof.
  unfold parseInt, decimal. rewrite NilEmpty.usu. apply Unsigned.of_to.
Qed.

(** *** The match of a list entry *)

Definition notOpen (c : ascii) : bool := negb (Ascii.eqb c "[").

Lemma matchAt_notOpen c s : notOpen c = true -> matchAt (String c s) = None.
Proof.
  unfold notOpen. cbn [matchAt]. now destruct (Ascii.eqb c "[").
Qed.

Lemma search_cons c s :
  search (String c s)
  = match matchAt (String c s) with
    | Some groups => Some groups
    | None => search s
    end.
Proof. reflexivity. Qed.

Lemma search_skip pre s :
  allChars notOpen pre = true -> search (pre ++ s)%string = search s.
Proof.
  induction pre as [|c pre IH]; [reflexivity|].
  cbn [allChars]. intros [Hc Hpre]%andb_prop.
  change (String c pre ++ s)%string with (String c (pre ++ s)).
  rewrite search_cons, (matchAt_notOpen c _ Hc). now apply IH.
Qed.

Lemma isDigit_notOpen c : isDigit c = true -> notOpen c = true.
Proof.
  unfold notOpen. destruct (Ascii.eqb_spec c "[") as [->|]; [|reflexivity].
  intros H. vm_compute in H. discriminate.
Qed.

(** A string that can be a group of the expression. *)
Definition groupOf (p : ascii -> bool) (s : string) : Prop :=
  String.eqb s "" = false /\ allChars p s = true.

Lemma matchAt_entry id name dir :
  groupOf notSep name -> groupOf notClose dir ->
  matchAt ("[" ++ decimal id ++ "]"
           ++ String sep (name ++ String sep ("(" ++ dir ++ ")")))%string
  = Some (decimal id, name, dir).
Proof.
  intros [Hn1 Hn2] [Hd1 Hd2].
  change ("[" ++ decimal id ++ "]"
          ++ String sep (name ++ String sep ("(" ++ dir ++ ")")))%string
    with (String "[" (decimal id ++ String "]"
            (String sep (name ++ String sep
               (String "(" (dir ++ String ")" ""))))))%string.
  cbn [matchAt]. change (Ascii.eqb "[" "[") with true. cbv iota.
  rewrite (span_app isDigit) by (try apply decimal_digits; reflexivity).
  rewrite decimal_nonempty.
  change (Ascii.eqb "]" "]" && Ascii.eqb sep sep) with true. cbv iota.
  rewrite (span_app notSep) by (try exact Hn2; reflexivity).
  rewrite Hn1.
  change (Ascii.eqb sep sep && Ascii.eqb "(" "(") with true. cbv iota.
  rewrite (span_app notClose) by (try exact Hd2; reflexivity).
  rewrite Hd1. reflexivity.
Qed.

Lemma search_entry expansionID id name dir :
  groupOf notSep name -> groupOf notClose dir ->
  search (mapListEntry expansionID id name dir)
  = Some (decimal id, name, dir).
Proof.
  intros Hn Hd. unfold mapListEntry.
  rewrite search_skip
    by (apply (allChars_impl isDigit); [apply isDigit_notOpen |
                                         apply decimal_digits]).
  rewrite search_cons, (matchAt_notOpen sep) by reflexivity.
  pose proof (matchAt_entry id name dir Hn Hd) as Hm.
  destruct ("[" ++ decimal id ++ "]" ++ String sep
              (name ++ String sep ("(" ++ dir ++ ")")))%string eqn:E;
    [discriminate|].
  now rewrite search_cons, Hm.
Qed.

Lemma parseMapEntry_entry expansionID id name dir :
  groupOf notSep name -> groupOf notClose dir ->
  parseMapEntry (mapListEntry expansionID id name dir)
  = Some (MapEntry id name dir).
Proof.
  intros Hn Hd. unfold parseMapEntry.
  now rewrite (search_entry expansionID id name dir Hn Hd), parseInt_decimal.
Qed.

(** X20.  A list entry parses back to what it was made from: for a map
    with a non-empty name that has no character of code 25 and a non-empty
    directory that has no closing parenthesis, [parseMapEntry] of the entry
    the ['screen-tab-maps'] handler formats returns the map's identifier,
    name and directory, whatever the expansion.  So every entry of the list
    built from such rows of Map.db2 parses to a row of the table whose WDT
    file is in the listfile. *)
Theorem parseMapEntry_round_trip (expansionID id : nat) (name dir : string) :
  groupOf notSep name -> groupOf notClose dir ->
  parseMapEntry (mapListEntry expansionID id name dir)
  = Some (MapEntry id name dir) /\
  forall getByFilename table entry,
    Forall (fun r => groupOf notSep (MapName_lang (snd r)) /\
                     groupOf notClose (Directory (snd r))) table ->
    In entry (listMaps getByFilename table) ->
    exists r, In r table /\
      parseMapEntry entry
      = Some (MapEntry (fst r) (MapName_lang (snd r)) (Directory (snd r))) /\
      truthyID (getByFilename (wdtPathOf (Directory (snd r)))) = true.
Proof.
  pose proof parseMapEntry_entry as G.
  intros Hn Hd. split; [now apply G|].
  intros g table entry Hall Hin. unfold listMaps in Hin.
  apply in_map_iff in Hin as (r & <- & Hr).
  apply filter_In in Hr as [Hr Hg].
  rewrite Forall_forall in Hall.
  destruct (Hall r) as [H1 H2]; [now apply list_elem_of_In|].
  exists r. split; [exact Hr|]. split; [now apply G | exact Hg].
Qed.

Lemma parseMapEntry_round_trip_witness :
  parseMapEntry (mapListEntry 2 530 "Outland" "Expansion01")
  = Some (MapEntry 530 "Outland" "Expansion01").
Proof.
  apply (parseMapEntry_round_trip 2 530 "Outland" "Expansion01");
    split; reflexivity.
Defined.

(** *** What a parsed entry looks like *)

Lemma span_spec p s a b :
  span p s = (a, b) -> s = (a ++ b)%string /\ allChars p a = true.
Proof.
  revert a b. induction s as [|c s IH]; intros a b; cbn [span].
  { intros [= <- <-]. now split. }
  destruct (p c) eqn:Hc; [|intros [= <- <-]; now split].
  destruct (span p s) as [a' b'] eqn:E. intros [= <- <-].
  destruct (IH a' b' eq_refl) as [-> Ha]. cbn [allChars].
  rewrite Hc, Ha. now split.
Qed.

Lemma matchAt_sound s digits name dir :
  matchAt s = Some (digits, name, dir) ->
  groupOf isDigit digits /\ groupOf notSep name /\ groupOf notClose dir /\
  exists rest,
    s = ("[" ++ digits ++ "]"
         ++ String sep (name ++ String sep ("(" ++ dir ++ ")" ++ rest)))%string.
Proof.
  destruct s as [|c0 s1]; [discriminate|]. cbn [matchAt].
  destruct (Ascii.eqb_spec c0 "[") as [->|_]; [|discriminate].
  destruct (span isDigit s1) as [ds s2] eqn:E1.
  destruct (String.eqb ds "") eqn:N1; [discriminate|].
  destruct s2 as [|c1 [|c2 s3]]; try discriminate.
  destruct (Ascii.eqb_spec c1 "]") as [->|_]; [|discriminate].
  destruct (Ascii.eqb_spec c2 sep) as [->|_]; [|discriminate].
  cbn [andb].
  destruct (span notSep s3) as [nm s4] eqn:E2.
  destruct (String.eqb nm "") eqn:N2; [discriminate|].
  destruct s4 as [|c3 [|c4 s5]]; try discriminate.
  destruct (Ascii.eqb_spec c3 sep) as [->|_]; [|discriminate].
  destruct (Ascii.eqb_spec c4 "(") as [->|_]; [|discriminate].
  cbn [andb].
  destruct (span notClose s5) as [dr s6] eqn:E3.
  destruct (String.eqb dr "") eqn:N3; [discriminate|].
  destruct s6 as [|c5 rest]; [discriminate|].
  destruct (Ascii.eqb_spec c5 ")") as [->|_]; [|discriminate].
  intros [= <- <- <-].
  apply span_spec in E1 as [-> A1], E2 as [-> A2], E3 as [-> A3].
  repeat split; try assumption.
  exists rest. reflexivity.
Qed.

Lemma search_sound s g :
  search s = Some g -> exists pre s', s = (pre ++ s')%string /\ matchAt s' = Some g.
Proof.
  induction s as [|c s IH].
  { cbn. discriminate. }
  rewrite search_cons.
  destruct (matchAt (String c s)) as [g'|] eqn:E.
  - intros [= ->]. now exists ""%string, (String c s).
  - intros H. destruct (IH H) as (pre & s' & -> & Hm).
    now exists (String c pre), s'.
Qed.

Lemma search_notOpen s : allChars notOpen s = true -> search s = None.
Proof.
  induction s as [|c s IH]; [reflexivity|].
  cbn [allChars]. intros [Hc Hs]%andb_prop.
  rewrite search_cons, (matchAt_notOpen c s Hc). now apply IH.
Qed.

(** X21.  Whatever string [parseMapEntry] is given, if it returns (rather
    than throwing) then the entry holds '[', decimal digits, ']', the
    character of code 25, the returned name, that character again, '(', the
    returned directory and ')'; the identifier is [parseInt] of the digits,
    the name is not empty and holds no character of code 25, the directory
    is not empty and holds no closing parenthesis.  An entry without an
    opening bracket throws. *)
Theorem parseMapEntry_sound (entry : string) (m : mapEntry) :
  parseMapEntry entry = Some m ->
  (exists pre digits rest,
     entry = (pre ++ "[" ++ digits ++ "]"
              ++ String sep (entryName m
              ++ String sep ("(" ++ entryDir m ++ ")" ++ rest)))%string /\
     groupOf isDigit digits /\ entryId m = parseInt digits) /\
  groupOf notSep (entryName m) /\ groupOf notClose (entryDir m) /\
  allChars notOpen entry = false.
Proof.
  unfold parseMapEntry.
  destruct (search entry) as [[[ds nm] dr]|] eqn:E; [|discriminate].
  intros [= <-]. cbn [entryId entryName entryDir].
  destruct (allChars notOpen entry) eqn:Hopen.
  { rewrite (search_notOpen entry Hopen) in E. discriminate. }
  apply search_sound in E as (pre & s' & -> & Hm).
  apply matchAt_sound in Hm as (Hd & Hn & Hr & rest & ->).
  split; [|split; [exact Hn | split; [exact Hr | reflexivity]]].
  exists pre, ds, rest. split; [reflexivity|]. split; [exact Hd | reflexivity].
Qed.

Lemma parseMapEntry_sound_witness :
  groupOf notSep (entryName (MapEntry 530 "Outland" "Expansion01")) /\
  groupOf notClose (entryDir (MapEntry 530 "Outland" "Expansion01")) /\
  allChars notOpen (mapListEntry 2 530 "Outland" "Expansion01") = false.
Proof.
  apply (parseMapEntry_sound (mapListEntry 2 530 "Outland" "Expansion01")
           (MapEntry 530 "Outland" "Expansion01")).
  reflexivity.
Defined.

(** *** The paths of the map tiles *)

Lemma append_inv_head (a b c : string) :
  (a ++ b)%string = (a ++ c)%string -> b = c.
Proof.
  induction a as [|x a IH]; [now intros|].
  change (String x a ++ b)%string with (String x (a ++ b)).
  change (String x a ++ c)%string with (String x (a ++ c)).
  intros H. injection H as H. now apply IH.
Qed.

Lemma uint_of_string_inj d d' :
  NilEmpty.string_of_uint d = NilEmpty.string_of_uint d' -> d = d'.
Proof.
  intros H. apply (f_equal NilEmpty.uint_of_string) in H.
  rewrite !NilEmpty.usu in H. congruence.
Qed.

Lemma decimal_inj n n' : decimal n = decimal n' -> n = n'.
Proof. intros H. now apply Unsigned.to_uint_inj, uint_of_string_inj. Qed.

Lemma nzhead_not_D0 d u : Decimal.nzhead d <> Decimal.D0 u.
Proof. induction d; cbn [Decimal.nzhead]; try discriminate. exact IHd. Qed.

Lemma unorm_D0_inv d u : Decimal.unorm d = Decimal.D0 u -> u = Decimal.Nil.
Proof.
  unfold Decimal.unorm. destruct (Decimal.nzhead d) eqn:E; intros H;
    try discriminate.
  - congruence.
  - now destruct (nzhead_not_D0 d u0).
Qed.

(** A decimal numeral has no leading zero, except the numeral 0. *)
Lemma decimal_leading_zero n s : decimal n = String "0" s -> s = EmptyString.
Proof.
  unfold decimal. intros H.
  assert (Hu : Nat.to_uint n = Decimal.unorm (Nat.to_uint n)).
  { rewrite <- (Unsigned.of_to n) at 1. apply Unsigned.to_of. }
  destruct (Nat.to_uint n) as [|u|u|u|u|u|u|u|u|u|u] eqn:E;
    cbn [NilEmpty.string_of_uint] in H; try discriminate.
  injection H as <-. symmetry in Hu. apply unorm_D0_inv in Hu. now subst u.
Qed.

Lemma padStart2_digits n : allChars isDigit (padStart2 (decimal n)) = true.
Proof.
  pose proof (decimal_digits n) as H. unfold padStart2.
  destruct (String.length (decimal n)) as [|[|k]]; [reflexivity | | exact H].
  exact H.
Qed.

Lemma length_one s : String.length s = 1 -> exists c, s = String c "".
Proof.
  destruct s as [|c [|c' s]]; try discriminate. intros _. now exists c.
Qed.

Lemma padStart2_decimal_inj n n' :
  padStart2 (decimal n) = padStart2 (decimal n') -> n = n'.
Proof.
  pose proof (decimal_nonempty n) as Hn.
  pose proof (decimal_nonempty n') as Hn'.
  unfold padStart2.
  destruct (String.length (decimal n)) as [|[|k]] eqn:L;
    destruct (String.length (decimal n')) as [|[|k']] eqn:L'.
  all: try (destruct (decimal n); [discriminate Hn | discriminate L]).
  all: try (destruct (decimal n'); [discriminate Hn' | discriminate L']).
  - intros H. apply append_inv_head in H. now apply decimal_inj.
  - destruct (length_one _ L) as [c Ec]. rewrite Ec. intros H.
    symmetry in H. apply decimal_leading_zero in H. discriminate.
  - destruct (length_one _ L') as [c Ec]. rewrite Ec. intros H.
    apply decimal_leading_zero in H. discriminate.
  - apply decimal_inj.
Qed.

Lemma span_eq p a rest a' rest' :
  allChars p a = true -> stopsAt p rest ->
  allChars p a' = true -> stopsAt p rest' ->
  (a ++ rest)%string = (a' ++ rest')%string -> a = a' /\ rest = rest'.
Proof.
  intros Ha Hr Ha' Hr' E. apply (f_equal (span p)) in E.
  rewrite !span_app in E by assumption. now injection E.
Qed.

(** X22.  The minimap file requested for a tile determines the tile: for
    one map directory, the paths of two tiles are equal only if the tiles
    have the same coordinates (padding a coordinate to two digits never
    makes two coordinates collide). *)
Theorem tilePath_injective (mapDir : string) (x y x' y' : nat) :
  tilePath mapDir x y = tilePath mapDir x' y' -> x = x' /\ y = y'.
Proof.
  unfold tilePath. intros H.
  do 3 apply append_inv_head in H.
  apply span_eq with (p := isDigit) in H as [Hx H];
    try apply padStart2_digits; try reflexivity.
  apply (append_inv_head "_") in H.
  apply span_eq with (p := isDigit) in H as [Hy _];
    try apply padStart2_digits; try reflexivity.
  split; now apply padStart2_decimal_inj.
Qed.

Lemma tilePath_injective_witness :
  tilePath "azeroth" 3 12 = "world/minimaps/azeroth/map03_12.blp"%string /\
  3 = 3 /\ 12 = 12.
Proof.
  split; [reflexivity|].
  apply (tilePath_injective "azeroth" 3 12 3 12). reflexivity.
Defined.

(** *** Selecting a map of the list *)

Lemma mapListEntry_truthy expansionID id name dir :
  truthyString (Some (mapListEntry expansionID id name dir))
  = Some (mapListEntry expansionID id name dir).
Proof.
  unfold truthyString, mapListEntry.
  pose proof (decimal_nonempty expansionID) as H.
  destruct (decimal expansionID); [discriminate H | reflexivity].
Qed.

(** X23.  Selecting a list entry loads the map it was made from: when the
    view is not busy and the first selected entry is the entry of a map
    (with a name and a directory the expression can match) other than the
    current one, the watcher of the selection calls [loadMap] with the
    map's identifier and directory.  After that the tile selection is
    empty, the selected directory is kept in its original case for the
    view and in lower case for the files, [loadMapTile] requests the tiles
    under the lower-case directory, and the world model button is enabled
    only if the loaded WDT has a world model placement.  Selecting the
    entry of the current map, or selecting while the view is busy, changes
    nothing. *)
Theorem select_listed_map (s : storage) (v : viewer)
    (expansionID id : nat) (name dir : string) (rest : list string) :
  groupOf notSep name -> groupOf notClose dir ->
  let entry := mapListEntry expansionID id name dir in
  let v' := loadMap s v id dir in
  (vSelectedMapID v <> Some id ->
   onSelectionChanged s v 0 (entry :: rest) = Some v') /\
  (vSelectedMapID v = Some id ->
   onSelectionChanged s v 0 (entry :: rest) = Some v) /\
  (forall busy, onSelectionChanged s v (S busy) (entry :: rest) = Some v) /\
  vSelectedMapID v' = Some id /\
  vSelectedMapDir v' = Some (toLowerCase s dir) /\
  mapViewerSelectedDir v' = Some dir /\
  mapViewerSelection v' = [] /\
  (forall (image : Type) (fetch : string -> nat -> option image) x y size,
     String.eqb (toLowerCase s dir) "" = false ->
     loadMapTile fetch v' x y size
     = fetch (tilePath (toLowerCase s dir) x y) size) /\
  (mapViewerHasWorldModel v' = true ->
   exists w p, vSelectedWDT v' = Some w /\ worldModelPlacement w = Some p /\
               mapViewerChunkMask v' = Some (tiles w)).
Proof.
  intros Hn Hd entry v'.
  assert (Hparse : parseMapEntry entry = Some (MapEntry id name dir))
    by exact (parseMapEntry_entry expansionID id name dir Hn Hd).
  assert (Hsel : forall busy,
            onSelectionChanged s v busy (entry :: rest)
            = if busy =? 0 then
                match vSelectedMapID v with
                | Some current =>
                    if current =? id then Some v else Some v'
                | None => Some v'
                end
              else Some v).
  { intros busy. unfold onSelectionChanged. cbn [head].
    unfold entry at 1. rewrite mapListEntry_truthy. fold entry.
    now rewrite Hparse. }
  split.
  { intros Hne. rewrite Hsel. cbn [Nat.eqb].
    destruct (vSelectedMapID v) as [current|]; [|reflexivity].
    destruct (Nat.eqb_spec current id); [congruence | reflexivity]. }
  split.
  { intros Heq. rewrite Hsel, Heq. cbn [Nat.eqb]. now rewrite Nat.eqb_refl. }
  split; [intros busy; now rewrite Hsel|].
  assert (Hv : exists wd hw cm,
            v' = Viewer (Some id) (Some (toLowerCase s dir)) wd hw cm []
                   (Some id) (Some dir) /\
            (hw = true ->
             exists w p, wd = Some w /\ worldModelPlacement w = Some p /\
                         cm = Some (tiles w))).
  { unfold v', loadMap.
    destruct (openWDT s _) as [[w|partial]|].
    - destruct (worldModelPlacement w) as [p|] eqn:Ep.
      + eexists _, _, _. split; [reflexivity|]. intros _. now exists w, p.
      + eexists _, _, _. split; [reflexivity|]. discriminate.
    - eexists _, _, _. split; [reflexivity|]. discriminate.
    - eexists _, _, _. split; [reflexivity|]. discriminate. }
  destruct Hv as (wd & hw & cm & -> & Hw).
  cbn [vSelectedMapID vSelectedMapDir mapViewerSelectedDir mapViewerSelection
       mapViewerHasWorldModel vSelectedWDT mapViewerChunkMask].
  repeat (split; [reflexivity|]). split; [|exact Hw].
  intros image fetch x y size Hdir. unfold loadMapTile.
  cbn [vSelectedMapDir truthyString]. now rewrite Hdir.
Qed.

Definition sampleStorage : storage :=
  Storage (fun d => d)
    (fun _ => Some (Loaded (WDT (Some (Placement 7 0)) None []))).

Definition emptyViewer : viewer :=
  Viewer None None None false None [5; 6] None None.

Lemma select_listed_map_witness :
  onSelectionChanged sampleStorage emptyViewer 0
    [mapListEntry 2 530 "Outland" "expansion01"]
  = Some (loadMap sampleStorage emptyViewer 530 "expansion01").
Proof.
  apply (select_listed_map sampleStorage emptyViewer 2 530 "Outland"
           "expansion01" []).
  - split; reflexivity.
  - split; reflexivity.
  - discriminate.
Defined.

(** *** The export of the world model *)

Lemma worldModelFile_guarded e w p fid fileName :
  worldModelFile e w p = inl (fid, fileName) ->
  fid <> 0 /\
  match truthyString (worldModel w) with
  | Some name => fileName = name /\ getByFilename e name = Some fid
  | None => fid = placementId p
  end.
Proof.
  unfold worldModelFile.
  destruct (truthyString (worldModel w)) as [name|].
  - destruct (getByFilename e name) as [[|n]|]; try discriminate.
    intros H. injection H as <- <-. now repeat split.
  - destruct (Nat.eqb_spec (placementId p) 0); [discriminate|].
    intros H. injection H as <- _. now split.
Qed.

(** X24.  [exportSelectedMapWMO] never asks for the file 0: whenever
    [wmo.exportAsOBJ] is called, the map has a WDT with a world model
    placement whose doodad set is the one exported, the file could be read,
    and the file is the non-zero listfile identifier of the WDT's world
    model name if it has one (the placement's identifier is then not
    looked at), and the placement's non-zero identifier otherwise.  Unless
    the export is cancelled, exactly one mark is made, the cache is cleared
    and [helper.finish()] is called; a successful mark is only made after
    the export call and when nobody cancelled.  When the export is
    cancelled after the call, the function returns at once: no mark, the
    cache is not cleared and [helper.finish()] is not called. *)
Theorem wmo_export_guarded (e : wmoEnvironment) (selectedWDT : option wdt) :
  let r := exportSelectedMapWMO e selectedWDT in
  (forall fid set path,
     exportedOBJ r = Some (fid, set, path) ->
     fid <> 0 /\ getFileError e fid = None /\
     exists w p,
       selectedWDT = Some w /\ worldModelPlacement w = Some p /\
       set = doodadSetIndex p /\
       match truthyString (worldModel w) with
       | Some name => getByFilename e name = Some fid
       | None => fid = placementId p
       end) /\
  wmoCacheCleared r = wmoFinished r /\
  (wmoFinished r = true -> exists m, wmoMarks r = [m]) /\
  (wmoFinished r = false ->
   wmoMarks r = [] /\ wmoCancelled e = true /\ exportedOBJ r <> None) /\
  (forall m, In m (wmoMarks r) -> markedOk m = true ->
     exportedOBJ r <> None /\ wmoCancelled e = false).
Proof.
  cbv zeta. unfold exportSelectedMapWMO.
  assert (Hfail : forall x message,
            let r := wmoFailed x message in
            wmoCacheCleared r = wmoFinished r /\
            (wmoFinished r = true -> exists m, wmoMarks r = [m]) /\
            (wmoFinished r = false ->
             wmoMarks r = [] /\ wmoCancelled e = true /\ exportedOBJ r <> None) /\
            (forall m, In m (wmoMarks r) -> markedOk m = true ->
               exportedOBJ r <> None /\ wmoCancelled e = false)).
  { intros x message. cbn. split; [reflexivity|].
    split; [intros _; eexists; reflexivity|]. split; [discriminate|].
    intros m [<-|[]] Hm. discriminate. }
  destruct selectedWDT as [w|];
    [|split; [discriminate | apply Hfail]].
  destruct (worldModelPlacement w) as [p|] eqn:Ep;
    [|split; [discriminate | apply Hfail]].
  destruct (worldModelFile e w p) as [[fid fileName]|message] eqn:Ef;
    [|split; [discriminate | apply Hfail]].
  destruct (worldModelFile_guarded e w p fid fileName Ef) as [Hfid Hsrc].
  destruct (getFileError e fid) as [message|] eqn:Eg;
    [split; [discriminate | apply Hfail]|].
  assert (Hcall : forall fid' set path,
            Some (fid, doodadSetIndex p,
                  replaceExtension e (getExportPath e fileName) ".obj")
            = Some (fid', set, path) ->
            fid' <> 0 /\ getFileError e fid' = None /\
            exists w' p',
              Some w = Some w' /\ worldModelPlacement w' = Some p' /\
              set = doodadSetIndex p' /\
              match truthyString (worldModel w') with
              | Some name => getByFilename e name = Some fid'
              | None => fid' = placementId p'
              end).
  { intros fid' set path H. injection H as <- <- <-.
    split; [exact Hfid|]. split; [exact Eg|].
    exists w, p. repeat split; try assumption.
    destruct (truthyString (worldModel w)); [apply Hsrc | exact Hsrc]. }
  destruct (exportError e fid (doodadSetIndex p) _) as [message|].
  { split; [exact Hcall | apply Hfail]. }
  destruct (wmoCancelled e); cbn.
  - split; [exact Hcall|]. split; [reflexivity|]. split; [discriminate|].
    split; [intros _; now repeat split | intros m []].
  - split; [exact Hcall|]. split; [reflexivity|].
    split; [intros _; eexists; reflexivity|]. split; [discriminate|].
    intros m _ _. now split.
Qed.

End MapViewerProofs.

(** ** The keys of FaceCuller *)

Module TriangleKeys.
Import FaceCuller MapViewer MapViewerProofs.

(** The order of [sort((a, b) => a - b)], with [undefined] last. *)
Definition idxLe (a b : jsidx) : Prop := idx_leb a b = true.

Lemma idxLe_total a b : idx_leb a b = false -> idxLe b a.
Proof.
  unfold idxLe. destruct a as [x|], b as [y|]; cbn; try discriminate;
    try reflexivity.
  intros H%Nat.leb_gt. apply Nat.leb_le. lia.
Qed.

Lemma idxLe_trans a b c : idxLe a b -> idxLe b c -> idxLe a c.
Proof.
  unfold idxLe. destruct a as [x|], b as [y|], c as [z|]; cbn;
    try discriminate; try reflexivity.
  intros H1%Nat.leb_le H2%Nat.leb_le. apply Nat.leb_le. lia.
Qed.

Lemma idxLe_antisym a b : idxLe a b -> idxLe b a -> a = b.
Proof.
  unfold idxLe. destruct a as [x|], b as [y|]; cbn; try discriminate;
    try reflexivity.
  intros H1%Nat.leb_le H2%Nat.leb_le. f_equal. lia.
Qed.

Lemma insertSorted_perm x l : insertSorted x l ≡ₚ x :: l.
Proof.
  induction l as [|b l IH]; cbn [insertSorted]; [reflexivity|].
  destruct (idx_leb x b); [reflexivity|].
  rewrite IH. apply perm_swap.
Qed.

Lemma insertSorted_sorted x l :
  StronglySorted idxLe l -> StronglySorted idxLe (insertSorted x l).
Proof.
  induction 1 as [|b l Hl IH Hb]; cbn [insertSorted].
  { repeat constructor. }
  destruct (idx_leb x b) eqn:E.
  - constructor; [now constructor|]. constructor; [exact E|].
    eapply Forall_impl; [exact Hb|]. intros y Hy.
    now apply idxLe_trans with b.
  - constructor; [exact IH|].
    rewrite insertSorted_perm. constructor; [now apply idxLe_total | exact Hb].
Qed.

Lemma sortedIndices_perm a b c : sortedIndices a b c ≡ₚ [a; b; c].
Proof.
  unfold sortedIndices. now rewrite !insertSorted_perm.
Qed.

Lemma sortedIndices_sorted a b c : StronglySorted idxLe (sortedIndices a b c).
Proof.
  unfold sortedIndices. do 3 apply insertSorted_sorted. constructor.
Qed.

Lemma sortedIndices_three a b c :
  exists x y z, sortedIndices a b c = [x; y; z].
Proof.
  pose proof (Permutation_length (sortedIndices_perm a b c)) as H.
  destruct (sortedIndices a b c) as [|x [|y [|z [|u l]]]]; try discriminate.
  now exists x, y, z.
Qed.

(** [String(x)] of an array element: digits only, and different for
    different elements. *)
Lemma idxToString_digits i : allChars isDigit (idxToString i) = true.
Proof. destruct i as [n|]; [apply decimal_digits | reflexivity]. Qed.

Lemma idxToString_inj i j : idxToString i = idxToString j -> i = j.
Proof.
  destruct i as [n|], j as [m|]; cbn [idxToString]; intros H.
  - f_equal. now apply decimal_inj.
  - pose proof (decimal_nonempty n) as Hn.
    change (NilEmpty.string_of_uint (Nat.to_uint n)) with (decimal n) in H.
    rewrite H in Hn. discriminate.
  - pose proof (decimal_nonempty m) as Hm.
    change (NilEmpty.string_of_uint (Nat.to_uint m)) with (decimal m) in H.
    rewrite <- H in Hm. discriminate.
  - reflexivity.
Qed.

Lemma join_three x y z :
  String.concat "-" (map idxToString [x; y; z])
  = (idxToString x ++ String "-" (idxToString y ++ String "-" (idxToString z)))%string.
Proof. reflexivity. Qed.

Lemma join_three_inj x y z x' y' z' :
  String.concat "-" (map idxToString [x; y; z])
  = String.concat "-" (map idxToString [x'; y'; z']) ->
  [x; y; z] = [x'; y'; z'].
Proof.
  rewrite !join_three. intros H.
  apply span_eq with (p := isDigit) in H as [Hx H];
    try apply idxToString_digits; try reflexivity.
  injection H as H.
  apply span_eq with (p := isDigit) in H as [Hy H];
    try apply idxToString_digits; try reflexivity.
  injection H as Hz.
  apply idxToString_inj in Hx, Hy, Hz. now subst.
Qed.

(** X25.  Two groups of three indices get the same key exactly when they
    hold the same three indices in some order: the key ignores the winding
    of a triangle, and triangles on different vertices never share a key
    (an [undefined] index of an incomplete group counts as an index of its
    own). *)
Theorem triangleKey_same_vertices (a b c a' b' c' : jsidx) :
  triangleKey a b c = triangleKey a' b' c' <-> [a; b; c] ≡ₚ [a'; b'; c'].
Proof.
  unfold triangleKey. split.
  - intros H.
    destruct (sortedIndices_three a b c) as (x & y & z & E).
    destruct (sortedIndices_three a' b' c') as (x' & y' & z' & E').
    rewrite E, E' in H. apply join_three_inj in H.
    rewrite <- (sortedIndices_perm a b c), <- (sortedIndices_perm a' b' c').
    now rewrite E, E', H.
  - intros H. f_equal. f_equal.
    apply (@StronglySorted_unique _ idxLe idxLe_antisym).
    + apply sortedIndices_sorted.
    + apply sortedIndices_sorted.
    + now rewrite !sortedIndices_perm.
Qed.

End TriangleKeys.
